(** * Hash tables of [src/lib/hashtables.ts]

    A shallow embedding of the chaining hash table ([ch_*]) and of the
    linear-probing hash table with tombstones ([ph_*]), followed by the
    properties of the two tables.

    Conventions of the embedding.
    - A JavaScript [number] that the tables use as a hash or an index is an
      integer [Z]; [%] is the truncating remainder [Z.rem] (the sign follows
      the dividend), which is exact on numbers.  [+] on numbers is the sum
      rounded to the nearest double ([js_add]): it is the sum of the integers
      as long as that stays within [2^53].
    - [===] on keys is a decidable equality on the key type [K]: the keys
      are values that [===] equates with themselves (not [NaN]).
    - [undefined] is [None]; the key type contains neither [null] nor
      [undefined], the value type of a bucket does not contain [undefined].
    - Mutation of the table object is state passing: an operation returns
      its result together with the table after the call. *)

From stdpp Require Import base numbers option list list_numbers sorting gmap
  strings.

Set Default Proof Using "Type".

(** ** List primitives imported from [./list] *)

Module ListLib.

(** Modelled from the spec: [pair] of [src/lib/list.ts], a file that
    [hashtables.ts] imports and whose text is missing; the spec asks for an
    immutable sequence type supporting prepend, scan and rebuild. *)
Definition pair {H T : Type} (hd : H) (tl : T) : H * T := (hd, tl).

(** Modelled from the spec: [head] of [src/lib/list.ts] (first component
    of a pair). *)
Definition head {H T : Type} (p : H * T) : H := fst p.

(** Modelled from the spec: [tail] of [src/lib/list.ts] (second component
    of a pair). *)
Definition tail {H T : Type} (p : H * T) : T := snd p.

(** Modelled from the spec: [map] of [src/lib/list.ts], the rebuild of a
    sequence element by element, in order. *)
Fixpoint map {T U : Type} (f : T -> U) (xs : list T) : list U :=
  match xs with
  | [] => []
  | x :: rest => f x :: map f rest
  end.

(** Modelled from the spec: [filter] of [src/lib/list.ts], the rebuild of
    a sequence keeping the elements that pass the test, in order. *)
Fixpoint filter {T : Type} (pred : T -> bool) (xs : list T) : list T :=
  match xs with
  | [] => []
  | x :: rest => if pred x then x :: filter pred rest else filter pred rest
  end.

(** Modelled from the spec: [flatten] of [src/lib/list.ts], the
    concatenation of a sequence of sequences in order. *)
Fixpoint flatten {T : Type} (xss : list (list T)) : list T :=
  match xss with
  | [] => []
  | xs :: rest => xs ++ flatten rest
  end.

(** Modelled from the spec: [build_list] of [src/lib/list.ts], the list
    [fun 0, fun 1, ..., fun (n-1)] in index order. *)
Definition build_list {T : Type} (fn : nat -> T) (n : nat) : list T :=
  map fn (seq 0 n).

End ListLib.

(** ** Index normalisation *)

(** [mod(nmb, modulus) = (nmb % modulus + modulus) % modulus], named [mod']
    here since [mod] is a reserved notation.  For [modulus = 0] the source
    computes [NaN]; the callers pass [arr.length], and reading [arr] then
    yields [undefined] both for [NaN] and for the value computed here, as
    the array is empty (see [bucket_at]). *)
Definition mod' (nmb modulus : Z) : Z :=
  Z.rem (Z.rem nmb modulus + modulus) modulus.

(** ** Addition of numbers

    A [number] is a double.  The integers that are doubles are those of
    absolute value below [2^53] and, beyond, the multiples of the power of
    two that leaves 53 significant bits. *)

(** The double nearest to the integer [x], ties going to the even
    significand.  This is for [x] of absolute value below [2^1024], beyond
    which a sum is an infinity; the sum of a number and of an index of an
    array, which is below [2^32], is never rounded that far. *)
Definition round_double (x : Z) : Z :=
  let a := Z.abs x in
  if (a <? 2 ^ 53)%Z then x
  else
    let ulp := (2 ^ (Z.log2 a - 52))%Z in
    let q := (a `div` ulp)%Z in
    let r := (a `mod` ulp)%Z in
    let q' := if (2 * r <? ulp)%Z then q
              else if (ulp <? 2 * r)%Z then (q + 1)%Z
              else if Z.even q then q else (q + 1)%Z in
    (Z.sgn x * (q' * ulp))%Z.

(** [a + b] on numbers of integer value.  [a + 0] is [a] for every number
    [a]; that case is apart so that the equation is also that of an integer
    [a] that is no double, which no number is. *)
Definition js_add (a b : Z) : Z :=
  if decide (b = 0%Z) then a else round_double (a + b).

(** ** Sparse arrays

    [new Array(size)] has length [size] and no element: reading any index
    gives [undefined].  An array is its [length] and its integer-named
    properties; a read of a property that was never written is [None]. *)

Record JsArray (A : Type) := mkArray {
  alength : nat;
  aprops : gmap Z A
}.
Arguments mkArray {A} _ _.
Arguments alength {A} _.
Arguments aprops {A} _.

Definition new_Array {A : Type} (size : nat) : JsArray A :=
  mkArray size ∅.

(** [a[i]] *)
Definition aget {A : Type} (a : JsArray A) (i : Z) : option A :=
  aprops a !! i.

(** The length after a write at [i]: an index at or beyond the end extends
    the array, a negative one is an ordinary property. *)
Definition grown (len : nat) (i : Z) : nat :=
  if decide (0 ≤ i)%Z then Nat.max len (Z.to_nat (i + 1)) else len.

(** [a[i] = x] for a defined [x] *)
Definition aset {A : Type} (a : JsArray A) (i : Z) (x : A) : JsArray A :=
  mkArray (grown (alength a) i) (<[i := x]> (aprops a)).

(** [a[i] = undefined]: an element that is [undefined] and an element that
    is missing read the same. *)
Definition aset_undefined {A : Type} (a : JsArray A) (i : Z) : JsArray A :=
  mkArray (grown (alength a) i) (delete i (aprops a)).

(** The content of a key slot that is not [undefined]: [null] (a deleted
    key) or a key. *)
Inductive Slot (K : Type) :=
  | Null : Slot K
  | Key : K -> Slot K.
Arguments Null {K}.
Arguments Key {K} _.

Global Instance Slot_eq_dec {K : Type} `{EqDecision K} : EqDecision (Slot K).
Proof. solve_decision. Defined.

Section Tables.

Context {K V : Type} `{EqDecision K}.

(** ** Chaining hash table *)

(** [arr] is built by [ch_empty] with every index filled ([null], the
    empty chain), so it is a dense list of chains. *)
Record ChainingHashtable := mkChaining {
  arr : list (list (K * V));
  ch_hash : K -> Z
}.

Definition ch_empty (size : nat) (hash : K -> Z) : ChainingHashtable :=
  mkChaining (replicate size []) hash.

(** The [is_null] test of the source is the match on the list ([null] is
    the empty list). *)
Fixpoint scan (xs : list (K * V)) (key : K) : option V :=
  match xs with
  | [] => None
  | x :: rest =>
      if decide (key = ListLib.head x) then Some (ListLib.tail x)
      else scan rest key
  end.

(** [arr[index]]: [None] is [undefined], which is what the read gives
    outside of the array; [scan] then throws a [TypeError] on it. *)
Definition bucket_at (a : list (list (K * V))) (index : Z)
  : option (list (K * V)) :=
  if decide (0 ≤ index)%Z then a !! Z.to_nat index else None.

(** The chaining operations return [None] when the source throws.  A
    [pair(x, xs)] that prepends to a chain is [x :: xs]. *)
Definition ch_lookup (t : ChainingHashtable) (key : K)
  : option (option V) :=
  bucket ← bucket_at (arr t) (mod' (ch_hash t key) (Z.of_nat (length (arr t))));
  Some (scan bucket key).

Definition ch_insert (t : ChainingHashtable) (key : K) (value : V)
  : option (bool * ChainingHashtable) :=
  let index := mod' (ch_hash t key) (Z.of_nat (length (arr t))) in
  bucket ← bucket_at (arr t) index;
  match scan bucket key with
  | None =>
      Some (false,
            mkChaining
              (<[Z.to_nat index :=
                   ListLib.pair key value :: bucket]> (arr t))
              (ch_hash t))
  | Some _ =>
      Some (true,
            mkChaining
              (<[Z.to_nat index :=
                   ListLib.map
                     (fun kv => if decide (key = ListLib.head kv)
                                then ListLib.pair key value else kv)
                     bucket]> (arr t))
              (ch_hash t))
  end.

Definition ch_delete (t : ChainingHashtable) (key : K)
  : option (bool * ChainingHashtable) :=
  let index := mod' (ch_hash t key) (Z.of_nat (length (arr t))) in
  bucket ← bucket_at (arr t) index;
  match scan bucket key with
  | None => Some (false, t)
  | Some _ =>
      Some (true,
            mkChaining
              (<[Z.to_nat index :=
                   ListLib.filter
                     (fun kv => bool_decide (ListLib.head kv ≠ key))
                     bucket]> (arr t))
              (ch_hash t))
  end.

(** [build_list] reads [arr[i]] for [i < arr.length] only, so the default of
    the read is never used. *)
Definition ch_keys (tab : ChainingHashtable) : list K :=
  ListLib.map ListLib.head
    (ListLib.flatten
       (ListLib.build_list (fun i => default [] (arr tab !! i))
          (length (arr tab)))).

(** A client's calls on a chaining table, and their effect from left to
    right; [None] when a call throws. *)
Inductive ch_op :=
  | ChInsert (key : K) (value : V)
  | ChDelete (key : K).

Fixpoint ch_run (t : ChainingHashtable) (ops : list ch_op)
  : option ChainingHashtable :=
  match ops with
  | [] => Some t
  | ChInsert key value :: rest =>
      r ← ch_insert t key value; ch_run r.2 rest
  | ChDelete key :: rest =>
      r ← ch_delete t key; ch_run r.2 rest
  end.

(** What the calls leave live, read off the calls alone: an insert binds
    the key, a delete unbinds it. *)
Fixpoint ch_live (ops : list ch_op) (m : K -> option V) : K -> option V :=
  match ops with
  | [] => m
  | ChInsert key value :: rest =>
      ch_live rest (fun k => if decide (k = key) then Some value else m k)
  | ChDelete key :: rest =>
      ch_live rest (fun k => if decide (k = key) then None else m k)
  end.

(** Every pair sits in the chain its key hashes to. *)
Definition ch_placed (t : ChainingHashtable) : Prop :=
  ∀ (i : nat) bucket k v,
    arr t !! i = Some bucket -> (k, v) ∈ bucket ->
    Z.to_nat (mod' (ch_hash t k) (Z.of_nat (length (arr t)))) = i.

(** What [ch_insert] and [ch_delete] have in common: the chain of the key
    is rebuilt, [f] is what a scan of the new chain finds for the key. *)
Definition ch_rebuilt (t t' : ChainingHashtable) (key : K)
    (f : option V) : Prop :=
  let index := Z.to_nat (mod' (ch_hash t key) (Z.of_nat (length (arr t)))) in
  ∃ bucket bucket',
    arr t !! index = Some bucket
    ∧ arr t' = <[index := bucket']> (arr t)
    ∧ ch_hash t' = ch_hash t
    ∧ (∀ k, scan bucket' k = if decide (k = key) then f else scan bucket k)
    ∧ (∀ k, k ∈ bucket'.*1 -> k = key ∨ k ∈ bucket.*1).

(** ** Probing hash table *)

Record ProbingHashtable := mkProbing {
  keys : JsArray (Slot K);
  values : JsArray V;
  hash : K -> Z;
  entries : Z
}.

Definition ph_empty (size : nat) (hash_function : K -> Z)
  : ProbingHashtable :=
  mkProbing (new_Array size) (new_Array size) hash_function 0.

(** The [for] loop of [probe] with counter [i]; [todo] is the number of
    iterations left before [i] reaches [keys.length]. *)
Fixpoint probe_loop (ks : JsArray (Slot K)) (key : K) (hash : Z)
    (skip_null : bool) (todo : nat) (i : Z) : option Z :=
  match todo with
  | O => None
  | S todo' =>
      let idx := Z.rem (js_add hash i) (Z.of_nat (alength ks)) in
      match aget ks idx with
      | Some (Key k) =>
          if decide (k = key) then Some idx
          else probe_loop ks key hash skip_null todo' (i + 1)
      | None => Some idx
      | Some Null =>
          if skip_null then probe_loop ks key hash skip_null todo' (i + 1)
          else Some idx
      end
  end.

Definition probe (ks : JsArray (Slot K)) (key : K) (hash : Z)
    (skip_null : bool) : option Z :=
  probe_loop ks key hash skip_null (alength ks) 0.

Definition ph_lookup (ht : ProbingHashtable) (key : K) : option V :=
  let start_idx := hash ht key in
  match probe (keys ht) key start_idx true with
  | None => None
  | Some idx => aget (values ht) idx
  end.

(** The index [ph_insert] settles on after its first probe returned
    [idx]: the second probe, made when [keys[idx]] is [null], replaces
    [idx] whenever it returns an index. *)
Definition resolve (ks : JsArray (Slot K)) (key : K) (idx : Z) : Z :=
  match aget ks idx with
  | Some Null =>
      match probe ks key idx true with
      | Some key_idx => key_idx
      | None => idx
      end
  | _ => idx
  end.

Definition ph_insert (ht : ProbingHashtable) (key : K) (value : V)
  : bool * ProbingHashtable :=
  let start_idx := hash ht key in
  match probe (keys ht) key start_idx false with
  | None => (false, ht)
  | Some idx0 =>
      let idx := resolve (keys ht) key idx0 in
      if decide (aget (keys ht) idx = Some (Key key)) then
        (true,
         mkProbing (aset (keys ht) idx (Key key))
           (aset (values ht) idx value) (hash ht) (entries ht))
      else if decide (entries ht = Z.of_nat (alength (keys ht))) then
        (false, ht)
      else
        (true,
         mkProbing (aset (keys ht) idx (Key key))
           (aset (values ht) idx value) (hash ht) (entries ht + 1))
  end.

Definition ph_delete (ht : ProbingHashtable) (key : K)
  : option V * ProbingHashtable :=
  let start_idx := hash ht key in
  match probe (keys ht) key start_idx true with
  | None => (None, ht)
  | Some idx =>
      match aget (keys ht) idx with
      | None => (None, ht)
      | Some _ =>
          (aget (values ht) idx,
           mkProbing (aset (keys ht) idx Null)
             (aset_undefined (values ht) idx) (hash ht) (entries ht - 1))
      end
  end.

Fixpoint filterNulls (xs : list (option (Slot K))) : list K :=
  match xs with
  | [] => []
  | x :: rest =>
      match x with
      | None | Some Null => filterNulls rest
      | Some (Key k) => k :: filterNulls rest
      end
  end.

Definition ph_keys (tab : ProbingHashtable) : list K :=
  filterNulls
    (ListLib.build_list (fun i => aget (keys tab) (Z.of_nat i))
       (alength (keys tab))).

(** ** Vocabulary of the properties *)

(** The chain rebuilt by [ch_insert] when the key is there. *)
Definition replaced (key : K) (value : V) (xs : list (K * V))
  : list (K * V) :=
  ListLib.map
    (fun kv => if decide (key = ListLib.head kv)
               then ListLib.pair key value else kv) xs.

(** The slots of a key array, in index order. *)
Definition slots (ks : JsArray (Slot K)) : list (option (Slot K)) :=
  (fun i => aget ks (Z.of_nat i)) <$> seq 0 (alength ks).

Definition is_key (s : option (Slot K)) : bool :=
  match s with
  | Some (Key _) => true
  | _ => false
  end.

(** The indices of the slots that hold a key, in increasing order. *)
Definition occupied_indices (ks : JsArray (Slot K)) : list nat :=
  filter (fun i : nat => is_key (aget ks (Z.of_nat i)))
    (seq 0 (alength ks)).

(** What a slot adds to the number of keys. *)
Definition weight (s : option (Slot K)) : nat :=
  if is_key s then 1%nat else 0%nat.

(** The number of slots that hold a key. *)
Definition occupied (ks : JsArray (Slot K)) : nat :=
  length (filter (fun s => is_key s) (slots ks)).

(** The index [probe] looks at in iteration [i]. *)
Definition pos (ks : JsArray (Slot K)) (hash i : Z) : Z :=
  Z.rem (js_add hash i) (Z.of_nat (alength ks)).

(** The three tests that make [probe] return at a slot. *)
Definition stops (key : K) (skip_null : bool) (s : option (Slot K))
  : bool :=
  match s with
  | Some (Key k) => bool_decide (k = key)
  | None => true
  | Some Null => negb skip_null
  end.

(** The indices [probe] reads, in the order it reads them: the loop of
    [probe_loop], recording [idx] at each iteration. *)
Fixpoint probe_trace (ks : JsArray (Slot K)) (key : K) (hash : Z)
    (skip_null : bool) (todo : nat) (i : Z) : list Z :=
  match todo with
  | O => []
  | S todo' =>
      let idx := Z.rem (js_add hash i) (Z.of_nat (alength ks)) in
      match aget ks idx with
      | Some (Key k) =>
          if decide (k = key) then [idx]
          else idx :: probe_trace ks key hash skip_null todo' (i + 1)
      | None => [idx]
      | Some Null =>
          if skip_null
          then idx :: probe_trace ks key hash skip_null todo' (i + 1)
          else [idx]
      end
  end.

(** Where [ph_insert] is after its probes, the first of which returned
    [idx0]: at position [j] of the probe sequence of [h], with no
    [undefined] and no occurrence of the key before it, and on a [null]
    slot only if that is [idx0] and the second probe returned nothing. *)
Definition settled (ks : JsArray (Slot K)) (key : K) (h idx0 j : Z)
  : Prop :=
  (0 ≤ j < Z.of_nat (alength ks))%Z
  ∧ (∀ j' : Z, (0 ≤ j' < j)%Z ->
               stops key true (aget ks (pos ks h j')) = false)
  ∧ (aget ks (pos ks h j) = None
     ∨ aget ks (pos ks h j) = Some (Key key)
     ∨ (aget ks (pos ks h j) = Some Null
        ∧ pos ks h j = idx0 ∧ probe ks key idx0 true = None)).

(** The hash functions of the claims: no negative hash. *)
Definition hash_nonneg (ht : ProbingHashtable) : Prop :=
  ∀ k, (0 ≤ hash ht k)%Z.

(** A hash value [h] whose probe sequence in an array of [size] slots is
    computed without rounding: [h] is not negative, [h + i] is at most
    [2^53] for every [i] below [size], and [size] is the length of an
    array (below [2^32]). *)
Definition hash_fits (size : nat) (h : Z) : Prop :=
  (Z.of_nat size < 2 ^ 32 ∧ 0 ≤ h ∧ h + Z.of_nat size - 1 ≤ 2 ^ 53)%Z.

(** The reuse of a [null] slot as the specification words it: when the
    first probe of [ph_insert] stops at a [null] slot and the second
    probe does not find the key, the key is written at that slot. *)
Definition reuses_tombstone (ht : ProbingHashtable) (key : K) (value : V)
  : Prop :=
  ∀ idx0 : Z,
    probe (keys ht) key (hash ht key) false = Some idx0 ->
    aget (keys ht) idx0 = Some Null ->
    (∀ key_idx : Z,
        probe (keys ht) key idx0 true = Some key_idx ->
        aget (keys ht) key_idx ≠ Some (Key key)) ->
    aget (keys (ph_insert ht key value).2) idx0 = Some (Key key).

(** What holds of the tables a client can build with hash values that fit
    (see [ph_reachable]): no key outside of the array, [entries] counts the
    keys, no key twice, no [undefined] slot on the probe sequence of a key
    before the slot of the key, and every key on its own probe sequence. *)
Record ph_wf (ht : ProbingHashtable) : Prop := mk_ph_wf {
  wf_dom : ∀ i : Z,
    aget (keys ht) i ≠ None ->
    (0 ≤ i < Z.of_nat (alength (keys ht)))%Z;
  wf_count : entries ht = Z.of_nat (occupied (keys ht));
  wf_uniq : ∀ (i j : Z) (k : K),
    aget (keys ht) i = Some (Key k) ->
    aget (keys ht) j = Some (Key k) -> i = j;
  wf_path : ∀ (k : K) (j : Z),
    (0 ≤ j < Z.of_nat (alength (keys ht)))%Z ->
    aget (keys ht) (pos (keys ht) (hash ht k) j) = Some (Key k) ->
    ∀ j' : Z, (0 ≤ j' < j)%Z ->
              aget (keys ht) (pos (keys ht) (hash ht k) j') ≠ None;
  wf_on : ∀ (k : K) (p : Z),
    aget (keys ht) p = Some (Key k) ->
    ∃ j : Z, (0 ≤ j < Z.of_nat (alength (keys ht)))%Z
             ∧ pos (keys ht) (hash ht k) j = p
}.

(** The tables a client can build: [ph_empty] followed by any sequence of
    [ph_insert] and [ph_delete]. *)
Inductive ph_reachable (size : nat) (h : K -> Z)
  : ProbingHashtable -> Prop :=
  | reach_empty : ph_reachable size h (ph_empty size h)
  | reach_insert ht key value :
      ph_reachable size h ht ->
      ph_reachable size h (ph_insert ht key value).2
  | reach_delete ht key :
      ph_reachable size h ht ->
      ph_reachable size h (ph_delete ht key).2.

(** Insertion of a list of pairs, left to right, with the results. *)
Fixpoint ph_insert_all (ht : ProbingHashtable) (kvs : list (K * V))
  : list bool * ProbingHashtable :=
  match kvs with
  | [] => ([], ht)
  | (k, v) :: rest =>
      let '(b, ht') := ph_insert ht k v in
      let '(bs, ht'') := ph_insert_all ht' rest in
      (b :: bs, ht'')
  end.

End Tables.

Arguments ChainingHashtable : clear implicits.
Arguments ProbingHashtable : clear implicits.

(** ** Hash functions and tables used in the examples *)

(** [hash_id], the identity on numeric keys. *)
Definition hash_id (key : Z) : Z := key.

(** [hash_id] on keys that are natural numbers: it has no negative value. *)
Definition hash_nat (key : nat) : Z := hash_id (Z.of_nat key).

(** Capacity 3, after [insert(0,x)], [insert(3,y)], [insert(1,z)]: the
    three keys are in slots 0, 1 and 2. *)
Definition ph_three : ProbingHashtable nat string :=
  (ph_insert
     (ph_insert (ph_insert (ph_empty 3 hash_nat) 0%nat "x").2 3%nat "y").2
     1%nat "z").2.

(** Capacity 4, after [insert(0,a)], [insert(4,b)], [delete(0)]: slot 0 is
    [null], slot 1 holds 4, slots 2 and 3 are [undefined]. *)
Definition ph_tombstone : ProbingHashtable Z string :=
  (ph_delete
     (ph_insert (ph_insert (ph_empty 4 hash_id) 0%Z "a").2 4%Z "b").2
     0%Z).2.

(** Capacity 4, after [insert(5,a)], [insert(9,b)]: both keys are in the
    chain of index 1, the last inserted first. *)
Definition ch_two : ChainingHashtable Z string :=
  mkChaining [[]; [(9%Z, "b"); (5%Z, "a")]; []; []] hash_id.

(** A hash function with values below 16 on keys that are natural
    numbers. *)
Definition hash_low (key : nat) : Z := Z.of_nat (key `mod` 16).

(** [ph_three] with [hash_low] for hash function. *)
Definition ph_low : ProbingHashtable nat string :=
  (ph_insert
     (ph_insert (ph_insert (ph_empty 3 hash_low) 0%nat "x").2 3%nat "y").2
     1%nat "z").2.

(** [hash_id] on keys that are non-negative integers: it has no negative
    value. *)
Definition hash_N (key : N) : Z := hash_id (Z.of_N key).

(** Keys from [2^53] on: [hash_id(key) + i] is rounded. *)
Definition big (d : N) : N := (2 ^ 53 + d)%N.

(** Capacity 3, after [insert(2^53,a)], [delete(2^53)]: slot 2 is [null],
    slots 0 and 1 are [undefined]. *)
Definition ph_big_deleted : ProbingHashtable N string :=
  (ph_delete (ph_insert (ph_empty 3 hash_N) (big 0) "a").2 (big 0)).2.

(** Capacity 3, after [insert(2^53,a)], [delete(2^53)], [insert(2^53+6,b)],
    [insert(2^53,a)], [insert(2^53+12,c)]: the keys are [2^53+6], [2^53],
    [2^53+12] in slots 0, 1, 2. *)
Definition ph_big_full : ProbingHashtable N string :=
  (ph_insert
     (ph_insert (ph_insert ph_big_deleted (big 6) "b").2 (big 0) "a").2
     (big 12) "c").2.

(** Capacity 4, after [insert(2,a)], [insert(0,b)], [delete(0)],
    [insert(2^53+2,c)], [delete(2)], [insert(2^53+2,d)]. *)
Definition ph_big_twice : ProbingHashtable N string :=
  (ph_insert
     (ph_delete
        (ph_insert
           (ph_delete
              (ph_insert (ph_insert (ph_empty 4 hash_N) 2%N "a").2 0%N "b").2
              0%N).2
           (big 2) "c").2
        2%N).2
     (big 2) "d").2.

(** ** Runs of calls and their reference model *)

Section Runs.

Context {K V : Type} `{EqDecision K}.

(** No key of a chain occurs twice in it. *)
Definition ch_nodup (t : ChainingHashtable K V) : Prop :=
  ∀ (i : nat) bucket, arr t !! i = Some bucket -> NoDup bucket.*1.

(** The data invariant of the probing table that its declaration states: a
    value slot is defined exactly where the key slot holds a key. *)
Definition ph_vals (ht : ProbingHashtable K V) : Prop :=
  ∀ i : Z, is_Some (aget (values ht) i) ↔ is_key (aget (keys ht) i) = true.

(** A probing table in good order: well formed, with values where the keys
    are. *)
Definition ph_ok (ht : ProbingHashtable K V) : Prop :=
  ph_wf ht ∧ ph_vals ht.

(** Every key of the table is found, at its slot, by the probe that skips
    [null]. *)
Definition ph_found (ht : ProbingHashtable K V) : Prop :=
  ∀ key p,
    aget (keys ht) p = Some (Key key) ->
    probe (keys ht) key (hash ht key) true = Some p.

(** What [ph_lookup] needs to return the value of every key of the
    table. *)
Definition ph_sound (ht : ProbingHashtable K V) : Prop :=
  ph_found ht ∧ ph_vals ht.

(** No key was deleted. *)
Definition no_null (ht : ProbingHashtable K V) : Prop :=
  ∀ i : Z, aget (keys ht) i ≠ Some Null.

(** A client's calls on a probing table and what they return. *)
Inductive ph_op :=
  | PhInsert (key : K) (value : V)
  | PhDelete (key : K)
  | PhLookup (key : K).

Inductive ph_res :=
  | RInsert (ok : bool)
  | RDelete (removed : option V)
  | RLookup (found : option V).

Fixpoint ph_run (ht : ProbingHashtable K V) (ops : list ph_op)
  : list ph_res * ProbingHashtable K V :=
  match ops with
  | [] => ([], ht)
  | PhInsert key value :: rest =>
      let '(ok, ht1) := ph_insert ht key value in
      let '(rs, ht2) := ph_run ht1 rest in
      (RInsert ok :: rs, ht2)
  | PhDelete key :: rest =>
      let '(removed, ht1) := ph_delete ht key in
      let '(rs, ht2) := ph_run ht1 rest in
      (RDelete removed :: rs, ht2)
  | PhLookup key :: rest =>
      let '(rs, ht2) := ph_run ht rest in
      (RLookup (ph_lookup ht key) :: rs, ht2)
  end.

(** The reference model: a dictionary with room for [cap] bindings, as a
    list of bindings with pairwise distinct keys. *)
Fixpoint bd_lookup (m : list (K * V)) (key : K) : option V :=
  match m with
  | [] => None
  | (k, v) :: rest => if decide (k = key) then Some v else bd_lookup rest key
  end.

Fixpoint bd_remove (m : list (K * V)) (key : K) : list (K * V) :=
  match m with
  | [] => []
  | (k, v) :: rest =>
      if decide (k = key) then bd_remove rest key
      else (k, v) :: bd_remove rest key
  end.

Definition bd_step (cap : nat) (m : list (K * V)) (op : ph_op)
  : ph_res * list (K * V) :=
  match op with
  | PhInsert key value =>
      if decide (is_Some (bd_lookup m key) ∨ (length m < cap)%nat)
      then (RInsert true, (key, value) :: bd_remove m key)
      else (RInsert false, m)
  | PhDelete key => (RDelete (bd_lookup m key), bd_remove m key)
  | PhLookup key => (RLookup (bd_lookup m key), m)
  end.

Fixpoint bd_run (cap : nat) (m : list (K * V)) (ops : list ph_op)
  : list ph_res * list (K * V) :=
  match ops with
  | [] => ([], m)
  | op :: rest =>
      let '(r, m1) := bd_step cap m op in
      let '(rs, m2) := bd_run cap m1 rest in
      (r :: rs, m2)
  end.

(** A probing table and a dictionary that agree. *)
Definition ph_models (ht : ProbingHashtable K V) (m : list (K * V)) : Prop :=
  NoDup m.*1
  ∧ entries ht = Z.of_nat (length m)
  ∧ ∀ k, ph_lookup ht k = bd_lookup m k.

End Runs.

(** ** The person table of the client module

    [toHashtable] and [descendants] use a probing table from ids to
    [Person] records.  An id is a [number] of integer value, of either
    sign and of any size. *)

Record Person := mkPerson {
  person_id : Z;
  person_name : string;
  parents : list Z;
  children : list Z
}.

(** [if (!xs.includes(x)) { xs.push(x); }] *)
Definition push_new (xs : list Z) (x : Z) : list Z :=
  if decide (x ∈ xs) then xs else xs ++ [x].

Definition add_child (childId : Z) (p : Person) : Person :=
  mkPerson (person_id p) (person_name p) (parents p)
    (push_new (children p) childId).

Definition add_parent (parentId : Z) (p : Person) : Person :=
  mkPerson (person_id p) (person_name p) (push_new (parents p) parentId)
    (children p).

(** A mutation of the object that [ph_lookup(ht, key)] returns: the record
    is the one in the value slot that [ph_lookup] reads, so the mutation
    is a write of the changed record at that slot. *)
Definition ph_mutate {K V : Type} `{EqDecision K} (ht : ProbingHashtable K V)
    (key : K) (f : V -> V) : ProbingHashtable K V :=
  match probe (keys ht) key (hash ht key) true with
  | None => ht
  | Some idx =>
      match aget (values ht) idx with
      | None => ht
      | Some v =>
          mkProbing (keys ht) (aset (values ht) idx (f v)) (hash ht)
            (entries ht)
      end
  end.

(** The first loop of [toHashtable]. *)
Fixpoint add_people (ht : ProbingHashtable Z Person) (people : list (Z * string))
  : ProbingHashtable Z Person :=
  match people with
  | [] => ht
  | (id, name) :: rest =>
      match ph_lookup ht id with
      | None => add_people (ph_insert ht id (mkPerson id name [] [])).2 rest
      | Some _ => add_people ht rest
      end
  end.

(** The body of the second loop: [parent] and [child] are the records of
    the table, [child] being read after [parent] was changed since the two
    are one object when the ids are equal. *)
Definition link (ht : ProbingHashtable Z Person) (parentId childId : Z)
  : ProbingHashtable Z Person :=
  match ph_lookup ht parentId, ph_lookup ht childId with
  | Some _, Some _ =>
      ph_mutate (ph_mutate ht parentId (add_child childId)) childId
        (add_parent parentId)
  | _, _ => ht
  end.

Fixpoint add_relations (ht : ProbingHashtable Z Person)
    (relations : list (Z * Z)) : ProbingHashtable Z Person :=
  match relations with
  | [] => ht
  | (parentId, childId) :: rest => add_relations (link ht parentId childId) rest
  end.

Definition toHashtable (people : list (Z * string)) (relations : list (Z * Z))
  : ProbingHashtable Z Person :=
  add_relations (add_people (ph_empty (length people) hash_id) people)
    relations.

(** The loop of [descendants].  The stack is kept with its top first:
    [stack.pop()] takes the head, [stack.push(...xs)] puts [xs] reversed in
    front.  [fuel] bounds the number of iterations; [None] is a loop that is
    still running when the fuel is spent. *)
Fixpoint descend (fuel : nat) (ht : ProbingHashtable Z Person)
    (stack result : list Z) : option (list Z) :=
  match stack with
  | [] => Some result
  | current :: rest =>
      match fuel with
      | O => None
      | S fuel' =>
          descend fuel' ht
            (match ph_lookup ht current with
             | Some child => reverse (children child) ++ rest
             | None => rest
             end)
            (push_new result current)
      end
  end.

(** [descendants]: [Some None] is [undefined]. *)
Definition descendants (fuel : nat) (ht : ProbingHashtable Z Person) (id : Z)
  : option (option (list Z)) :=
  match ph_lookup ht id with
  | None => Some None
  | Some ancestor =>
      Some <$> descend fuel ht (reverse (children ancestor)) []
  end.

(** [b] is a child of [a] in the table. *)
Definition child_of (ht : ProbingHashtable Z Person) (a b : Z) : Prop :=
  ∃ p, ph_lookup ht a = Some p ∧ b ∈ children p.

(** The ids that the relations give to [id] as children and as parents,
    in the order of the relations, [known] telling the ids of the table. *)
Definition children_in (known : Z -> bool) (relations : list (Z * Z)) (id : Z)
  : list Z :=
  omap (fun r : Z * Z =>
          if bool_decide (r.1 = id) && known r.2 then Some r.2 else None)
    relations.

Definition parents_in (known : Z -> bool) (relations : list (Z * Z)) (id : Z)
  : list Z :=
  omap (fun r : Z * Z =>
          if bool_decide (r.2 = id) && known r.1 then Some r.1 else None)
    relations.

(** The record of [id] after the relations were added to record [p]. *)
Definition related (known : Z -> bool) (relations : list (Z * Z)) (id : Z)
    (p : Person) : Person :=
  mkPerson (person_id p) (person_name p)
    (fold_left push_new (parents_in known relations id) (parents p))
    (fold_left push_new (children_in known relations id) (children p)).

(** The ids of [people] fit the table that [toHashtable] makes for them:
    they are not negative, and [id + length(people) - 1] is at most
    [2^53]. *)
Definition ids_fit (people : list (Z * string)) : Prop :=
  ∀ id, id ∈ people.*1 -> hash_fits (length people) (hash_id id).

(** Three persons in a line: 1 is a parent of 2, 2 a parent of 3. *)
Definition family : ProbingHashtable Z Person :=
  toHashtable [(1%Z, "a"); (2%Z, "b"); (3%Z, "c")] [(1%Z, 2%Z); (2%Z, 3%Z)].

(** One person recorded as its own parent. *)
Definition family_loop : ProbingHashtable Z Person :=
  toHashtable [(1%Z, "a")] [(1%Z, 1%Z)].

(** * Properties *)

Local Open Scope Z_scope.

(** ** The list primitives as standard list functions *)

Lemma map_fmap {T U : Type} (f : T -> U) (xs : list T) :
  ListLib.map f xs = f <$> xs.
Proof. induction xs as [|x xs IH]; simpl; [done | by rewrite IH]. Qed.

Section ListLibFacts.

Context {T : Type}.

Lemma flatten_concat (xss : list (list T)) :
  ListLib.flatten xss = concat xss.
Proof. induction xss as [|xs xss IH]; simpl; [done | by rewrite IH]. Qed.

Lemma elem_of_concat (x : T) (xss : list (list T)) :
  x ∈ concat xss ↔ ∃ xs, xs ∈ xss ∧ x ∈ xs.
Proof.
  induction xss as [|ys xss IH]; simpl.
  - rewrite elem_of_nil. split; [done|].
    intros (xs & Hxs & _). by apply elem_of_nil in Hxs.
  - rewrite elem_of_app, IH. split.
    + intros [Hx | (xs & Hxs & Hx)].
      * exists ys. split; [apply elem_of_cons; by left | done].
      * exists xs. split; [apply elem_of_cons; by right | done].
    + intros (xs & Hxs & Hx). apply elem_of_cons in Hxs as [->|Hxs].
      * by left.
      * right. by exists xs.
Qed.

Lemma build_list_fmap (fn : nat -> T) (n : nat) :
  ListLib.build_list fn n = fn <$> seq 0 n.
Proof. unfold ListLib.build_list. apply map_fmap. Qed.

Lemma elem_of_filter_bool (p : T -> bool) (xs : list T) (x : T) :
  x ∈ ListLib.filter p xs ↔ x ∈ xs ∧ p x = true.
Proof.
  induction xs as [|y xs IH]; simpl.
  - rewrite elem_of_nil. tauto.
  - destruct (p y) eqn:Hp; rewrite ?elem_of_cons, IH.
    + split; [intros [->|[? ?]]; auto | intros [[->|?] ?]; auto].
    + split; [intros [? ?]; auto | intros [[->|?] ?]; [congruence | auto]].
Qed.

End ListLibFacts.

(** ** Index normalisation *)

Lemma rem_nonneg (a m : Z) : 0 ≤ a -> 0 < m -> Z.rem a m = a `mod` m.
Proof. intros. apply Z.rem_mod_nonneg; lia. Qed.

Lemma mod'_modulo (n m : Z) : 0 < m -> mod' n m = n `mod` m.
Proof.
  intros Hm. unfold mod'.
  pose proof (Z.rem_bound_abs n m ltac:(lia)) as Hb.
  assert (0 ≤ Z.rem n m + m) as Hnn by lia.
  rewrite (rem_nonneg _ _ Hnn Hm).
  rewrite <- (Z.mod_unique_pos n m (n ÷ m - (if decide (Z.rem n m < 0) then 1 else 0))
                ((Z.rem n m + m) `mod` m)).
  - done.
  - apply Z.mod_pos_bound; lia.
  - pose proof (Z.quot_rem' n m) as Hq.
    case_decide.
    + rewrite Z.mod_small by lia. lia.
    + replace (Z.rem n m + m) with (Z.rem n m + 1 * m) by lia.
      rewrite Z.mod_add by lia. rewrite Z.mod_small by lia. lia.
Qed.

Lemma mod'_range (n m : Z) : 0 < m -> 0 ≤ mod' n m < m.
Proof. intros Hm. rewrite mod'_modulo by done. by apply Z.mod_pos_bound. Qed.

(** ** Chaining table *)

Section Chaining.

Context {K V : Type} `{EqDecision K}.
Implicit Types (t : ChainingHashtable K V) (xs : list (K * V)).

Lemma scan_None xs key : scan xs key = None ↔ key ∉ xs.*1.
Proof.
  induction xs as [|[k v] xs IH]; simpl.
  - split; [intros _; apply not_elem_of_nil | done].
  - unfold ListLib.head, ListLib.tail; simpl.
    rewrite not_elem_of_cons. case_decide as Hk.
    + split; [done | intros [? _]; done].
    + rewrite IH. tauto.
Qed.

Lemma scan_Some_elem xs key v : scan xs key = Some v -> (key, v) ∈ xs.
Proof.
  induction xs as [|[k w] xs IH]; simpl; [done|].
  unfold ListLib.head, ListLib.tail; simpl.
  rewrite elem_of_cons. case_decide; intros Hs.
  - left. congruence.
  - right. auto.
Qed.

Lemma scan_is_Some xs key : is_Some (scan xs key) ↔ key ∈ xs.*1.
Proof.
  rewrite <- not_eq_None_Some, scan_None.
  destruct (decide (key ∈ xs.*1)); tauto.
Qed.

Lemma replaced_lookup key value xs i k v :
  xs !! i = Some (k, v) ->
  replaced key value xs !! i
  = Some (k, if decide (key = k) then value else v).
Proof.
  intros Hi. unfold replaced. rewrite map_fmap, list_lookup_fmap, Hi.
  simpl. unfold ListLib.head, ListLib.pair; simpl.
  by case_decide; subst.
Qed.

Lemma replaced_length key value xs :
  length (replaced key value xs) = length xs.
Proof. unfold replaced. by rewrite map_fmap, length_fmap. Qed.

Lemma scan_replaced key value xs :
  key ∈ xs.*1 -> scan (replaced key value xs) key = Some value.
Proof.
  induction xs as [|[k w] xs IH]; simpl.
  - by intros ?%elem_of_nil.
  - unfold ListLib.head, ListLib.tail, ListLib.pair; simpl.
    intros Hin. destruct (decide (key = k)) as [->|Hne]; simpl.
    + unfold ListLib.head; simpl. by rewrite decide_True.
    + unfold ListLib.head; simpl. rewrite decide_False by done.
      apply IH. apply elem_of_cons in Hin as [?|?]; done.
Qed.

(** With at least one chain, the normalised index names a chain. *)
Lemma bucket_at_index t key :
  (0 < length (arr t))%nat ->
  let index := mod' (ch_hash t key) (Z.of_nat (length (arr t))) in
  (Z.to_nat index < length (arr t))%nat ∧
  ∃ bucket, arr t !! Z.to_nat index = Some bucket
            ∧ bucket_at (arr t) index = Some bucket.
Proof.
  intros Hlen index.
  pose proof (mod'_range (ch_hash t key) (Z.of_nat (length (arr t)))
                ltac:(lia)) as Hr.
  fold index in Hr.
  assert (Z.to_nat index < length (arr t))%nat as Hlt by lia.
  split; [done|].
  destruct (lookup_lt_is_Some_2 _ _ Hlt) as [bucket Hb].
  exists bucket. split; [done|].
  unfold bucket_at. by rewrite decide_True by lia.
Qed.

Lemma scan_cons_ne k v xs key :
  key ≠ k -> scan ((k, v) :: xs) key = scan xs key.
Proof.
  intros Hne. simpl. unfold ListLib.head; simpl. by rewrite decide_False.
Qed.

Lemma scan_cons_eq v xs key : scan ((key, v) :: xs) key = Some v.
Proof. simpl. unfold ListLib.head; simpl. by rewrite decide_True. Qed.

Lemma scan_replaced_ne key value xs k :
  k ≠ key -> scan (replaced key value xs) k = scan xs k.
Proof.
  intros Hne. induction xs as [|[k' w] xs IH]; simpl; [done|].
  unfold ListLib.head, ListLib.tail, ListLib.pair; simpl.
  fold (replaced key value xs).
  destruct (decide (key = k')) as [<-|Hk]; simpl.
  - rewrite !decide_False by done. apply IH.
  - destruct (decide (k = k')); [done | apply IH].
Qed.

(** The chain rebuilt by [ch_delete]. *)
Lemma scan_filter_eq key xs :
  scan (ListLib.filter
          (fun kv => bool_decide (ListLib.head kv ≠ key)) xs) key = None.
Proof.
  apply scan_None. intros (kv & -> & Hin)%list_elem_of_fmap.
  apply elem_of_filter_bool in Hin as [_ Hp].
  apply bool_decide_eq_true in Hp. by apply Hp.
Qed.

Lemma scan_filter_ne key xs k :
  k ≠ key ->
  scan (ListLib.filter
          (fun kv => bool_decide (ListLib.head kv ≠ key)) xs) k
  = scan xs k.
Proof.
  intros Hne. induction xs as [|[k' w] xs IH]; simpl; [done|].
  unfold ListLib.head, ListLib.tail; simpl.
  destruct (decide (k' = key)) as [->|Hk].
  - rewrite bool_decide_eq_false_2 by (intros Hc; by apply Hc).
    rewrite decide_False by done. apply IH.
  - rewrite bool_decide_eq_true_2 by done. simpl.
    unfold ListLib.head, ListLib.tail; simpl.
    destruct (decide (k = k')); [done | apply IH].
Qed.

(** [ch_lookup] after [ch_insert] of the same key. *)
Lemma ch_insert_lookup t key value :
  (0 < length (arr t))%nat ->
  ∃ b t', ch_insert t key value = Some (b, t')
          ∧ ch_lookup t' key = Some (Some value).
Proof.
  intros Hlen.
  destruct (bucket_at_index t key Hlen) as (Hlt & bucket & Hb & Hat).
  unfold ch_insert. rewrite Hat. simpl.
  destruct (scan bucket key) as [v0|] eqn:Hs;
    eexists _, _; (split; [reflexivity|]);
    unfold ch_lookup; simpl; rewrite length_insert;
    unfold bucket_at;
    rewrite decide_True by (apply mod'_range; lia);
    rewrite list_lookup_insert_eq by done; simpl; f_equal.
  - apply scan_replaced. apply scan_is_Some. by rewrite Hs.
  - apply scan_cons_eq.
Qed.

(** The keys of a table are the keys of the pairs of its chains, chain
    after chain. *)
Lemma ch_keys_concat t : ch_keys t = (concat (arr t)).*1.
Proof.
  unfold ch_keys. rewrite map_fmap, flatten_concat, build_list_fmap.
  do 2 f_equal. apply list_eq. intros i.
  rewrite list_lookup_fmap.
  destruct (decide (i < length (arr t))%nat) as [Hlt|Hge].
  - rewrite lookup_seq_lt by done. simpl.
    destruct (lookup_lt_is_Some_2 _ _ Hlt) as [b ->]. done.
  - rewrite lookup_seq_ge by lia. simpl.
    symmetry. apply lookup_ge_None. lia.
Qed.

Lemma ch_keys_elem t k :
  k ∈ ch_keys t ↔ ∃ bucket v, bucket ∈ arr t ∧ (k, v) ∈ bucket.
Proof.
  rewrite ch_keys_concat, list_elem_of_fmap. split.
  - intros ([k' v] & -> & Hin). apply elem_of_concat in Hin.
    destruct Hin as (bucket & Hb & Hkv). by exists bucket, v.
  - intros (bucket & v & Hb & Hkv). exists (k, v). split; [done|].
    apply elem_of_concat. by exists bucket.
Qed.

(** *** The table against the calls made on it *)

Lemma ch_insert_rebuilt t key value :
  (0 < length (arr t))%nat ->
  ∃ b t', ch_insert t key value = Some (b, t')
          ∧ ch_rebuilt t t' key (Some value).
Proof.
  intros Hlen.
  destruct (bucket_at_index t key Hlen) as (Hlt & bucket & Hb & Hat).
  unfold ch_insert. rewrite Hat. simpl.
  destruct (scan bucket key) as [v0|] eqn:Hs;
    eexists _, _; (split; [reflexivity|]);
    eexists bucket, _; simpl; (split; [done|]);
    (split; [reflexivity|]); (split; [done|]); split.
  - intros k. case_decide as Hk.
    + subst k. apply scan_replaced, scan_is_Some. by rewrite Hs.
    + by apply scan_replaced_ne.
  - intros k Hin. right. unfold replaced in Hin.
    rewrite map_fmap in Hin.
    apply list_elem_of_fmap in Hin as ([k1 v1] & -> & Hin).
    apply list_elem_of_fmap in Hin as ([k2 v2] & -> & Hin).
    unfold ListLib.head, ListLib.pair; simpl.
    case_decide as Hk; simpl.
    + subst k2. apply list_elem_of_fmap. by exists (key, v2).
    + apply list_elem_of_fmap. by exists (k2, v2).
  - intros k. case_decide as Hk.
    + subst k. apply scan_cons_eq.
    + by apply scan_cons_ne.
  - intros k Hin. rewrite fmap_cons in Hin.
    apply elem_of_cons in Hin as [->|Hin]; [by left | by right].
Qed.

Lemma ch_delete_rebuilt t key :
  (0 < length (arr t))%nat ->
  ∃ b t', ch_delete t key = Some (b, t') ∧ ch_rebuilt t t' key None.
Proof.
  intros Hlen.
  destruct (bucket_at_index t key Hlen) as (Hlt & bucket & Hb & Hat).
  unfold ch_delete. rewrite Hat. simpl.
  destruct (scan bucket key) as [v0|] eqn:Hs;
    eexists _, _; (split; [reflexivity|]).
  - eexists bucket, _; simpl. split; [done|].
    split; [reflexivity|]. split; [done|]. split.
    + intros k. case_decide as Hk.
      * subst k. apply scan_filter_eq.
      * by apply scan_filter_ne.
    + intros k Hin. right.
      apply list_elem_of_fmap in Hin as (kv & -> & Hin).
      apply elem_of_filter_bool in Hin as [Hin _].
      by apply list_elem_of_fmap_2.
  - exists bucket, bucket. split; [done|].
    split; [by rewrite list_insert_id|]. split; [done|]. split.
    + intros k. case_decide as Hk; [by subst k | done].
    + intros k Hin. by right.
Qed.

Lemma ch_rebuilt_length t t' key f :
  ch_rebuilt t t' key f -> length (arr t') = length (arr t).
Proof. intros (b & b' & _ & -> & _). apply length_insert. Qed.

Lemma ch_rebuilt_lookup t t' key f k :
  (0 < length (arr t))%nat ->
  ch_rebuilt t t' key f ->
  ch_lookup t' k = if decide (k = key) then Some f else ch_lookup t k.
Proof.
  intros Hlen Hr.
  pose proof (ch_rebuilt_length _ _ _ _ Hr) as Hl.
  destruct Hr as (b & b' & Hb & Harr & Hh & Hscan & _).
  destruct (bucket_at_index t key Hlen) as (Hlt & _).
  destruct (bucket_at_index t k Hlen) as (Hltk & bk & Hbk & Hatk).
  unfold ch_lookup. rewrite Hl, Hh, Hatk. simpl.
  unfold bucket_at. rewrite decide_True by (apply mod'_range; lia).
  rewrite Harr.
  destruct (decide (k = key)) as [->|Hne].
  - rewrite list_lookup_insert_eq by done. simpl.
    by rewrite Hscan, decide_True.
  - set (ik := Z.to_nat (mod' (ch_hash t k) (Z.of_nat (length (arr t))))) in *.
    set (ikey :=
           Z.to_nat (mod' (ch_hash t key) (Z.of_nat (length (arr t))))) in *.
    destruct (decide (ikey = ik)) as [Heq|Hi].
    + rewrite Heq. rewrite list_lookup_insert_eq by done. simpl.
      rewrite Hscan, decide_False by done.
      rewrite Heq in Hb. congruence.
    + rewrite list_lookup_insert_ne by done. by rewrite Hbk.
Qed.

Lemma ch_rebuilt_placed t t' key f :
  ch_placed t -> ch_rebuilt t t' key f -> ch_placed t'.
Proof.
  intros Hp Hr i bucket k v Hi Hkv.
  pose proof (ch_rebuilt_length _ _ _ _ Hr) as Hl.
  destruct Hr as (b & b' & Hb & Harr & Hh & _ & Hkeys).
  rewrite Hl, Hh. rewrite Harr in Hi.
  set (ikey :=
         Z.to_nat (mod' (ch_hash t key) (Z.of_nat (length (arr t))))) in *.
  destruct (decide (ikey = i)) as [<-|Hne].
  - rewrite list_lookup_insert_eq in Hi by (by eapply lookup_lt_Some).
    simplify_eq.
    destruct (Hkeys k) as [->|Hin]; [by apply list_elem_of_fmap_2' with (k, v) | done |].
    apply list_elem_of_fmap in Hin as ([k0 v0] & -> & Hin).
    by apply (Hp ikey b k0 v0).
  - rewrite list_lookup_insert_ne in Hi by done.
    by apply (Hp i bucket k v).
Qed.

(** A run of calls from [t] ends in a table whose lookups are the live
    bindings of the calls. *)
Lemma ch_run_live ops : ∀ t m,
  (0 < length (arr t))%nat ->
  ch_placed t ->
  (∀ k, ch_lookup t k = Some (m k)) ->
  ∃ t', ch_run t ops = Some t'
        ∧ length (arr t') = length (arr t)
        ∧ ch_placed t'
        ∧ ∀ k, ch_lookup t' k = Some (ch_live ops m k).
Proof.
  induction ops as [|[key value|key] ops IH]; intros t m Hlen Hp Hm.
  - by exists t.
  - destruct (ch_insert_rebuilt t key value Hlen) as (b & t1 & Hins & Hr).
    pose proof (ch_rebuilt_length _ _ _ _ Hr) as Hl.
    destruct (IH t1 (fun k => if decide (k = key) then Some value else m k))
      as (t' & Hrun & Hl' & Hp' & Hm').
    + lia.
    + by eapply ch_rebuilt_placed.
    + intros k. rewrite (ch_rebuilt_lookup _ _ _ _ k Hlen Hr).
      case_decide; [done | apply Hm].
    + exists t'. simpl. rewrite Hins. simpl.
      split; [done|]. split; [congruence|]. done.
  - destruct (ch_delete_rebuilt t key Hlen) as (b & t1 & Hdel & Hr).
    pose proof (ch_rebuilt_length _ _ _ _ Hr) as Hl.
    destruct (IH t1 (fun k => if decide (k = key) then None else m k))
      as (t' & Hrun & Hl' & Hp' & Hm').
    + lia.
    + by eapply ch_rebuilt_placed.
    + intros k. rewrite (ch_rebuilt_lookup _ _ _ _ k Hlen Hr).
      case_decide; [done | apply Hm].
    + exists t'. simpl. rewrite Hdel. simpl.
      split; [done|]. split; [congruence|]. done.
Qed.

(** In a table whose pairs are in their chains, a key is listed by
    [ch_keys] exactly when [ch_lookup] finds it. *)
Lemma ch_keys_lookup t k :
  (0 < length (arr t))%nat ->
  ch_placed t ->
  k ∈ ch_keys t ↔ ∃ v, ch_lookup t k = Some (Some v).
Proof.
  intros Hlen Hp.
  destruct (bucket_at_index t k Hlen) as (Hlt & bk & Hbk & Hatk).
  unfold ch_lookup. rewrite Hatk. simpl. rewrite ch_keys_elem. split.
  - intros (bucket & v & Hb & Hkv).
    apply list_elem_of_lookup in Hb as [i Hi].
    pose proof (Hp i bucket k v Hi Hkv) as Hidx.
    rewrite Hidx in Hbk. assert (bk = bucket) as -> by congruence.
    destruct (proj2 (scan_is_Some bucket k)) as [w Hw].
    + by apply list_elem_of_fmap_2' with (k, v).
    + exists w. by rewrite Hw.
  - intros (v & Hs). exists bk, v. split.
    + by eapply list_elem_of_lookup_2.
    + apply scan_Some_elem. congruence.
Qed.

End Chaining.

(** ** Arrays *)

Section Arrays.

Context {A : Type}.
Implicit Types (a : JsArray A).

Lemma aget_aset a i x j :
  aget (aset a i x) j = if decide (i = j) then Some x else aget a j.
Proof. unfold aget, aset; simpl. apply lookup_insert. Qed.

Lemma aget_aset_eq a i x : aget (aset a i x) i = Some x.
Proof. by rewrite aget_aset, decide_True. Qed.

Lemma aget_aset_ne a i x j : i ≠ j -> aget (aset a i x) j = aget a j.
Proof. intros. by rewrite aget_aset, decide_False. Qed.

Lemma grown_in (len : nat) i : 0 ≤ i < Z.of_nat len -> grown len i = len.
Proof. intros Hi. unfold grown. rewrite decide_True by lia. lia. Qed.

Lemma alength_aset a i x :
  0 ≤ i < Z.of_nat (alength a) -> alength (aset a i x) = alength a.
Proof. intros Hi. unfold aset; simpl. by apply grown_in. Qed.

(** A write below the end, also at a negative index, keeps the length. *)
Lemma alength_aset_lt a i x :
  i < Z.of_nat (alength a) -> alength (aset a i x) = alength a.
Proof.
  intros Hi. unfold aset, grown; simpl. case_decide; lia.
Qed.

Lemma alength_aset_undefined a i :
  0 ≤ i < Z.of_nat (alength a) -> alength (aset_undefined a i) = alength a.
Proof. intros Hi. unfold aset_undefined; simpl. by apply grown_in. Qed.

(** Writing what is already there changes nothing. *)
Lemma aset_same a i x :
  0 ≤ i < Z.of_nat (alength a) -> aget a i = Some x -> aset a i x = a.
Proof.
  intros Hi Hx. destruct a as [len m]. unfold aset, aget in *; simpl in *.
  rewrite grown_in by done. f_equal. by apply insert_id.
Qed.

End Arrays.

(** ** Arithmetic of the probe sequence *)

Section ProbeSequence.

(** [n] is the capacity and [h] the start of the probe. *)
Variables (n h : Z).
Hypothesis (Hn : 0 < n) (Hh : 0 ≤ h).

Lemma seq_rem_mod i : 0 ≤ i -> Z.rem (h + i) n = (h + i) `mod` n.
Proof using Hn Hh. intros. apply rem_nonneg; lia. Qed.

Lemma seq_range i : 0 ≤ i -> 0 ≤ Z.rem (h + i) n < n.
Proof using Hn Hh.
  intros. rewrite seq_rem_mod by done. apply Z.mod_pos_bound; lia.
Qed.

(** Every slot is on the probe sequence. *)
Lemma seq_cover p :
  0 ≤ p < n -> ∃ j, 0 ≤ j < n ∧ Z.rem (h + j) n = p.
Proof using Hn Hh.
  intros Hp. exists ((p - h) `mod` n).
  pose proof (Z.mod_pos_bound (p - h) n Hn) as Hb.
  split; [done|]. rewrite seq_rem_mod by lia.
  rewrite Zplus_mod_idemp_r. replace (h + (p - h)) with p by lia.
  apply Z.mod_small; lia.
Qed.

(** No slot is visited twice. *)
Lemma seq_inj j1 j2 :
  0 ≤ j1 < n -> 0 ≤ j2 < n ->
  Z.rem (h + j1) n = Z.rem (h + j2) n -> j1 = j2.
Proof using Hn Hh.
  intros H1 H2. rewrite !seq_rem_mod by lia. intros Heq.
  pose proof (Z.div_mod (h + j1) n ltac:(lia)) as E1.
  pose proof (Z.div_mod (h + j2) n ltac:(lia)) as E2.
  rewrite Heq in E1.
  assert ((h + j1) `div` n = (h + j2) `div` n) as Hq by nia.
  rewrite Hq in E1. lia.
Qed.

(** A probe that starts on the sequence continues it. *)
Lemma seq_shift j i :
  0 ≤ j -> 0 ≤ i -> Z.rem (Z.rem (h + j) n + i) n = Z.rem (h + (j + i)) n.
Proof using Hn Hh.
  intros Hj Hi. pose proof (seq_range j Hj) as Hr.
  rewrite (rem_nonneg (Z.rem (h + j) n + i)) by lia.
  rewrite !seq_rem_mod by lia.
  rewrite Zplus_mod_idemp_l. f_equal. lia.
Qed.

(** Past the end, the sequence is back at its start. *)
Lemma seq_wrap j : 0 ≤ j -> Z.rem (h + (j + n)) n = Z.rem (h + j) n.
Proof using Hn Hh.
  intros Hj. rewrite !seq_rem_mod by lia.
  replace (h + (j + n)) with (h + j + 1 * n) by lia.
  apply Z.mod_add. lia.
Qed.

End ProbeSequence.

(** ** What [probe] returns *)

Section Probe.

Context {K : Type} `{EqDecision K}.
Implicit Types (ks : JsArray (Slot K)) (key : K).

Lemma probe_loop_step ks key h skip todo i :
  probe_loop ks key h skip (S todo) i
  = if stops key skip (aget ks (pos ks h i)) then Some (pos ks h i)
    else probe_loop ks key h skip todo (i + 1).
Proof.
  simpl. unfold pos.
  destruct (aget ks _) as [[|k]|]; simpl; [by destruct skip | | done].
  destruct (decide (k = key)) as [->|Hne].
  - by rewrite bool_decide_eq_true_2.
  - by rewrite bool_decide_eq_false_2.
Qed.

(** [probe] returns the first index of its sequence at which one of its
    tests holds. *)
Lemma probe_loop_Some ks key h skip todo : ∀ i idx,
  probe_loop ks key h skip todo i = Some idx ↔
  ∃ j, 0 ≤ j < Z.of_nat todo
       ∧ idx = pos ks h (i + j)
       ∧ stops key skip (aget ks idx) = true
       ∧ ∀ j', 0 ≤ j' < j ->
               stops key skip (aget ks (pos ks h (i + j'))) = false.
Proof.
  induction todo as [|todo IH]; intros i idx.
  - simpl. split; [done | intros (j & Hj & _); lia].
  - rewrite probe_loop_step.
    destruct (stops key skip (aget ks (pos ks h i))) eqn:Hs.
    + split.
      * intros [= <-]. exists 0. rewrite Z.add_0_r.
        split; [lia|]. split; [done|]. split; [done|]. intros; lia.
      * intros (j & Hj & -> & _ & Hfirst).
        destruct (decide (j = 0)) as [->|Hj0]; [by rewrite Z.add_0_r|].
        specialize (Hfirst 0 ltac:(lia)). rewrite Z.add_0_r in Hfirst.
        congruence.
    + rewrite IH. split.
      * intros (j & Hj & -> & Hstop & Hfirst). exists (j + 1).
        split; [lia|]. replace (i + (j + 1)) with (i + 1 + j) by lia.
        split; [done|]. split; [done|]. intros j' Hj'.
        destruct (decide (j' = 0)) as [->|Hj0]; [by rewrite Z.add_0_r|].
        replace (i + j') with (i + 1 + (j' - 1)) by lia.
        apply Hfirst. lia.
      * intros (j & Hj & -> & Hstop & Hfirst).
        destruct (decide (j = 0)) as [->|Hj0].
        { rewrite Z.add_0_r in Hstop. congruence. }
        exists (j - 1). split; [lia|].
        replace (i + 1 + (j - 1)) with (i + j) by lia.
        split; [done|]. split; [done|]. intros j' Hj'.
        replace (i + 1 + j') with (i + (j' + 1)) by lia.
        apply Hfirst. lia.
Qed.

Lemma probe_loop_None ks key h skip todo : ∀ i,
  probe_loop ks key h skip todo i = None ↔
  ∀ j, 0 ≤ j < Z.of_nat todo ->
       stops key skip (aget ks (pos ks h (i + j))) = false.
Proof.
  induction todo as [|todo IH]; intros i.
  - simpl. split; [intros; lia | done].
  - rewrite probe_loop_step.
    destruct (stops key skip (aget ks (pos ks h i))) eqn:Hs.
    + split; [done|]. intros Hall.
      specialize (Hall 0 ltac:(lia)). rewrite Z.add_0_r in Hall.
      congruence.
    + rewrite IH. split.
      * intros Hall j Hj.
        destruct (decide (j = 0)) as [->|Hj0]; [by rewrite Z.add_0_r|].
        replace (i + j) with (i + 1 + (j - 1)) by lia. apply Hall. lia.
      * intros Hall j Hj.
        replace (i + 1 + j) with (i + (j + 1)) by lia. apply Hall. lia.
Qed.

Lemma probe_Some ks key h skip idx :
  probe ks key h skip = Some idx ↔
  ∃ j, 0 ≤ j < Z.of_nat (alength ks)
       ∧ idx = pos ks h j
       ∧ stops key skip (aget ks idx) = true
       ∧ ∀ j', 0 ≤ j' < j -> stops key skip (aget ks (pos ks h j')) = false.
Proof. unfold probe. by rewrite probe_loop_Some. Qed.

Lemma probe_None ks key h skip :
  probe ks key h skip = None ↔
  ∀ j, 0 ≤ j < Z.of_nat (alength ks) ->
       stops key skip (aget ks (pos ks h j)) = false.
Proof. unfold probe. by rewrite probe_loop_None. Qed.

(** A slot that does not stop a probe that skips [null] does not hold the
    key and is not [undefined]; a probe that stops at [null] stops
    wherever the skipping one does. *)
Lemma stops_skip_false key s :
  stops key true s = false ↔ s ≠ None ∧ s ≠ Some (Key key).
Proof.
  destruct s as [[|k]|]; simpl.
  - split; [done | done].
  - rewrite bool_decide_eq_false. split.
    + intros Hne. split; [done | congruence].
    + intros [_ Hne] ->. done.
  - split; [done | intros [? _]; done].
Qed.

Lemma stops_weaken key s : stops key false s = false -> stops key true s = false.
Proof. by destruct s as [[|k]|]. Qed.

Lemma stops_true_inv key s :
  stops key true s = true -> s = None ∨ s = Some (Key key).
Proof.
  destruct s as [[|k]|]; simpl; [done | | by left].
  intros ->%bool_decide_eq_true. by right.
Qed.

Lemma stops_false_inv key s :
  stops key false s = true ->
  s = None ∨ s = Some Null ∨ s = Some (Key key).
Proof.
  destruct s as [[|k]|]; simpl; [by right; left | | by left].
  intros ->%bool_decide_eq_true. by right; right.
Qed.

End Probe.

(** ** Sums of numbers *)

Lemma round_double_small x : Z.abs x ≤ 2 ^ 53 -> round_double x = x.
Proof.
  intros Hx. destruct (decide (Z.abs x < 2 ^ 53)) as [Hlt|Hge].
  - unfold round_double. cbv zeta. by rewrite (proj2 (Z.ltb_lt _ _) Hlt).
  - assert (x = 2 ^ 53 ∨ x = - 2 ^ 53) as [-> | ->] by lia;
      vm_compute; reflexivity.
Qed.

Lemma round_double_nonneg x : 0 ≤ x -> 0 ≤ round_double x.
Proof.
  intros Hx. unfold round_double. cbv zeta.
  destruct (Z.abs x <? 2 ^ 53); [done|].
  set (ulp := 2 ^ (Z.log2 (Z.abs x) - 52)).
  assert (0 ≤ ulp) as Hulp by (apply Z.pow_nonneg; lia).
  assert (0 ≤ Z.abs x `div` ulp) as Hq by (apply Z_div_nonneg_nonneg; lia).
  apply Z.mul_nonneg_nonneg; [by apply Z.sgn_nonneg|].
  apply Z.mul_nonneg_nonneg; [|done].
  repeat case_match; lia.
Qed.

(** A sum that stays within [2^53] is not rounded. *)
Lemma js_add_exact a b : Z.abs (a + b) ≤ 2 ^ 53 -> js_add a b = a + b.
Proof.
  intros Hab. unfold js_add. case_decide as Hb; [lia|].
  by apply round_double_small.
Qed.

Lemma js_add_0_r a : js_add a 0 = a.
Proof. unfold js_add. by rewrite decide_True. Qed.

Lemma js_add_nonneg a b : 0 ≤ a -> 0 ≤ b -> 0 ≤ js_add a b.
Proof.
  intros Ha Hb. unfold js_add. case_decide; [done|].
  apply round_double_nonneg. lia.
Qed.

Lemma hash_fits_nonneg (size : nat) h : hash_fits size h -> 0 ≤ h.
Proof. by intros (_ & Hh & _). Qed.

(** ** The slot [ph_insert] settles on *)

Section Resolve.

Context {K : Type} `{EqDecision K}.
Implicit Types (ks : JsArray (Slot K)) (key : K).

Lemma pos_range ks h i :
  0 ≤ h -> 0 ≤ i -> (0 < alength ks)%nat ->
  0 ≤ pos ks h i < Z.of_nat (alength ks).
Proof.
  intros. unfold pos. apply Z.rem_bound_pos; [by apply js_add_nonneg | lia].
Qed.

(** Whatever the start, no index is at or beyond the length. *)
Lemma pos_lt ks h i :
  (0 < alength ks)%nat -> pos ks h i < Z.of_nat (alength ks).
Proof.
  intros Hn. unfold pos.
  pose proof (Z.rem_bound_abs (js_add h i) (Z.of_nat (alength ks))
                ltac:(lia)). lia.
Qed.

(** With a hash value that fits, the probe sequence is the one of the
    integers. *)
Lemma pos_exact ks h i :
  hash_fits (alength ks) h -> 0 ≤ i < Z.of_nat (alength ks) ->
  pos ks h i = Z.rem (h + i) (Z.of_nat (alength ks)).
Proof.
  intros (Hn & Hh & Hfit) Hi. unfold pos. by rewrite js_add_exact by lia.
Qed.

(** So is the sequence of a probe that starts at an index of the array. *)
Lemma pos_exact_index ks idx i :
  Z.of_nat (alength ks) < 2 ^ 32 ->
  0 ≤ idx < Z.of_nat (alength ks) -> 0 ≤ i < Z.of_nat (alength ks) ->
  pos ks idx i = Z.rem (idx + i) (Z.of_nat (alength ks)).
Proof.
  intros Hn Hidx Hi. unfold pos. by rewrite js_add_exact by lia.
Qed.

Lemma pos_inj ks h j1 j2 :
  hash_fits (alength ks) h ->
  0 ≤ j1 < Z.of_nat (alength ks) -> 0 ≤ j2 < Z.of_nat (alength ks) ->
  pos ks h j1 = pos ks h j2 -> j1 = j2.
Proof.
  intros Hfit H1 H2. rewrite !pos_exact by done.
  apply seq_inj; [lia | apply Hfit | done | done].
Qed.

Lemma pos_cover ks h p :
  hash_fits (alength ks) h -> 0 ≤ p < Z.of_nat (alength ks) ->
  ∃ j, 0 ≤ j < Z.of_nat (alength ks) ∧ pos ks h j = p.
Proof.
  intros Hfit Hp.
  destruct (seq_cover (Z.of_nat (alength ks)) h ltac:(lia) ltac:(apply Hfit)
              p Hp) as (j & Hj & Hpos).
  exists j. split; [done|]. by rewrite pos_exact.
Qed.

(** A probe that starts on the sequence continues it, and is back at its
    start past the end. *)
Lemma pos_shift ks h j i :
  hash_fits (alength ks) h ->
  0 ≤ j -> 0 ≤ i -> j + i < Z.of_nat (alength ks) ->
  pos ks (pos ks h j) i = pos ks h (j + i).
Proof.
  intros Hfit Hj Hi Hlt. pose proof Hfit as (Hn & Hh & _).
  rewrite (pos_exact ks h j), (pos_exact ks h (j + i)) by (done || lia).
  rewrite pos_exact_index; [apply seq_shift; lia | done | | lia].
  apply seq_range; lia.
Qed.

Lemma pos_wrap ks h j i :
  hash_fits (alength ks) h ->
  0 ≤ j < Z.of_nat (alength ks) -> 0 ≤ i < Z.of_nat (alength ks) ->
  Z.of_nat (alength ks) ≤ j + i ->
  pos ks (pos ks h j) i = pos ks h (j + i - Z.of_nat (alength ks)).
Proof.
  intros Hfit Hj Hi Hge. pose proof Hfit as (Hn & Hh & _).
  rewrite (pos_exact ks h j), (pos_exact ks h (j + i - _)) by (done || lia).
  rewrite pos_exact_index; [| done | apply seq_range; lia | lia].
  rewrite seq_shift by lia.
  rewrite <- (seq_wrap (Z.of_nat (alength ks)) h ltac:(lia) Hh
                (j + i - Z.of_nat (alength ks))) by lia.
  f_equal. lia.
Qed.

(** With a non-negative start, what [probe] returns is an index of the
    array. *)
Lemma probe_range ks key h skip idx :
  0 ≤ h -> probe ks key h skip = Some idx ->
  0 ≤ idx < Z.of_nat (alength ks).
Proof.
  intros Hh (j & Hj & -> & _)%probe_Some. apply pos_range; lia.
Qed.

(** So is the index [ph_insert] settles on. *)
Lemma resolve_range ks key idx0 :
  0 ≤ idx0 < Z.of_nat (alength ks) ->
  0 ≤ resolve ks key idx0 < Z.of_nat (alength ks).
Proof.
  intros Hidx0. unfold resolve.
  destruct (aget ks idx0) as [[|k]|]; [|done|done].
  destruct (probe ks key idx0 true) as [kidx|] eqn:Hp; [|done].
  apply (probe_range ks key idx0 true); [lia | done].
Qed.

(** After a first probe from [h] that returned [idx0], [ph_insert] is at
    a slot of the probe sequence of [h] with no [undefined] and no
    occurrence of the key before it; it is on a [null] slot only if the
    second probe returned nothing. *)
Lemma resolve_spec ks key h idx0 :
  hash_fits (alength ks) h ->
  probe ks key h false = Some idx0 ->
  ∃ j, resolve ks key idx0 = pos ks h j ∧ settled ks key h idx0 j.
Proof.
  intros Hfit (j0 & Hj0 & Hidx0 & Hstop0 & Hfirst0)%probe_Some.
  unfold settled.
  set (n := Z.of_nat (alength ks)) in *.
  unfold resolve.
  destruct (aget ks idx0) as [[|k]|] eqn:Hget.
  - destruct (probe ks key idx0 true) as [kidx|] eqn:Hp2.
    + apply probe_Some in Hp2 as (j2 & Hj2 & Hkidx & Hstop2 & Hfirst2).
      fold n in Hj2. rewrite Hidx0 in Hkidx, Hfirst2.
      destruct (decide (j0 + j2 < n)) as [Hlt|Hge].
      * rewrite pos_shift in Hkidx by (done || lia).
        exists (j0 + j2). split; [done|]. split; [lia|]. split.
        -- intros j' Hj'. destruct (decide (j' < j0)) as [Hb|Ha].
           ++ apply stops_weaken, Hfirst0. lia.
           ++ replace j' with (j0 + (j' - j0)) by lia.
              rewrite <- pos_shift by (done || lia). apply Hfirst2. lia.
        -- rewrite <- Hkidx.
           destruct (stops_true_inv _ _ Hstop2) as [->| ->]; auto.
      * exfalso. rewrite pos_wrap in Hkidx by (done || lia). fold n in Hkidx.
        pose proof (Hfirst0 (j0 + j2 - n) ltac:(lia)) as Hf.
        apply stops_weaken in Hf. rewrite <- Hkidx in Hf. congruence.
    + exists j0. rewrite <- Hidx0, Hget. split; [done|]. split; [done|].
      split; [|by right; right].
      intros j' Hj'. by apply stops_weaken, Hfirst0.
  - exists j0. rewrite <- Hidx0, Hget. split; [done|]. split; [done|].
    split; [intros j' Hj'; by apply stops_weaken, Hfirst0|].
    right; left. simpl in Hstop0.
    apply bool_decide_eq_true in Hstop0. by subst.
  - exists j0. rewrite <- Hidx0, Hget. split; [done|]. split; [done|].
    split; [intros j' Hj'; by apply stops_weaken, Hfirst0|]. by left.
Qed.

(** A write below the end of the array keeps its length, so the probe
    sequences are as before. *)
Lemma pos_aset ks idx (s : Slot K) h i :
  idx < Z.of_nat (alength ks) -> pos (aset ks idx s) h i = pos ks h i.
Proof. intros Hidx. unfold pos. by rewrite alength_aset_lt. Qed.

(** Once the key is written at a slot of its probe sequence that the
    sequence does not reach earlier, with no [undefined] and no occurrence
    of the key before it, a probe that skips [null] finds it there. *)
Lemma probe_after_write ks key h j :
  0 ≤ j < Z.of_nat (alength ks) ->
  (∀ j', 0 ≤ j' < j ->
         stops key true (aget ks (pos ks h j')) = false
         ∧ pos ks h j' ≠ pos ks h j) ->
  probe (aset ks (pos ks h j) (Key key)) key h true = Some (pos ks h j).
Proof.
  intros Hj Hfirst.
  pose proof (pos_lt ks h j ltac:(lia)) as Hr.
  apply probe_Some. exists j. rewrite alength_aset_lt by done.
  rewrite pos_aset by done. split; [done|]. split; [done|]. split.
  - rewrite aget_aset_eq. simpl. by apply bool_decide_eq_true.
  - intros j' Hj'. destruct (Hfirst j' Hj') as [Hs Hne].
    by rewrite pos_aset, aget_aset_ne.
Qed.

(** A key written anywhere but at the slot of another key leaves the probe
    of that key as it is. *)
Lemma probe_write_other ks key k h idx p :
  k ≠ key -> p ≠ idx -> idx < Z.of_nat (alength ks) ->
  probe ks k h true = Some p ->
  probe (aset ks idx (Key key)) k h true = Some p.
Proof.
  intros Hk Hp Hidx (j & Hj & -> & Hstop & Hfirst)%probe_Some.
  apply probe_Some. exists j. rewrite alength_aset_lt by done.
  rewrite pos_aset by done. split; [done|]. split; [done|]. split.
  - by rewrite aget_aset_ne.
  - intros j' Hj'. rewrite pos_aset, aget_aset by done.
    case_decide; [|by apply Hfirst].
    simpl. by apply bool_decide_eq_false.
Qed.

End Resolve.

(** ** Counting the keys of an array *)

Section Counting.

Context {K : Type} `{EqDecision K}.
Implicit Types (ks : JsArray (Slot K)) (l : list (option (Slot K))).

Lemma slots_length ks : length (slots ks) = alength ks.
Proof. unfold slots. by rewrite length_fmap, length_seq. Qed.

Lemma slots_lookup ks (i : nat) :
  (i < alength ks)%nat -> slots ks !! i = Some (aget ks (Z.of_nat i)).
Proof.
  intros Hi. unfold slots. rewrite list_lookup_fmap.
  by rewrite lookup_seq_lt by done.
Qed.

Lemma slots_aset ks idx x :
  0 ≤ idx < Z.of_nat (alength ks) ->
  slots (aset ks idx x) = <[Z.to_nat idx := Some x]> (slots ks).
Proof.
  intros Hidx. apply list_eq. intros i.
  destruct (decide (i < alength ks)%nat) as [Hi|Hi].
  - rewrite slots_lookup by (by rewrite alength_aset).
    rewrite aget_aset.
    destruct (decide (idx = Z.of_nat i)) as [->|Hne].
    + rewrite Nat2Z.id.
      by rewrite list_lookup_insert_eq by (by rewrite slots_length).
    + rewrite list_lookup_insert_ne by lia. by rewrite slots_lookup.
  - rewrite !lookup_ge_None_2; [done | |].
    + rewrite length_insert, slots_length. lia.
    + rewrite slots_length, alength_aset by done. lia.
Qed.

Lemma filter_is_key_cons s l :
  length (filter (fun s => is_key s) (s :: l))
  = (weight s + length (filter (fun s => is_key s) l))%nat.
Proof.
  rewrite filter_cons. unfold weight.
  by destruct (is_key s).
Qed.

(** A write changes the count by what it adds less what it removes. *)
Lemma filter_is_key_insert l (i : nat) s s' :
  l !! i = Some s ->
  (length (filter (fun s => is_key s) (<[i := s']> l)) + weight s
   = length (filter (fun s => is_key s) l) + weight s')%nat.
Proof.
  revert i. induction l as [|x l IH]; intros i Hi; [done|].
  destruct i as [|i]; simpl in *.
  - simplify_eq. rewrite !filter_is_key_cons. lia.
  - rewrite !filter_is_key_cons. specialize (IH i Hi). lia.
Qed.

Lemma occupied_aset ks idx x :
  0 ≤ idx < Z.of_nat (alength ks) ->
  (occupied (aset ks idx x) + weight (aget ks idx)
   = occupied ks + weight (Some x))%nat.
Proof.
  intros Hidx. unfold occupied. rewrite slots_aset by done.
  apply filter_is_key_insert.
  rewrite slots_lookup by lia. f_equal. f_equal. lia.
Qed.

(** Fewer keys than slots: some slot holds no key. *)
Lemma filter_is_key_short l :
  (length (filter (fun s => is_key s) l) < length l)%nat ->
  ∃ (i : nat) s, l !! i = Some s ∧ is_key s = false.
Proof.
  induction l as [|x l IH]; simpl; [lia|].
  rewrite filter_is_key_cons. unfold weight.
  destruct (is_key x) eqn:Hx.
  - intros Hlt. destruct IH as (i & s & Hi & Hs); [lia|].
    by exists (S i), s.
  - intros _. by exists 0%nat, x.
Qed.

Lemma occupied_short ks :
  (occupied ks < alength ks)%nat ->
  ∃ i, 0 ≤ i < Z.of_nat (alength ks) ∧ is_key (aget ks i) = false.
Proof.
  intros Hlt. destruct (filter_is_key_short (slots ks)) as (i & s & Hi & Hs).
  { by rewrite slots_length. }
  pose proof (lookup_lt_Some _ _ _ Hi) as Hlen.
  rewrite slots_length in Hlen.
  rewrite slots_lookup in Hi by done. simplify_eq.
  exists (Z.of_nat i). split; [lia | done].
Qed.

(** As many keys as slots: every slot holds a key. *)
Lemma filter_is_key_full l :
  length (filter (fun s => is_key s) l) = length l ->
  ∀ (i : nat) s, l !! i = Some s -> is_key s = true.
Proof.
  induction l as [|x l IH]; simpl; [done|].
  rewrite filter_is_key_cons. unfold weight.
  pose proof (length_filter (fun s => is_key s) l) as Hle.
  destruct (is_key x) eqn:Hx; [|lia].
  intros Hlen [|i] s Hi; simpl in Hi; [by simplify_eq|].
  apply (IH ltac:(lia) i s Hi).
Qed.

Lemma occupied_full ks i :
  occupied ks = alength ks ->
  0 ≤ i < Z.of_nat (alength ks) -> is_key (aget ks i) = true.
Proof.
  intros Hfull Hi.
  apply (filter_is_key_full (slots ks)) with (i := Z.to_nat i).
  - by rewrite slots_length.
  - rewrite slots_lookup by lia. f_equal. f_equal. lia.
Qed.

Lemma occupied_new (size : nat) : occupied (new_Array size : JsArray (Slot K)) = 0%nat.
Proof.
  unfold occupied, slots, new_Array, aget; simpl.
  induction (seq 0 size) as [|i l IH]; [done|].
  rewrite fmap_cons, filter_is_key_cons, IH. by rewrite lookup_empty.
Qed.

End Counting.

(** ** Probing table *)

Section ProbingTable.

Context {K V : Type} `{EqDecision K}.
Implicit Types (ht : ProbingHashtable K V) (key : K) (value : V).

(** The two ways [ph_insert] succeeds, [j] being where it settled. *)
Lemma ph_insert_settled ht key value idx0 :
  hash_fits (alength (keys ht)) (hash ht key) ->
  probe (keys ht) key (hash ht key) false = Some idx0 ->
  ∃ j, settled (keys ht) key (hash ht key) idx0 j
       ∧ resolve (keys ht) key idx0 = pos (keys ht) (hash ht key) j
       ∧ ph_insert ht key value
         = let idx := pos (keys ht) (hash ht key) j in
           if decide (aget (keys ht) idx = Some (Key key)) then
             (true,
              mkProbing (aset (keys ht) idx (Key key))
                (aset (values ht) idx value) (hash ht) (entries ht))
           else if decide (entries ht = Z.of_nat (alength (keys ht))) then
             (false, ht)
           else
             (true,
              mkProbing (aset (keys ht) idx (Key key))
                (aset (values ht) idx value) (hash ht) (entries ht + 1)).
Proof.
  intros Hfit Hp.
  destruct (resolve_spec _ _ _ _ Hfit Hp) as (j & Hres & Hset).
  exists j. split; [done|]. split; [done|].
  unfold ph_insert. rewrite Hp. simpl. by rewrite Hres.
Qed.

(** Where [ph_insert] settled, a probe finds the key once it is written. *)
Lemma settled_after_write ht key idx0 j :
  hash_fits (alength (keys ht)) (hash ht key) ->
  settled (keys ht) key (hash ht key) idx0 j ->
  probe (aset (keys ht) (pos (keys ht) (hash ht key) j) (Key key)) key
    (hash ht key) true
  = Some (pos (keys ht) (hash ht key) j).
Proof.
  intros Hfit (Hj & Hfirst & _). apply probe_after_write; [done|].
  intros j' Hj'. split; [by apply Hfirst|].
  intros Heq. apply pos_inj in Heq; [lia | done | lia | lia].
Qed.

(** [ph_lookup] after a [ph_insert] that returned [true]. *)
Lemma ph_insert_lookup ht key value ht' :
  hash_fits (alength (keys ht)) (hash ht key) ->
  ph_insert ht key value = (true, ht') ->
  ph_lookup ht' key = Some value.
Proof.
  intros Hfit Hins.
  destruct (probe (keys ht) key (hash ht key) false) as [idx0|] eqn:Hp.
  2:{ unfold ph_insert in Hins. by rewrite Hp in Hins. }
  destruct (ph_insert_settled ht key value idx0 Hfit Hp)
    as (j & Hset & _ & Heq).
  rewrite Heq in Hins. simpl in Hins.
  assert (∀ e, ph_lookup
            (mkProbing (aset (keys ht) (pos (keys ht) (hash ht key) j)
                          (Key key))
               (aset (values ht) (pos (keys ht) (hash ht key) j) value)
               (hash ht) e) key = Some value) as Hlook.
  { intros e. unfold ph_lookup; simpl.
    rewrite (settled_after_write ht key idx0 j Hfit Hset).
    apply aget_aset_eq. }
  repeat case_decide; simplify_eq; apply Hlook.
Qed.

(** In a well-formed table, a slot [ph_insert] settles on without
    finding the key there means the key is nowhere. *)
Lemma settled_absent ht key idx0 j :
  ph_wf ht -> hash_fits (alength (keys ht)) (hash ht key) ->
  settled (keys ht) key (hash ht key) idx0 j ->
  aget (keys ht) (pos (keys ht) (hash ht key) j) ≠ Some (Key key) ->
  ∀ p, aget (keys ht) p ≠ Some (Key key).
Proof.
  intros Hwf Hfit (Hj & Hfirst & Hslot) Hnk p Hp.
  destruct (wf_on _ Hwf key p Hp) as (jp & Hjp & Hpos).
  destruct (Z.lt_trichotomy jp j) as [Hlt|[->|Hgt]].
  - specialize (Hfirst jp ltac:(lia)). rewrite Hpos, Hp in Hfirst.
    simpl in Hfirst. by rewrite bool_decide_eq_true_2 in Hfirst.
  - rewrite Hpos in Hnk. done.
  - rewrite <- Hpos in Hp.
    pose proof (wf_path _ Hwf key jp Hjp Hp j ltac:(lia)) as Hnn.
    destruct Hslot as [Hs|[Hs|(Hs & Hidx0 & Hnone)]]; [done | done |].
    pose proof (proj1 (probe_None _ _ _ _) Hnone (jp - j) ltac:(lia)) as Hf.
    rewrite <- Hidx0, pos_shift in Hf by (done || lia).
    replace (j + (jp - j)) with jp in Hf by lia.
    rewrite Hp in Hf. simpl in Hf. by rewrite bool_decide_eq_true_2 in Hf.
Qed.

(** *** The invariant *)

Lemma ph_wf_empty size (h : K -> Z) : ph_wf (ph_empty (V := V) size h).
Proof.
  constructor; simpl.
  - intros i Hi. unfold aget in Hi; simpl in Hi.
    by rewrite lookup_empty in Hi.
  - by rewrite occupied_new.
  - intros i j k Hi. unfold aget in Hi; simpl in Hi.
    by rewrite lookup_empty in Hi.
  - intros k j _ Hi. unfold aget in Hi; simpl in Hi.
    by rewrite lookup_empty in Hi.
  - intros k p Hp. unfold aget in Hp; simpl in Hp.
    by rewrite lookup_empty in Hp.
Qed.

(** The invariant reads the keys, the hash and [entries] only. *)
Lemma ph_wf_values ht (vs : JsArray V) :
  ph_wf ht -> ph_wf (mkProbing (keys ht) vs (hash ht) (entries ht)).
Proof. intros [Hd Hc Hu Hp Ho]. by constructor. Qed.

Lemma ph_wf_insert ht key value :
  hash_fits (alength (keys ht)) (hash ht key) ->
  ph_wf ht -> ph_wf (ph_insert ht key value).2.
Proof.
  intros Hfit Hwf.
  destruct (probe (keys ht) key (hash ht key) false) as [idx0|] eqn:Hp.
  2:{ unfold ph_insert. by rewrite Hp. }
  destruct (ph_insert_settled ht key value idx0 Hfit Hp)
    as (j & Hset & _ & ->).
  simpl. set (idx := pos (keys ht) (hash ht key) j).
  pose proof Hset as (Hj & Hfirst & Hslot).
  assert (0 ≤ idx < Z.of_nat (alength (keys ht))) as Hidx
    by (apply pos_range; [apply Hfit | lia | lia]).
  case_decide as Hk.
  { cbn [snd]. rewrite aset_same by done. by apply ph_wf_values. }
  case_decide as Hfull; [done|]. cbn [snd].
  pose proof (settled_absent ht key idx0 j Hwf Hfit Hset Hk) as Habs.
  assert (∀ h i, pos (aset (keys ht) idx (Key key)) h i = pos (keys ht) h i)
    as Hpos by (intros h i; apply pos_aset; lia).
  constructor; cbn [keys values hash entries].
  - intros i. rewrite aget_aset, alength_aset by done.
    case_decide as Hi; [by subst | apply (wf_dom _ Hwf)].
  - pose proof (occupied_aset (keys ht) idx (Key key) Hidx) as Hocc.
    fold idx in Hslot.
    assert (weight (aget (keys ht) idx) = 0%nat) as Hw.
    { unfold weight.
      destruct Hslot as [-> | [Hs | (-> & _)]]; [done | done | done]. }
    rewrite Hw in Hocc. unfold weight in Hocc; simpl in Hocc.
    rewrite (wf_count _ Hwf). lia.
  - intros i i' k. rewrite !aget_aset.
    repeat case_decide; subst; intros Hi Hi'; simplify_eq; try done.
    + by destruct (Habs i').
    + by destruct (Habs i).
    + by apply (wf_uniq _ Hwf i i' k).
  - intros k jk. rewrite alength_aset by done. intros Hjk.
    rewrite Hpos, aget_aset.
    case_decide as Hat.
    + intros [= <-] j' Hj'. rewrite Hpos, aget_aset.
      case_decide; [done|].
      assert (jk = j) as ->
        by (apply (pos_inj (keys ht) (hash ht key)); done).
      apply (stops_skip_false key), Hfirst. lia.
    + intros Hget j' Hj'. rewrite Hpos, aget_aset.
      case_decide; [done|].
      by apply (wf_path _ Hwf k jk Hjk Hget j').
  - intros k p. rewrite alength_aset, aget_aset by done.
    case_decide as Hat.
    + intros [= <-]. exists j. by rewrite Hpos, <- Hat.
    + intros Hget. destruct (wf_on _ Hwf k p Hget) as (jk & Hjk & Hpk).
      exists jk. by rewrite Hpos.
Qed.

(** What [ph_delete] does, by what its probe finds. *)
Lemma ph_delete_found ht key idx :
  probe (keys ht) key (hash ht key) true = Some idx ->
  aget (keys ht) idx = Some (Key key) ->
  ph_delete ht key
  = (aget (values ht) idx,
     mkProbing (aset (keys ht) idx Null) (aset_undefined (values ht) idx)
       (hash ht) (entries ht - 1)).
Proof. intros Hp Hget. unfold ph_delete. by rewrite Hp, Hget. Qed.

Lemma ph_delete_cases ht key :
  ph_delete ht key = (None, ht)
  ∨ ∃ idx, probe (keys ht) key (hash ht key) true = Some idx
           ∧ aget (keys ht) idx = Some (Key key).
Proof.
  unfold ph_delete.
  destruct (probe (keys ht) key (hash ht key) true) as [idx|] eqn:Hp;
    [|by left].
  pose proof Hp as (j & _ & _ & Hstop & _)%probe_Some.
  destruct (stops_true_inv _ _ Hstop) as [Hs|Hs]; rewrite Hs.
  - by left.
  - right. by exists idx.
Qed.

(** A delete keeps the invariant, whatever the hash of its key. *)
Lemma ph_wf_delete ht key : ph_wf ht -> ph_wf (ph_delete ht key).2.
Proof.
  intros Hwf.
  destruct (ph_delete_cases ht key) as [-> | (idx & Hp & Hget)]; [done|].
  rewrite (ph_delete_found _ _ _ Hp Hget). cbn [snd].
  assert (0 ≤ idx < Z.of_nat (alength (keys ht))) as Hidx
    by (apply (wf_dom _ Hwf); congruence).
  assert (∀ h i, pos (aset (keys ht) idx Null) h i = pos (keys ht) h i)
    as Hpos by (intros h i; apply pos_aset; lia).
  constructor; cbn [keys values hash entries].
  - intros i. rewrite aget_aset, alength_aset by done.
    case_decide as Hi; [by subst | apply (wf_dom _ Hwf)].
  - pose proof (occupied_aset (keys ht) idx Null Hidx) as Hocc.
    rewrite Hget in Hocc. unfold weight in Hocc; simpl in Hocc.
    rewrite (wf_count _ Hwf). lia.
  - intros i i' k. rewrite !aget_aset.
    repeat case_decide; subst; intros Hi Hi'; simplify_eq.
    by apply (wf_uniq _ Hwf i i' k).
  - intros k jk. rewrite alength_aset by done. intros Hjk.
    rewrite Hpos, aget_aset.
    case_decide as Hat; [done|].
    intros Hk j' Hj'. rewrite Hpos, aget_aset.
    case_decide; [done|].
    by apply (wf_path _ Hwf k jk Hjk Hk j').
  - intros k p. rewrite alength_aset, aget_aset by done.
    case_decide as Hat; [done|].
    intros Hk. destruct (wf_on _ Hwf k p Hk) as (jk & Hjk & Hpk).
    exists jk. by rewrite Hpos.
Qed.

(** Neither operation changes the hash function or, for a key with a
    non-negative hash, the length of the arrays. *)
Lemma ph_insert_hash ht key value : hash (ph_insert ht key value).2 = hash ht.
Proof.
  unfold ph_insert.
  destruct (probe _ _ _ _); [|done]. simpl. by repeat case_decide.
Qed.

Lemma ph_delete_hash ht key : hash (ph_delete ht key).2 = hash ht.
Proof.
  unfold ph_delete.
  destruct (probe _ _ _ _); [|done]. by destruct (aget _ _).
Qed.

Lemma ph_insert_alength ht key value :
  0 ≤ hash ht key ->
  alength (keys (ph_insert ht key value).2) = alength (keys ht)
  ∧ (alength (values ht) = alength (keys ht) ->
     alength (values (ph_insert ht key value).2) = alength (keys ht)).
Proof.
  intros Hh. unfold ph_insert.
  destruct (probe (keys ht) key (hash ht key) false) as [idx0|] eqn:Hp;
    [|done].
  pose proof (probe_range _ _ _ _ _ Hh Hp) as Hidx0.
  pose proof (resolve_range (keys ht) key idx0 Hidx0) as Hidx.
  cbn zeta. repeat case_decide; cbn [snd keys values]; try done;
    (split; [by apply alength_aset|]); intros Hv;
    rewrite alength_aset; lia.
Qed.

Lemma ph_delete_alength ht key :
  0 ≤ hash ht key ->
  alength (keys (ph_delete ht key).2) = alength (keys ht)
  ∧ (alength (values ht) = alength (keys ht) ->
     alength (values (ph_delete ht key).2) = alength (keys ht)).
Proof.
  intros Hh.
  destruct (ph_delete_cases ht key) as [-> | (idx & Hp & Hget)]; [done|].
  rewrite (ph_delete_found _ _ _ Hp Hget). cbn [snd keys values].
  pose proof (probe_range _ _ _ _ _ Hh Hp) as Hidx.
  split; [by apply alength_aset|]. intros Hv.
  rewrite alength_aset_undefined; lia.
Qed.

(** Every table reachable with hash values that fit is well formed. *)
Lemma ph_reachable_wf size (h : K -> Z) ht :
  (∀ k, hash_fits size (h k)) ->
  ph_reachable size h ht ->
  ph_wf ht ∧ hash ht = h ∧ alength (keys ht) = size
  ∧ alength (values ht) = size.
Proof.
  intros Hfit Hr.
  induction Hr as [|ht key value Hr (Hwf & Hhash & Hlen & Hlenv)
                  |ht key Hr (Hwf & Hhash & Hlen & Hlenv)].
  - split; [apply ph_wf_empty | done].
  - assert (hash_fits (alength (keys ht)) (hash ht key)) as Hk
      by (rewrite Hhash, Hlen; apply Hfit).
    destruct (ph_insert_alength ht key value (hash_fits_nonneg _ _ Hk))
      as [Hl Hlv].
    split; [by apply ph_wf_insert|].
    split; [by rewrite ph_insert_hash|].
    split; [congruence|]. rewrite Hlv; congruence.
  - assert (0 ≤ hash ht key) as Hk
      by (rewrite Hhash; apply (hash_fits_nonneg size), Hfit).
    destruct (ph_delete_alength ht key Hk) as [Hl Hlv].
    split; [by apply ph_wf_delete|].
    split; [by rewrite ph_delete_hash|].
    split; [congruence|]. rewrite Hlv; congruence.
Qed.

(** *** A key that is in the table *)

(** The probe that skips [null] finds the slot of a key of the table. *)
Lemma probe_present ht key p :
  ph_wf ht ->
  aget (keys ht) p = Some (Key key) ->
  probe (keys ht) key (hash ht key) true = Some p.
Proof.
  intros Hwf Hp.
  destruct (wf_on _ Hwf key p Hp) as (jp & Hjp & Hpos).
  rewrite <- Hpos in Hp.
  destruct (probe (keys ht) key (hash ht key) true) as [idx|] eqn:Hpr.
  - apply probe_Some in Hpr as (j & Hj & -> & Hstop & Hfirst).
    f_equal. rewrite <- Hpos.
    destruct (Z.lt_trichotomy j jp) as [Hlt|[->|Hgt]]; [|done|].
    + destruct (stops_true_inv _ _ Hstop) as [Hs|Hs].
      * by destruct (wf_path _ Hwf key jp Hjp Hp j ltac:(lia)).
      * apply (wf_uniq _ Hwf _ _ key Hs Hp).
    + specialize (Hfirst jp ltac:(lia)). rewrite Hp in Hfirst.
      simpl in Hfirst. by rewrite bool_decide_eq_true_2 in Hfirst.
  - pose proof (proj1 (probe_None _ _ _ _) Hpr jp Hjp) as Hf.
    rewrite Hp in Hf. simpl in Hf. by rewrite bool_decide_eq_true_2 in Hf.
Qed.

(** [ph_insert] of a key of the table overwrites its value and nothing
    else. *)
Lemma ph_insert_present ht key value p :
  ph_wf ht -> hash_fits (alength (keys ht)) (hash ht key) ->
  aget (keys ht) p = Some (Key key) ->
  ph_insert ht key value
  = (true,
     mkProbing (keys ht) (aset (values ht) p value) (hash ht) (entries ht)).
Proof.
  intros Hwf Hfit Hp.
  assert (0 ≤ p < Z.of_nat (alength (keys ht))) as Hpr
    by (apply (wf_dom _ Hwf); congruence).
  destruct (probe (keys ht) key (hash ht key) false) as [idx0|] eqn:Hpr1.
  2:{ exfalso.
      destruct (wf_on _ Hwf key p Hp) as (jp & Hjp & Hpos).
      pose proof (proj1 (probe_None _ _ _ _) Hpr1 jp Hjp) as Hf.
      rewrite Hpos, Hp in Hf. simpl in Hf.
      by rewrite bool_decide_eq_true_2 in Hf. }
  destruct (ph_insert_settled ht key value idx0 Hfit Hpr1)
    as (j & Hset & _ & ->).
  cbn zeta.
  destruct (decide (aget (keys ht) (pos (keys ht) (hash ht key) j)
                    = Some (Key key))) as [Hk|Hk].
  - pose proof (wf_uniq _ Hwf _ _ _ Hk Hp) as ->.
    by rewrite aset_same.
  - by destruct (settled_absent ht key idx0 j Hwf Hfit Hset Hk p).
Qed.

(** *** Filling a table *)

(** With a free slot and no [null] in the table, a key that is not in
    the table goes into an [undefined] slot. *)
Lemma ph_insert_fresh ht key value :
  hash_fits (alength (keys ht)) (hash ht key) -> ph_wf ht ->
  (∀ i, aget (keys ht) i ≠ Some Null) ->
  (∀ i, aget (keys ht) i ≠ Some (Key key)) ->
  (occupied (keys ht) < alength (keys ht))%nat ->
  ∃ idx, 0 ≤ idx < Z.of_nat (alength (keys ht))
         ∧ aget (keys ht) idx = None
         ∧ ph_insert ht key value
           = (true,
              mkProbing (aset (keys ht) idx (Key key))
                (aset (values ht) idx value) (hash ht) (entries ht + 1)).
Proof.
  intros Hfit Hwf Hnull Habs Hfree.
  destruct (occupied_short _ Hfree) as (p & Hpr & Hnk).
  assert (aget (keys ht) p = None) as Hp.
  { destruct (aget (keys ht) p) as [[|k]|] eqn:Hg; [|done|done].
    by destruct (Hnull p). }
  destruct (probe (keys ht) key (hash ht key) false) as [idx0|] eqn:Hpr1.
  2:{ exfalso.
      destruct (pos_cover (keys ht) (hash ht key) p Hfit Hpr)
        as (jp & Hjp & Hpos).
      pose proof (proj1 (probe_None _ _ _ _) Hpr1 jp Hjp) as Hf.
      by rewrite Hpos, Hp in Hf. }
  pose proof (probe_range _ _ _ _ _ (hash_fits_nonneg _ _ Hfit) Hpr1) as Hidx.
  pose proof Hpr1 as (j & _ & _ & Hstop & _)%probe_Some.
  exists idx0. split; [done|].
  destruct (stops_false_inv _ _ Hstop) as [Hs|[Hs|Hs]];
    [|by destruct (Hnull idx0)|by destruct (Habs idx0)].
  split; [done|].
  unfold ph_insert. rewrite Hpr1. unfold resolve. rewrite Hs. cbn zeta.
  rewrite Hs. rewrite decide_False by done.
  rewrite decide_False; [done|].
  rewrite (wf_count _ Hwf). lia.
Qed.

(** With [entries] at the capacity, [ph_insert] of a key that is not in
    the table changes nothing, whatever the hash of the key. *)
Lemma ph_insert_rejected ht key value :
  (∀ p, aget (keys ht) p ≠ Some (Key key)) ->
  entries ht = Z.of_nat (alength (keys ht)) ->
  ph_insert ht key value = (false, ht).
Proof.
  intros Habs Hfull. unfold ph_insert.
  destruct (probe _ _ _ _) as [idx0|]; [|done]. cbn zeta.
  rewrite decide_False by apply Habs. by rewrite decide_True.
Qed.

(** Inserting keys that are pairwise distinct and not in the table, as
    long as there is room: every insert returns [true] and adds a key. *)
Lemma ph_insert_all_fresh (kvs : list (K * V)) : ∀ ht,
  (∀ k, k ∈ kvs.*1 -> hash_fits (alength (keys ht)) (hash ht k)) ->
  ph_wf ht ->
  (∀ i, aget (keys ht) i ≠ Some Null) ->
  NoDup kvs.*1 ->
  (∀ k i, k ∈ kvs.*1 -> aget (keys ht) i ≠ Some (Key k)) ->
  (occupied (keys ht) + length kvs ≤ alength (keys ht))%nat ->
  ∃ ht', ph_insert_all ht kvs = (replicate (length kvs) true, ht')
         ∧ hash ht' = hash ht
         ∧ alength (keys ht') = alength (keys ht)
         ∧ ph_wf ht'
         ∧ occupied (keys ht') = (occupied (keys ht) + length kvs)%nat
         ∧ ∀ i k, aget (keys ht') i = Some (Key k) ->
                  aget (keys ht) i = Some (Key k) ∨ k ∈ kvs.*1.
Proof.
  induction kvs as [|[k v] kvs IH]; intros ht Hfit Hwf Hnull Hnd Hnew Hroom.
  - exists ht. simpl. rewrite Nat.add_0_r. by auto 10.
  - rewrite fmap_cons in Hnd, Hnew, Hfit. cbn [fst] in Hnd, Hnew, Hfit.
    apply NoDup_cons in Hnd as [Hk Hnd]. simpl in Hroom.
    assert (hash_fits (alength (keys ht)) (hash ht k)) as Hfk
      by (apply Hfit, elem_of_cons; by left).
    destruct (ph_insert_fresh ht k v Hfk Hwf Hnull)
      as (idx & Hidx & Hget & Hins).
    { intros i. apply Hnew. apply elem_of_cons. by left. }
    { lia. }
    pose proof (ph_wf_insert ht k v Hfk Hwf) as Hwf1.
    rewrite Hins in Hwf1. cbn [snd] in Hwf1.
    set (ht1 := mkProbing (aset (keys ht) idx (Key k))
                  (aset (values ht) idx v) (hash ht) (entries ht + 1))
      in *.
    assert (occupied (keys ht1) = S (occupied (keys ht))) as Hocc.
    { pose proof (wf_count _ Hwf1) as H1.
      pose proof (wf_count _ Hwf) as H0.
      unfold ht1 in H1 at 1. cbn [entries] in H1. lia. }
    assert (alength (keys ht1) = alength (keys ht)) as Hlen
      by (by apply alength_aset).
    destruct (IH ht1) as (ht' & Hall & Hhash & Hlen' & Hwf' & Hocc' & Hkeys).
    + intros k' Hk'. rewrite Hlen. apply Hfit, elem_of_cons. by right.
    + done.
    + intros i. unfold ht1; cbn [keys]. rewrite aget_aset.
      case_decide; [done | apply Hnull].
    + done.
    + intros k' i Hk'. unfold ht1; cbn [keys]. rewrite aget_aset.
      case_decide.
      * intros [= ->]. done.
      * apply Hnew. apply elem_of_cons. by right.
    + lia.
    + exists ht'. simpl. rewrite Hins. fold ht1. rewrite Hall.
      split; [done|]. split; [done|]. split; [congruence|].
      split; [done|]. split; [lia|].
      intros i k' Hi. destruct (Hkeys i k' Hi) as [Hold|Hin].
      * unfold ht1 in Hold; cbn [keys] in Hold.
        rewrite aget_aset in Hold. case_decide.
        -- right. apply elem_of_cons. left. congruence.
        -- by left.
      * right. apply elem_of_cons. by right.
Qed.

End ProbingTable.

(** ** The slots [probe] reads *)

Section ProbeTrace.

Context {K : Type} `{EqDecision K}.
Implicit Types (ks : JsArray (Slot K)) (key : K).

Lemma probe_trace_step ks key h skip todo i :
  probe_trace ks key h skip (S todo) i
  = if stops key skip (aget ks (pos ks h i)) then [pos ks h i]
    else pos ks h i :: probe_trace ks key h skip todo (i + 1).
Proof.
  simpl. unfold pos.
  destruct (aget ks _) as [[|k]|]; simpl; [by destruct skip | | done].
  destruct (decide (k = key)) as [->|Hne].
  - by rewrite bool_decide_eq_true_2.
  - by rewrite bool_decide_eq_false_2.
Qed.

(** No more reads than iterations. *)
Lemma probe_trace_length ks key h skip todo : ∀ i,
  (length (probe_trace ks key h skip todo i) ≤ todo)%nat.
Proof.
  induction todo as [|todo IH]; intros i; [done|].
  rewrite probe_trace_step. destruct (stops _ _ _); simpl.
  - lia.
  - specialize (IH (i + 1)). lia.
Qed.

(** Every read is inside of the array. *)
Lemma probe_trace_range ks key h skip todo : ∀ i,
  0 ≤ h -> 0 ≤ i -> (0 < alength ks)%nat ->
  Forall (fun idx => 0 ≤ idx < Z.of_nat (alength ks))
    (probe_trace ks key h skip todo i).
Proof.
  induction todo as [|todo IH]; intros i Hh Hi Hlen; [constructor|].
  rewrite probe_trace_step.
  pose proof (pos_range ks h i Hh Hi Hlen) as Hr.
  destruct (stops _ _ _).
  - apply Forall_cons. split; [done | apply Forall_nil_2].
  - apply Forall_cons. split; [done|]. apply IH; [done | lia | done].
Qed.

(** The index [probe] returns is the last one it read; a probe that
    returns nothing has read a slot in each iteration. *)
Lemma probe_trace_last ks key h skip todo : ∀ i,
  match probe_loop ks key h skip todo i with
  | Some idx => last (probe_trace ks key h skip todo i) = Some idx
  | None => length (probe_trace ks key h skip todo i) = todo
  end.
Proof.
  induction todo as [|todo IH]; intros i; [done|].
  rewrite probe_loop_step, probe_trace_step.
  destruct (stops _ _ _); [done|].
  specialize (IH (i + 1)).
  destruct (probe_loop ks key h skip todo (i + 1)) as [idx|].
  - destruct (probe_trace ks key h skip todo (i + 1)); [done|].
    by rewrite last_cons_cons.
  - simpl. by rewrite IH.
Qed.

End ProbeTrace.

(** ** The keys of a probing table *)

Section ProbingKeys.

Context {K : Type} `{EqDecision K}.
Implicit Types (ks : JsArray (Slot K)).

Lemma filterNulls_indices ks (a len : nat) :
  Forall2 (fun (i : nat) k => aget ks (Z.of_nat i) = Some (Key k))
    (filter (fun i : nat => is_key (aget ks (Z.of_nat i))) (seq a len))
    (filterNulls ((fun i : nat => aget ks (Z.of_nat i)) <$> seq a len)).
Proof.
  revert a. induction len as [|len IH]; intros a; [constructor|].
  simpl. rewrite filter_cons.
  destruct (aget ks (Z.of_nat a)) as [[|k]|] eqn:Hg; simpl.
  - apply IH.
  - constructor; [done | apply IH].
  - apply IH.
Qed.

Lemma filter_seq_sorted (P : nat -> Prop) `{∀ i, Decision (P i)}
    (a len : nat) :
  StronglySorted lt (filter P (seq a len)).
Proof.
  revert a. induction len as [|len IH]; intros a; [constructor|].
  simpl. rewrite filter_cons. case_decide; [|apply IH].
  apply StronglySorted_cons. split; [|apply IH].
  apply Forall_forall. intros i [_ Hi%elem_of_seq]%list_elem_of_filter.
  lia.
Qed.

Lemma elem_of_occupied_indices ks (i : nat) :
  i ∈ occupied_indices ks
  ↔ (i < alength ks)%nat ∧ ∃ k, aget ks (Z.of_nat i) = Some (Key k).
Proof.
  unfold occupied_indices. rewrite list_elem_of_filter, elem_of_seq.
  split.
  - intros [Hk Hi]. split; [lia|].
    destruct (aget ks (Z.of_nat i)) as [[|k]|]; [done | by exists k | done].
  - intros [Hi [k ->]]. split; [done | lia].
Qed.

End ProbingKeys.

(** * The properties of the specification *)

Section ChainingClaims.

Context {K V : Type} `{EqDecision K}.
Implicit Types (t : ChainingHashtable K V).

Lemma ch_empty_placed size (h : K -> Z) :
  ch_placed (ch_empty (V := V) size h).
Proof.
  intros i bucket k v Hi Hkv. unfold ch_empty in Hi; simpl in Hi.
  apply lookup_replicate in Hi as [-> _]. by apply elem_of_nil in Hkv.
Qed.

Lemma ch_empty_lookup size (h : K -> Z) k :
  (0 < size)%nat -> ch_lookup (ch_empty (V := V) size h) k = Some None.
Proof.
  intros Hs.
  destruct (bucket_at_index (ch_empty (V := V) size h) k)
    as (_ & bucket & Hb & Hat).
  { simpl. by rewrite length_replicate. }
  unfold ch_lookup. rewrite Hat. simpl in Hb.
  apply lookup_replicate in Hb as [-> _]. done.
Qed.

(** C8. For every integer [n] and every integer [m > 0],
    [mod(n, m) = (n % m + m) % m] lies in [[0, m)], also for a negative
    [n] (it is the Euclidean remainder).  In a chaining table with at
    least one chain, [index = mod(hash(key), capacity)] is the index the
    three operations use: [ch_lookup] returns the scan of the chain at
    [index]; [ch_insert] returns whether that scan finds the key and
    stores at [index] that chain with the pair in front or with the value
    replaced; [ch_delete] returns the same and, if the key is found,
    stores at [index] that chain without the pairs of the key; so a scan
    of the chain at [index] then finds the new value, or nothing, and the
    chains at the other indices are as before. *)
Theorem mod_is_bucket_index (n m : Z) t (key : K) (value : V) :
  0 < m ->
  (1 ≤ length (arr t))%nat ->
  (mod' n m = Z.rem (Z.rem n m + m) m
   ∧ 0 ≤ mod' n m < m
   ∧ mod' n m = n `mod` m)
  ∧ let index := mod' (ch_hash t key) (Z.of_nat (length (arr t))) in
    0 ≤ index < Z.of_nat (length (arr t))
    ∧ ∃ bucket,
        arr t !! Z.to_nat index = Some bucket
        ∧ ch_lookup t key = Some (scan bucket key)
        ∧ ch_insert t key value
          = Some (bool_decide (is_Some (scan bucket key)),
                  mkChaining
                    (<[Z.to_nat index :=
                         if bool_decide (is_Some (scan bucket key))
                         then replaced key value bucket
                         else (key, value) :: bucket]> (arr t))
                    (ch_hash t))
        ∧ ch_delete t key
          = Some (if bool_decide (is_Some (scan bucket key))
                  then (true,
                        mkChaining
                          (<[Z.to_nat index :=
                               ListLib.filter
                                 (fun kv => bool_decide (ListLib.head kv ≠ key))
                                 bucket]> (arr t))
                          (ch_hash t))
                  else (false, t))
        ∧ (∀ b t', ch_insert t key value = Some (b, t') ->
             (∃ bucket', arr t' !! Z.to_nat index = Some bucket'
                         ∧ scan bucket' key = Some value)
             ∧ ∀ i : nat, i ≠ Z.to_nat index -> arr t' !! i = arr t !! i)
        ∧ (∀ b t', ch_delete t key = Some (b, t') ->
             (∃ bucket', arr t' !! Z.to_nat index = Some bucket'
                         ∧ scan bucket' key = None)
             ∧ ∀ i : nat, i ≠ Z.to_nat index -> arr t' !! i = arr t !! i).
Proof.
  intros Hm Hlen.
  split; [split; [done|]; split; [by apply mod'_range | by apply mod'_modulo]|].
  intros index.
  destruct (bucket_at_index t key ltac:(lia)) as (Hlt & bucket & Hb & Hat).
  fold index in Hlt, Hb, Hat.
  split; [apply mod'_range; lia|].
  exists bucket. split; [done|]. split.
  { unfold ch_lookup. fold index. by rewrite Hat. }
  assert (ch_insert t key value
          = Some (bool_decide (is_Some (scan bucket key)),
                  mkChaining
                    (<[Z.to_nat index :=
                         if bool_decide (is_Some (scan bucket key))
                         then replaced key value bucket
                         else (key, value) :: bucket]> (arr t))
                    (ch_hash t))) as Hins.
  { unfold ch_insert. fold index. rewrite Hat. simpl.
    destruct (scan bucket key) as [v0|] eqn:Hs.
    - by rewrite bool_decide_eq_true_2 by (by eexists).
    - by rewrite bool_decide_eq_false_2 by (by intros [? ?]). }
  assert (ch_delete t key
          = Some (if bool_decide (is_Some (scan bucket key))
                  then (true,
                        mkChaining
                          (<[Z.to_nat index :=
                               ListLib.filter
                                 (fun kv => bool_decide (ListLib.head kv ≠ key))
                                 bucket]> (arr t))
                          (ch_hash t))
                  else (false, t))) as Hdel.
  { unfold ch_delete. fold index. rewrite Hat. simpl.
    destruct (scan bucket key) as [v0|] eqn:Hs.
    - by rewrite bool_decide_eq_true_2 by (by eexists).
    - by rewrite bool_decide_eq_false_2 by (by intros [? ?]). }
  split; [done|]. split; [done|]. split.
  - intros b t'. rewrite Hins. intros [= <- <-]. cbn [arr]. split.
    + eexists. split; [by apply list_lookup_insert_eq|].
      case_bool_decide as Hs.
      * apply scan_replaced. by apply scan_is_Some.
      * apply scan_cons_eq.
    + intros i Hi. by apply list_lookup_insert_ne.
  - intros b t'. rewrite Hdel. case_bool_decide as Hs.
    + intros [= <- <-]. cbn [arr]. split.
      * eexists. split; [by apply list_lookup_insert_eq|].
        apply scan_filter_eq.
      * intros i Hi. by apply list_lookup_insert_ne.
    + intros [= <- <-]. split; [|done].
      exists bucket. split; [done|].
      by destruct (scan bucket key) as [v0|]; [destruct Hs; eexists|].
Qed.

(** C6. In a chaining table with at least one chain, [ch_insert(t, k, v)]
    works on the chain of index [mod(hash(k), capacity)]: if no pair of
    the chain has key [k], it puts [(k, v)] in front of the chain and
    returns [false]; otherwise it returns [true] and the chain is rebuilt
    with the same length and, position by position, the same keys, the
    value being [v] where the key is [k] and the old value elsewhere. *)
Theorem ch_insert_semantics t (key : K) (value : V) :
  (1 ≤ length (arr t))%nat ->
  let index := Z.to_nat (mod' (ch_hash t key) (Z.of_nat (length (arr t)))) in
  (index < length (arr t))%nat
  ∧ ∃ bucket,
      arr t !! index = Some bucket
      ∧ (key ∉ bucket.*1 ->
         ch_insert t key value
         = Some (false,
                 mkChaining (<[index := (key, value) :: bucket]> (arr t))
                   (ch_hash t)))
      ∧ (key ∈ bucket.*1 ->
         ∃ bucket',
           ch_insert t key value
           = Some (true,
                   mkChaining (<[index := bucket']> (arr t)) (ch_hash t))
           ∧ length bucket' = length bucket
           ∧ bucket'.*1 = bucket.*1
           ∧ ∀ (i : nat) k v,
               bucket !! i = Some (k, v) ->
               bucket' !! i
               = Some (k, if decide (key = k) then value else v)).
Proof.
  intros Hlen index.
  destruct (bucket_at_index t key ltac:(lia)) as (Hlt & bucket & Hb & Hat).
  split; [done|]. exists bucket. split; [done|]. split.
  - intros Hnew%scan_None. unfold ch_insert. rewrite Hat. simpl.
    by rewrite Hnew.
  - intros [v0 Hold]%scan_is_Some. exists (replaced key value bucket).
    split; [|split; [|split]].
    + unfold ch_insert. rewrite Hat. simpl. by rewrite Hold.
    + apply replaced_length.
    + apply list_eq. intros i. rewrite !list_lookup_fmap.
      destruct (bucket !! i) as [[k v]|] eqn:Hi.
      * by rewrite (replaced_lookup _ _ _ _ _ _ Hi).
      * rewrite lookup_ge_None_2; [done|].
        rewrite replaced_length. by apply lookup_ge_None.
    + intros i k v. apply replaced_lookup.
Qed.

End ChainingClaims.

Lemma mod_is_bucket_index_witness :
  0 ≤ mod' (-7) 4 < 4
  ∧ mod' (hash_id (-3)) 4 = 1
  ∧ ch_insert (mkChaining [[]; [(9, "b"); (5, "a")]; []; []] hash_id) (-3) "c"
    = Some (false,
            mkChaining [[]; [(-3, "c"); (9, "b"); (5, "a")]; []; []] hash_id)
  ∧ ch_delete ch_two (-3) = Some (false, ch_two).
Proof.
  destruct (mod_is_bucket_index (-7) 4 ch_two (-3) "c")
    as ((_ & Hr & _) & _ & bucket & Hb & _ & Hi & Hd & _).
  - lia.
  - simpl. lia.
  - vm_compute in Hb. injection Hb as <-.
    split; [exact Hr|]. split; [reflexivity|]. split.
    + etrans; [exact Hi|]. vm_compute. reflexivity.
    + etrans; [exact Hd|]. vm_compute. reflexivity.
Defined.

Lemma ch_insert_semantics_witness :
  (1 < length (arr ch_two))%nat
  ∧ ∃ bucket,
      arr ch_two !! 1%nat = Some bucket
      ∧ (5 ∉ bucket.*1 ->
         ch_insert ch_two 5 "c"
         = Some (false,
                 mkChaining (<[1%nat := (5, "c") :: bucket]> (arr ch_two))
                   hash_id))
      ∧ (5 ∈ bucket.*1 ->
         ∃ bucket',
           ch_insert ch_two 5 "c"
           = Some (true,
                   mkChaining (<[1%nat := bucket']> (arr ch_two)) hash_id)
           ∧ length bucket' = length bucket
           ∧ bucket'.*1 = bucket.*1
           ∧ ∀ (i : nat) k v,
               bucket !! i = Some (k, v) ->
               bucket' !! i = Some (k, if decide (5 = k) then "c" else v)).
Proof.
  apply (ch_insert_semantics ch_two 5 "c").
  simpl. lia.
Defined.

Section BothTables.

Context {K V : Type} `{EqDecision K}.
Implicit Types (t : ChainingHashtable K V) (ht : ProbingHashtable K V).

(** C1. Insert then lookup.  In a chaining table with at least one chain,
    [ch_lookup(t, k)] right after [ch_insert(t, k, v)] returns [v].  In a
    probing table, for a key whose hash fits (it is not negative and
    [hash(k) + capacity - 1] is at most [2^53], so that no sum of the
    probe is rounded), whenever [ph_insert(t, k, v)] returns [true],
    [ph_lookup(t, k)] on the table it leaves returns [v]. *)
Theorem insert_lookup_round_trip t ht ht' (key : K) (value : V) :
  (1 ≤ length (arr t))%nat ->
  hash_fits (alength (keys ht)) (hash ht key) ->
  ph_insert ht key value = (true, ht') ->
  (∃ b t', ch_insert t key value = Some (b, t')
           ∧ ch_lookup t' key = Some (Some value))
  ∧ ph_lookup ht' key = Some value.
Proof.
  intros Hlen Hh Hins. split.
  - apply ch_insert_lookup. lia.
  - by apply (ph_insert_lookup ht key value ht').
Qed.

(** C7. [ch_keys(t)] lists, as a set, exactly the keys of the pairs of
    the chains of [t]; after any calls of [ch_insert] and [ch_delete] on
    an empty table with at least one chain these are the keys inserted
    and not deleted since.  [ph_keys(t)] lists the keys of the slots that
    hold a key, one per such slot, by increasing index of the slot. *)
Theorem keys_are_live_keys t ht (size : nat) (h : K -> Z)
    (ops : list (@ch_op K V)) :
  (1 ≤ size)%nat ->
  (∀ k, k ∈ ch_keys t ↔ ∃ bucket v, bucket ∈ arr t ∧ (k, v) ∈ bucket)
  ∧ (∃ t', ch_run (ch_empty size h) ops = Some t'
           ∧ ∀ k, k ∈ ch_keys t'
                  ↔ is_Some (ch_live ops (fun _ => None) k))
  ∧ (Forall2 (fun (i : nat) k => aget (keys ht) (Z.of_nat i) = Some (Key k))
       (occupied_indices (keys ht)) (ph_keys ht)
     ∧ StronglySorted lt (occupied_indices (keys ht))
     ∧ ∀ i : nat,
         i ∈ occupied_indices (keys ht)
         ↔ (i < alength (keys ht))%nat
           ∧ ∃ k, aget (keys ht) (Z.of_nat i) = Some (Key k)).
Proof.
  intros Hsize. split; [|split].
  - apply ch_keys_elem.
  - destruct (ch_run_live ops (ch_empty size h) (fun _ => None))
      as (t' & Hrun & Hlen & Hp & Hlook).
    + simpl. rewrite length_replicate. lia.
    + apply ch_empty_placed.
    + intros k. apply ch_empty_lookup. lia.
    + exists t'. split; [done|]. intros k.
      rewrite ch_keys_lookup; [|simpl in Hlen; rewrite length_replicate in Hlen; lia|done].
      rewrite Hlook. split.
      * intros [v [= Hv]]. by rewrite Hv.
      * intros [v Hv]. exists v. by rewrite Hv.
  - split; [|split].
    + unfold ph_keys, occupied_indices. rewrite build_list_fmap.
      apply filterNulls_indices.
    + apply filter_seq_sorted.
    + apply elem_of_occupied_indices.
Qed.

End BothTables.

Lemma hash_nonneg_ph_three : hash_nonneg ph_three.
Proof.
  intros k. unfold ph_three. rewrite !ph_insert_hash. simpl.
  unfold hash_nat, hash_id. lia.
Qed.

Lemma insert_lookup_round_trip_witness :
  (∃ b t', ch_insert (ch_empty 4 hash_nat) 3%nat "w" = Some (b, t')
           ∧ ch_lookup t' 3%nat = Some (Some "w"))
  ∧ ph_lookup (ph_insert ph_three 3%nat "w").2 3%nat = Some "w".
Proof.
  apply (insert_lookup_round_trip (ch_empty 4 hash_nat) ph_three
           (ph_insert ph_three 3%nat "w").2 3%nat "w").
  - simpl. lia.
  - vm_compute. repeat split; discriminate.
  - vm_compute. reflexivity.
Defined.

Lemma keys_are_live_keys_witness :
  (∀ k, k ∈ ch_keys (ch_empty (V := string) 4 hash_nat)
        ↔ ∃ bucket (v : string),
            bucket ∈ arr (ch_empty 4 hash_nat) ∧ (k, v) ∈ bucket)
  ∧ (∃ t', ch_run (ch_empty 4 hash_nat)
             [ChInsert 5%nat "a"; ChInsert 9%nat "b"; ChDelete 5%nat]
           = Some t'
           ∧ ∀ k, k ∈ ch_keys t'
                  ↔ is_Some
                      (ch_live
                         [ChInsert 5%nat "a"; ChInsert 9%nat "b";
                          ChDelete 5%nat]
                         (fun _ => None) k))
  ∧ (Forall2
       (fun (i : nat) k => aget (keys ph_three) (Z.of_nat i) = Some (Key k))
       (occupied_indices (keys ph_three)) (ph_keys ph_three)
     ∧ StronglySorted lt (occupied_indices (keys ph_three))
     ∧ ∀ i : nat,
         i ∈ occupied_indices (keys ph_three)
         ↔ (i < alength (keys ph_three))%nat
           ∧ ∃ k, aget (keys ph_three) (Z.of_nat i) = Some (Key k)).
Proof.
  apply (keys_are_live_keys (ch_empty 4 hash_nat) ph_three 4%nat hash_nat
           [ChInsert 5%nat "a"; ChInsert 9%nat "b"; ChDelete 5%nat]).
  lia.
Defined.

Section ProbingClaims.

Context {K V : Type} `{EqDecision K}.
Implicit Types (ht : ProbingHashtable K V) (key : K) (value : V).

(** What the second probe of [ph_insert] decides: its index is taken
    whenever it returns one, the [null] slot is kept only when it returns
    nothing. *)
Lemma resolve_null ht key idx0 :
  aget (keys ht) idx0 = Some Null ->
  resolve (keys ht) key idx0
  = default idx0 (probe (keys ht) key idx0 true).
Proof. intros Hn. unfold resolve. rewrite Hn. by destruct (probe _ _ _ _). Qed.

(** [ph_insert] when its first probe stops at a [null] slot of a table
    that is not full: the entry goes to the index of the second probe if
    there is one, be it the slot of the key or an [undefined] slot, and to
    the [null] slot otherwise. *)
Lemma ph_insert_at_null ht key value idx0 :
  probe (keys ht) key (hash ht key) false = Some idx0 ->
  aget (keys ht) idx0 = Some Null ->
  entries ht ≠ Z.of_nat (alength (keys ht)) ->
  let idx := default idx0 (probe (keys ht) key idx0 true) in
  ph_insert ht key value
  = (true,
     mkProbing (aset (keys ht) idx (Key key)) (aset (values ht) idx value)
       (hash ht)
       (if decide (aget (keys ht) idx = Some (Key key))
        then entries ht else entries ht + 1)).
Proof.
  intros Hp Hnull Hroom idx. unfold ph_insert. rewrite Hp.
  cbn zeta. rewrite (resolve_null ht key idx0 Hnull). fold idx.
  case_decide; [done|]. by rewrite decide_False.
Qed.

(** C3. From [ph_empty(capacity, hash)], inserting [capacity] pairwise
    distinct keys whose hash fits (it is not negative and
    [hash(k) + capacity - 1] is at most [2^53]) returns [true] each time and
    fills the table: [entries] is [capacity] and every slot holds a key.
    [ph_insert] of one more key, distinct from these, then returns [false]
    and leaves the table as it is, whatever the hash of that key. *)
Theorem ph_fill_then_reject (size : nat) (h : K -> Z) (kvs : list (K * V)) :
  (∀ k, k ∈ kvs.*1 -> hash_fits size (h k)) ->
  NoDup kvs.*1 ->
  length kvs = size ->
  ∃ ht',
    ph_insert_all (ph_empty size h) kvs = (replicate size true, ht')
    ∧ entries ht' = Z.of_nat size
    ∧ occupied (keys ht') = size
    ∧ alength (keys ht') = size
    ∧ ∀ key value, key ∉ kvs.*1 -> ph_insert ht' key value = (false, ht').
Proof.
  intros Hh Hnd <-.
  destruct (ph_insert_all_fresh kvs (ph_empty (length kvs) h))
    as (ht' & Hall & Hhash & Hal & Hwf & Hocc & Hkeys).
  - done.
  - apply ph_wf_empty.
  - intros i. unfold aget; simpl. by rewrite lookup_empty.
  - done.
  - intros k i _. unfold aget; simpl. by rewrite lookup_empty.
  - simpl. rewrite occupied_new. lia.
  - simpl in Hal, Hocc. rewrite occupied_new in Hocc.
    exists ht'. split; [done|].
    split; [rewrite (wf_count _ Hwf); lia|].
    split; [lia|]. split; [done|].
    intros key value Hkey. apply ph_insert_rejected.
    + intros i Hi. destruct (Hkeys i key Hi) as [Hold|Hin]; [|done].
      unfold aget in Hold; simpl in Hold. by rewrite lookup_empty in Hold.
    + rewrite (wf_count _ Hwf). lia.
Qed.

(** C4. In a probing table whose hash is never negative: if the probe
    from [hash(k)] that skips [null] returns a slot that holds [k],
    [ph_delete(t, k)] returns the value stored there, writes [null] in
    the key slot and [undefined] in the value slot, takes one off
    [entries] and changes nothing else; if no slot holds [k], it returns
    [undefined] and leaves the table as it is.  In a well-formed table the
    probe does return the slot that holds [k]. *)
Theorem ph_delete_semantics ht key :
  hash_nonneg ht ->
  (∀ idx,
      probe (keys ht) key (hash ht key) true = Some idx ->
      aget (keys ht) idx = Some (Key key) ->
      ph_delete ht key
      = (aget (values ht) idx,
         mkProbing (aset (keys ht) idx Null)
           (aset_undefined (values ht) idx) (hash ht) (entries ht - 1))
      ∧ aget (keys (ph_delete ht key).2) idx = Some Null
      ∧ aget (values (ph_delete ht key).2) idx = None
      ∧ entries (ph_delete ht key).2 = entries ht - 1
      ∧ alength (keys (ph_delete ht key).2) = alength (keys ht)
      ∧ ∀ i, i ≠ idx ->
             aget (keys (ph_delete ht key).2) i = aget (keys ht) i
             ∧ aget (values (ph_delete ht key).2) i = aget (values ht) i)
  ∧ ((∀ i, aget (keys ht) i ≠ Some (Key key)) ->
     ph_delete ht key = (None, ht))
  ∧ (ph_wf ht ->
     ∀ p, aget (keys ht) p = Some (Key key) ->
          probe (keys ht) key (hash ht key) true = Some p).
Proof.
  intros Hh. split; [|split].
  - intros idx Hp Hget.
    pose proof (probe_range _ _ _ _ _ (Hh key) Hp) as Hidx.
    rewrite (ph_delete_found _ _ _ Hp Hget). cbn [snd keys values entries].
    split; [done|]. split; [apply aget_aset_eq|].
    split; [unfold aget, aset_undefined; simpl; apply lookup_delete_eq|].
    split; [done|]. split; [by apply alength_aset|].
    intros i Hi. split; [by apply aget_aset_ne|].
    unfold aget, aset_undefined; simpl. by apply lookup_delete_ne.
  - intros Habs.
    destruct (ph_delete_cases ht key) as [-> | (idx & _ & Hget)]; [done|].
    by destruct (Habs idx).
  - intros Hwf p Hp. by apply probe_present.
Qed.

(** C5. In every table reachable from [ph_empty] by calls of [ph_insert]
    and [ph_delete], the hash values fitting (none is negative and
    [hash(k) + capacity - 1] is at most [2^53]), [entries] is the number of
    slots that hold a key, all keys are in slots of the array, and no key
    is in two slots. *)
Theorem ph_reachable_invariants (size : nat) (h : K -> Z) ht :
  (∀ k, hash_fits size (h k)) ->
  ph_reachable size h ht ->
  entries ht = Z.of_nat (occupied (keys ht))
  ∧ (∀ i, aget (keys ht) i ≠ None -> 0 ≤ i < Z.of_nat size)
  ∧ ∀ i j k,
      aget (keys ht) i = Some (Key k) ->
      aget (keys ht) j = Some (Key k) -> i = j.
Proof.
  intros Hh Hr.
  destruct (ph_reachable_wf size h ht Hh Hr) as (Hwf & _ & Hlen & _).
  split; [apply (wf_count _ Hwf)|]. split.
  - intros i Hi. rewrite <- Hlen. by apply (wf_dom _ Hwf).
  - apply (wf_uniq _ Hwf).
Qed.

(** C9. In a reachable table, the hash values fitting (none is negative
    and [hash(k) + capacity - 1] is at most [2^53]), [ph_insert] of a key
    that is in the table returns [true], writes the value in the value
    slot of the key and changes neither the keys nor [entries]; nothing is
    asked of [entries], which may be the capacity. *)
Theorem ph_insert_existing_key (size : nat) (h : K -> Z) ht key value p :
  (∀ k, hash_fits size (h k)) ->
  ph_reachable size h ht ->
  aget (keys ht) p = Some (Key key) ->
  ph_insert ht key value
  = (true,
     mkProbing (keys ht) (aset (values ht) p value) (hash ht) (entries ht)).
Proof.
  intros Hh Hr Hp.
  destruct (ph_reachable_wf size h ht Hh Hr) as (Hwf & Hhash & Hlen & _).
  apply ph_insert_present; [done | | done].
  rewrite Hhash, Hlen. apply Hh.
Qed.

(** C10. In a probing table of capacity at least 1 whose hash is never
    negative, a probe from a non-negative start reads at most [capacity]
    slots, all of them at indices in [[0, capacity)], and returns the
    last index it read; so the indices at which [ph_lookup], [ph_insert]
    and [ph_delete] read and write are in [[0, capacity)], and the arrays
    keep their length. *)
Theorem probe_stays_in_bounds ht key value (start : Z) (skip : bool) :
  (1 ≤ alength (keys ht))%nat ->
  hash_nonneg ht ->
  0 ≤ start ->
  let n := alength (keys ht) in
  let tr := probe_trace (keys ht) key start skip n 0 in
  ((length tr ≤ n)%nat
   ∧ Forall (fun idx => 0 ≤ idx < Z.of_nat n) tr
   ∧ match probe (keys ht) key start skip with
     | Some idx => last tr = Some idx ∧ 0 ≤ idx < Z.of_nat n
     | None => length tr = n
     end)
  ∧ (∀ idx, probe (keys ht) key (hash ht key) true = Some idx ->
            0 ≤ idx < Z.of_nat n)
  ∧ (∀ idx0, probe (keys ht) key (hash ht key) false = Some idx0 ->
             0 ≤ idx0 < Z.of_nat n
             ∧ 0 ≤ resolve (keys ht) key idx0 < Z.of_nat n)
  ∧ alength (keys (ph_insert ht key value).2) = n
  ∧ alength (keys (ph_delete ht key).2) = n.
Proof.
  intros Hcap Hh Hstart n tr. split; [split; [|split]|].
  - apply probe_trace_length.
  - apply probe_trace_range; [done | lia | lia].
  - pose proof (probe_trace_last (keys ht) key start skip n 0) as Hlast.
    fold tr in Hlast. unfold probe. fold n.
    destruct (probe_loop (keys ht) key start skip n 0) as [idx|] eqn:Hp;
      [|done].
    split; [done|]. by apply (probe_range (keys ht) key start skip).
  - split; [|split; [|split]].
    + intros idx Hp. by apply (probe_range _ _ _ _ _ (Hh key) Hp).
    + intros idx0 Hp.
      split; [by apply (probe_range _ _ _ _ _ (Hh key) Hp)|].
      apply resolve_range. by apply (probe_range _ _ _ _ _ (Hh key) Hp).
    + by apply ph_insert_alength.
    + by apply ph_delete_alength.
Qed.

End ProbingClaims.

Lemma hash_nat_nonneg (k : nat) : 0 ≤ hash_nat k.
Proof. unfold hash_nat, hash_id. lia. Qed.

Lemma hash_low_fits (k : nat) : hash_fits 3 (hash_low k).
Proof.
  unfold hash_fits, hash_low.
  pose proof (Nat.mod_upper_bound k 16 ltac:(lia)). lia.
Qed.

Lemma ph_low_reachable : ph_reachable 3 hash_low ph_low.
Proof. unfold ph_low. repeat apply reach_insert. apply reach_empty. Qed.

Lemma hash_N_nonneg (k : N) : 0 ≤ hash_N k.
Proof. unfold hash_N, hash_id. lia. Qed.

Lemma ph_big_deleted_reachable : ph_reachable 3 hash_N ph_big_deleted.
Proof.
  unfold ph_big_deleted. apply reach_delete, reach_insert, reach_empty.
Qed.

Lemma ph_big_full_reachable : ph_reachable 3 hash_N ph_big_full.
Proof.
  unfold ph_big_full. repeat apply reach_insert.
  apply ph_big_deleted_reachable.
Qed.

Lemma ph_big_twice_reachable : ph_reachable 4 hash_N ph_big_twice.
Proof.
  unfold ph_big_twice.
  repeat first [apply reach_insert | apply reach_delete]. apply reach_empty.
Qed.

Lemma ph_fill_then_reject_witness :
  ∃ ht',
    ph_insert_all (ph_empty 3 hash_low)
      [(0%nat, "x"); (3%nat, "y"); (1%nat, "z")]
    = (replicate 3 true, ht')
    ∧ entries ht' = 3
    ∧ occupied (keys ht') = 3%nat
    ∧ alength (keys ht') = 3%nat
    ∧ ∀ key value,
        key ∉ [(0%nat, "x"); (3%nat, "y"); (1%nat, "z")].*1 ->
        ph_insert ht' key value = (false, ht').
Proof.
  apply (ph_fill_then_reject 3 hash_low
           [(0%nat, "x"); (3%nat, "y"); (1%nat, "z")]).
  - intros k _. apply hash_low_fits.
  - apply (bool_decide_unpack _). vm_compute. exact I.
  - reflexivity.
Defined.

Lemma ph_delete_semantics_witness :
  ph_delete ph_three 3%nat
  = (Some "y",
     mkProbing (aset (keys ph_three) 1 Null)
       (aset_undefined (values ph_three) 1) (hash ph_three)
       (entries ph_three - 1))
  ∧ ph_delete (ph_empty (V := string) 3 hash_nat) 7%nat
    = (None, ph_empty 3 hash_nat).
Proof.
  split.
  - destruct (ph_delete_semantics ph_three 3%nat hash_nonneg_ph_three)
      as [Hfound _].
    destruct (Hfound 1) as [Heq _].
    + vm_compute. reflexivity.
    + vm_compute. reflexivity.
    + exact Heq.
  - destruct (ph_delete_semantics (ph_empty (V := string) 3 hash_nat) 7%nat)
      as (_ & Habsent & _).
    + intros k. apply hash_nat_nonneg.
    + apply Habsent. intros i. unfold aget; simpl.
      rewrite lookup_empty. discriminate.
Defined.

Lemma ph_reachable_invariants_witness :
  entries ph_low = Z.of_nat (occupied (keys ph_low))
  ∧ (∀ i, aget (keys ph_low) i ≠ None -> 0 ≤ i < Z.of_nat 3)
  ∧ ∀ i j k,
      aget (keys ph_low) i = Some (Key k) ->
      aget (keys ph_low) j = Some (Key k) -> i = j.
Proof.
  apply (ph_reachable_invariants 3 hash_low ph_low).
  - apply hash_low_fits.
  - apply ph_low_reachable.
Defined.

Lemma ph_insert_existing_key_witness :
  entries ph_low = Z.of_nat (alength (keys ph_low))
  ∧ ph_insert ph_low 3%nat "w"
    = (true,
       mkProbing (keys ph_low) (aset (values ph_low) 1 "w")
         (hash ph_low) (entries ph_low)).
Proof.
  split; [vm_compute; reflexivity|].
  apply (ph_insert_existing_key 3 hash_low ph_low 3%nat "w" 1).
  - apply hash_low_fits.
  - apply ph_low_reachable.
  - vm_compute. reflexivity.
Defined.

(** C1 as the specification words it, with a hash that is only known to be
    never negative, does not hold of [ph_big_deleted] (capacity 3, slot 2
    [null]): [ph_insert] of key [2^53 + 6] probes slot 2, then from slot 2
    reaches slot 0, writes the key there and returns [true]; [ph_lookup]
    probes slot 2 and then, [2^53 + 6 + 1] being rounded to [2^53 + 8],
    slot 1, which is [undefined]. *)
Lemma insert_lookup_lost_by_rounding :
  hash ph_big_deleted = hash_N
  ∧ (∀ k, 0 ≤ hash_N k)
  ∧ slots (keys ph_big_deleted) = [None; None; Some Null]
  ∧ (ph_insert ph_big_deleted (big 6) "b").1 = true
  ∧ slots (keys (ph_insert ph_big_deleted (big 6) "b").2)
    = [Some (Key (big 6)); None; Some Null]
  ∧ probe_trace (keys (ph_insert ph_big_deleted (big 6) "b").2) (big 6)
      (hash_N (big 6)) true 3 0 = [2; 1]
  ∧ ph_lookup (ph_insert ph_big_deleted (big 6) "b").2 (big 6) = None.
Proof.
  split; [reflexivity|]. split; [apply hash_N_nonneg|].
  vm_compute. repeat split; reflexivity.
Qed.

(** C3 as the specification words it does not hold of [hash_id] on the keys
    [2^53], [2^53 + 6], [2^53 + 12] and capacity 3: the probes of the three
    keys read slots 2 and 1 only, and the third [ph_insert] returns [false]
    with [entries] at 2. *)
Lemma ph_fill_fails_by_rounding :
  (∀ k, 0 ≤ hash_N k)
  ∧ NoDup [big 0; big 6; big 12]
  ∧ (ph_insert_all (ph_empty 3 hash_N)
       [(big 0, "a"); (big 6, "b"); (big 12, "c")]).1
    = [true; true; false]
  ∧ entries
      (ph_insert_all (ph_empty 3 hash_N)
         [(big 0, "a"); (big 6, "b"); (big 12, "c")]).2 = 2
  ∧ slots
      (keys
         (ph_insert_all (ph_empty 3 hash_N)
            [(big 0, "a"); (big 6, "b"); (big 12, "c")]).2)
    = [None; Some (Key (big 6)); Some (Key (big 0))].
Proof.
  split; [apply hash_N_nonneg|].
  split; [apply (bool_decide_unpack _); vm_compute; exact I|].
  vm_compute. repeat split; reflexivity.
Qed.

(** C5 as the specification words it does not hold of the reachable table
    [ph_big_twice] (capacity 4, [hash_id]): the probe of key [2^53 + 2]
    reads slots 2, 0, 0, 0, and the key is in slots 1 and 3. *)
Lemma ph_key_twice_by_rounding :
  (∀ k, 0 ≤ hash_N k)
  ∧ ph_reachable 4 hash_N ph_big_twice
  ∧ slots (keys ph_big_twice)
    = [Some Null; Some (Key (big 2)); Some Null; Some (Key (big 2))]
  ∧ aget (keys ph_big_twice) 1 = Some (Key (big 2))
  ∧ aget (keys ph_big_twice) 3 = Some (Key (big 2))
  ∧ entries ph_big_twice = 2.
Proof.
  split; [apply hash_N_nonneg|]. split; [apply ph_big_twice_reachable|].
  vm_compute. repeat split; reflexivity.
Qed.

(** C9 as the specification words it does not hold of the reachable table
    [ph_big_full] (capacity 3, [hash_id]): key [2^53 + 6] is in slot 0, the
    probe of [ph_insert] for it reads slots 2, 1, 1 and returns nothing,
    and [ph_insert] returns [false]. *)
Lemma ph_insert_existing_fails_by_rounding :
  (∀ k, 0 ≤ hash_N k)
  ∧ ph_reachable 3 hash_N ph_big_full
  ∧ aget (keys ph_big_full) 0 = Some (Key (big 6))
  ∧ probe_trace (keys ph_big_full) (big 6) (hash_N (big 6)) false 3 0
    = [2; 1; 1]
  ∧ ph_insert ph_big_full (big 6) "z" = (false, ph_big_full).
Proof.
  split; [apply hash_N_nonneg|]. split; [apply ph_big_full_reachable|].
  vm_compute. repeat split; reflexivity.
Qed.

Lemma probe_stays_in_bounds_witness :
  let n := alength (keys ph_three) in
  let tr := probe_trace (keys ph_three) 7%nat 7 false n 0 in
  ((length tr ≤ n)%nat
   ∧ Forall (fun idx => 0 ≤ idx < Z.of_nat n) tr
   ∧ match probe (keys ph_three) 7%nat 7 false with
     | Some idx => last tr = Some idx ∧ 0 ≤ idx < Z.of_nat n
     | None => length tr = n
     end)
  ∧ (∀ idx, probe (keys ph_three) 7%nat (hash ph_three 7%nat) true = Some idx ->
            0 ≤ idx < Z.of_nat n)
  ∧ (∀ idx0,
        probe (keys ph_three) 7%nat (hash ph_three 7%nat) false = Some idx0 ->
        0 ≤ idx0 < Z.of_nat n
        ∧ 0 ≤ resolve (keys ph_three) 7%nat idx0 < Z.of_nat n)
  ∧ alength (keys (ph_insert ph_three 7%nat "q").2) = n
  ∧ alength (keys (ph_delete ph_three 7%nat).2) = n.
Proof.
  apply (probe_stays_in_bounds ph_three 7%nat "q" 7 false).
  - vm_compute. lia.
  - apply hash_nonneg_ph_three.
  - lia.
Defined.

(** C2. The specification has the second probe of [ph_insert] replace the
    [null] index only if it finds the key, so that a key inserted after a
    delete on its probe chain takes the [null] slot.  On [ph_tombstone]
    (capacity 4, [hash_id], after [insert(0)], [insert(4)], [delete(0)]),
    [ph_insert] of key 8 does otherwise: the first probe stops at the
    [null] slot 0, the second probe does not find the key and returns the
    [undefined] slot 2, and the key is written in slot 2 while slot 0
    stays [null]. *)
Theorem ph_insert_leaves_tombstone :
  probe (keys ph_tombstone) 8 (hash ph_tombstone 8) false = Some 0
  ∧ aget (keys ph_tombstone) 0 = Some Null
  ∧ probe (keys ph_tombstone) 8 0 true = Some 2
  ∧ aget (keys ph_tombstone) 2 = None
  ∧ (ph_insert ph_tombstone 8 "w").1 = true
  ∧ aget (keys (ph_insert ph_tombstone 8 "w").2) 0 = Some Null
  ∧ aget (keys (ph_insert ph_tombstone 8 "w").2) 2 = Some (Key 8)
  ∧ ¬ reuses_tombstone ph_tombstone 8 "w".
Proof.
  assert (probe (keys ph_tombstone) 8 (hash ph_tombstone 8) false = Some 0)
    as H1 by (vm_compute; reflexivity).
  assert (aget (keys ph_tombstone) 0 = Some Null)
    as H2 by (vm_compute; reflexivity).
  assert (probe (keys ph_tombstone) 8 0 true = Some 2)
    as H3 by (vm_compute; reflexivity).
  assert (aget (keys ph_tombstone) 2 = None)
    as H4 by (vm_compute; reflexivity).
  assert (aget (keys (ph_insert ph_tombstone 8 "w").2) 0 = Some Null)
    as H5 by (vm_compute; reflexivity).
  repeat (split; [first [done | vm_compute; reflexivity]|]).
  intros Hreuse. specialize (Hreuse 0 H1 H2).
  rewrite H5 in Hreuse. discriminate Hreuse.
  intros key_idx Hk. rewrite H3 in Hk. injection Hk as <-.
  rewrite H4. discriminate.
Qed.

(** The scenario of the specification (capacity 3): the table is full of
    keys and a [null], the second probe returns nothing, and the [null]
    slot is taken. *)
Example ph_insert_takes_tombstone_when_no_slot_is_free :
  let ht := (ph_delete ph_three 3%nat).2 in
  probe (keys ht) 6%nat (hash ht 6%nat) false = Some 1
  ∧ aget (keys ht) 1 = Some Null
  ∧ probe (keys ht) 6%nat 1 true = None
  ∧ aget (keys (ph_insert ht 6%nat "w").2) 1 = Some (Key 6%nat)
  ∧ ph_keys (ph_insert ht 6%nat "w").2 = [0; 6; 1]%nat
  ∧ ph_lookup (ph_insert ht 6%nat "w").2 6%nat = Some "w"
  ∧ entries (ph_insert ht 6%nat "w").2 = 3.
Proof. vm_compute. repeat split; reflexivity. Qed.

(** The scenario of the specification for the chaining table
    (capacity 4). *)
Example ch_scenario :
  ch_run (ch_empty 4 hash_id) [ChInsert 5 "a"; ChInsert 9 "b"] = Some ch_two
  ∧ ch_lookup ch_two 5 = Some (Some "a")
  ∧ ch_lookup ch_two 9 = Some (Some "b")
  ∧ ch_insert ch_two 5 "c"
    = Some (true, mkChaining [[]; [(9, "b"); (5, "c")]; []; []] hash_id)
  ∧ (d ← ch_delete ch_two 5; Some (d.1, ch_lookup d.2 5, ch_keys d.2))
    = Some (true, Some None, [9]).
Proof. vm_compute. repeat split; reflexivity. Qed.

(** * Further properties of the chaining table *)

Section ChainingMore.

Context {K V : Type} `{EqDecision K}.
Implicit Types (t : ChainingHashtable K V) (xs : list (K * V)).

Lemma replaced_keys key (value : V) xs : (replaced key value xs).*1 = xs.*1.
Proof.
  apply list_eq. intros i. rewrite !list_lookup_fmap.
  destruct (xs !! i) as [[k v]|] eqn:Hi.
  - by rewrite (replaced_lookup _ _ _ _ _ _ Hi).
  - rewrite lookup_ge_None_2; [done|].
    rewrite replaced_length. by apply lookup_ge_None.
Qed.

Lemma filter_keys_NoDup (p : K * V -> bool) xs :
  NoDup xs.*1 -> NoDup (ListLib.filter p xs).*1.
Proof.
  induction xs as [|[k v] xs IH]; simpl; [done|].
  rewrite NoDup_cons. intros [Hk Hnd]. destruct (p (k, v)); [|by apply IH].
  rewrite fmap_cons. apply NoDup_cons. split; [|by apply IH].
  intros (kv & Heq & Hin)%list_elem_of_fmap.
  apply elem_of_filter_bool in Hin as [Hin _].
  apply Hk. simpl in Heq. rewrite Heq. by apply list_elem_of_fmap_2.
Qed.

(** Both updates go through a call whose result exists. *)
Lemma ch_insert_inv t key value b t' :
  (0 < length (arr t))%nat ->
  ch_insert t key value = Some (b, t') ->
  ch_rebuilt t t' key (Some value)
  ∧ (b = true ↔ ∃ v0, ch_lookup t key = Some (Some v0)).
Proof.
  intros Hlen Hins.
  destruct (ch_insert_rebuilt t key value Hlen) as (b2 & t2 & Hins2 & Hr).
  rewrite Hins in Hins2. injection Hins2 as <- <-. split; [done|].
  destruct (bucket_at_index t key Hlen) as (_ & bucket & _ & Hat).
  unfold ch_insert in Hins. unfold ch_lookup. rewrite Hat in *.
  simpl in *. destruct (scan bucket key) as [v0|]; simplify_eq.
  - split; [by exists v0 | done].
  - split; [done | intros [v0 Hv]; done].
Qed.

Lemma ch_delete_inv t key b t' :
  (0 < length (arr t))%nat ->
  ch_delete t key = Some (b, t') ->
  ch_rebuilt t t' key None
  ∧ (b = true ↔ ∃ v0, ch_lookup t key = Some (Some v0)).
Proof.
  intros Hlen Hdel.
  destruct (ch_delete_rebuilt t key Hlen) as (b2 & t2 & Hdel2 & Hr).
  rewrite Hdel in Hdel2. injection Hdel2 as <- <-. split; [done|].
  destruct (bucket_at_index t key Hlen) as (_ & bucket & _ & Hat).
  unfold ch_delete in Hdel. unfold ch_lookup. rewrite Hat in *.
  simpl in *. destruct (scan bucket key) as [v0|]; simplify_eq.
  - split; [by exists v0 | done].
  - split; [done | intros [v0 Hv]; done].
Qed.

Lemma ch_insert_nodup t key value b t' :
  ch_nodup t -> ch_insert t key value = Some (b, t') -> ch_nodup t'.
Proof.
  intros Hnd Hins i bucket Hi. unfold ch_insert in Hins.
  destruct (bucket_at (arr t) _) as [old|] eqn:Hat; [|done].
  simpl in Hins. unfold bucket_at in Hat. case_decide; [|done].
  pose proof (lookup_lt_Some _ _ _ Hat) as Hlt.
  destruct (scan old key) as [v0|] eqn:Hs; simplify_eq; simpl in Hi.
  - destruct (decide
      (Z.to_nat (mod' (ch_hash t key) (Z.of_nat (length (arr t)))) = i))
      as [<-|Hne].
    + rewrite list_lookup_insert_eq in Hi by done. simplify_eq.
      fold (replaced key value old). rewrite replaced_keys.
      by apply (Hnd _ _ Hat).
    + rewrite list_lookup_insert_ne in Hi by done. by apply (Hnd i).
  - destruct (decide
      (Z.to_nat (mod' (ch_hash t key) (Z.of_nat (length (arr t)))) = i))
      as [<-|Hne].
    + rewrite list_lookup_insert_eq in Hi by done. simplify_eq.
      rewrite fmap_cons. apply NoDup_cons. split.
      * by apply scan_None.
      * by apply (Hnd _ _ Hat).
    + rewrite list_lookup_insert_ne in Hi by done. by apply (Hnd i).
Qed.

Lemma ch_delete_nodup t key b t' :
  ch_nodup t -> ch_delete t key = Some (b, t') -> ch_nodup t'.
Proof.
  intros Hnd Hdel i bucket Hi. unfold ch_delete in Hdel.
  destruct (bucket_at (arr t) _) as [old|] eqn:Hat; [|done].
  simpl in Hdel. unfold bucket_at in Hat. case_decide; [|done].
  pose proof (lookup_lt_Some _ _ _ Hat) as Hlt.
  destruct (scan old key) as [v0|] eqn:Hs; simplify_eq; simpl in Hi.
  - destruct (decide
      (Z.to_nat (mod' (ch_hash t key) (Z.of_nat (length (arr t)))) = i))
      as [<-|Hne].
    + rewrite list_lookup_insert_eq in Hi by done. simplify_eq.
      apply filter_keys_NoDup. by apply (Hnd _ _ Hat).
    + rewrite list_lookup_insert_ne in Hi by done. by apply (Hnd i).
  - by apply (Hnd i).
Qed.

(** Chains whose keys are told apart by their index have no key in
    common. *)
Lemma concat_keys_NoDup (f : K -> nat) (l : list (list (K * V))) : ∀ off : nat,
  (∀ (i : nat) bucket k v,
      l !! i = Some bucket -> (k, v) ∈ bucket -> f k = (off + i)%nat) ->
  (∀ (i : nat) bucket, l !! i = Some bucket -> NoDup bucket.*1) ->
  NoDup (concat l).*1.
Proof.
  induction l as [|b l IH]; intros off Hf Hnd; simpl; [constructor|].
  rewrite fmap_app. apply NoDup_app. split; [|split].
  - by apply (Hnd 0%nat).
  - intros k (kv & -> & Hin)%list_elem_of_fmap
             (kv' & Heq & Hin')%list_elem_of_fmap.
    destruct kv as [k v], kv' as [k' v']. simpl in Heq. subst k'.
    apply elem_of_concat in Hin' as (b' & Hb' & Hin').
    apply list_elem_of_lookup in Hb' as [i Hi].
    pose proof (Hf 0%nat b k v eq_refl Hin) as H0.
    pose proof (Hf (S i) b' k v' Hi Hin') as H1. lia.
  - apply (IH (S off)).
    + intros i bucket k v Hi Hin.
      rewrite (Hf (S i) bucket k v Hi Hin). lia.
    + intros i bucket Hi. by apply (Hnd (S i)).
Qed.

Lemma ch_keys_NoDup t : ch_placed t -> ch_nodup t -> NoDup (ch_keys t).
Proof.
  intros Hp Hnd. rewrite ch_keys_concat.
  apply (concat_keys_NoDup
           (fun k => Z.to_nat (mod' (ch_hash t k) (Z.of_nat (length (arr t)))))
           (arr t) 0%nat).
  - intros i bucket k v Hi Hin. by rewrite (Hp i bucket k v Hi Hin).
  - done.
Qed.

(** What a run of calls keeps. *)
Lemma ch_run_keeps ops : ∀ t t',
  (0 < length (arr t))%nat ->
  ch_placed t -> ch_nodup t ->
  ch_run t ops = Some t' ->
  length (arr t') = length (arr t) ∧ ch_hash t' = ch_hash t
  ∧ ch_placed t' ∧ ch_nodup t'.
Proof.
  induction ops as [|[key value|key] ops IH]; intros t t' Hlen Hp Hnd Hrun.
  - simpl in Hrun. injection Hrun as <-. done.
  - simpl in Hrun.
    destruct (ch_insert t key value) as [[b t1]|] eqn:Hins; [|done].
    simpl in Hrun.
    destruct (ch_insert_inv _ _ _ _ _ Hlen Hins) as [Hr _].
    pose proof (ch_rebuilt_length _ _ _ _ Hr) as Hl.
    destruct (IH t1 t') as (Hl' & Hh' & Hp' & Hnd'); [lia | | |done|].
    + by eapply ch_rebuilt_placed.
    + by eapply ch_insert_nodup.
    + destruct Hr as (? & ? & _ & _ & Hh & _).
      split; [congruence|]. split; [congruence|]. done.
  - simpl in Hrun.
    destruct (ch_delete t key) as [[b t1]|] eqn:Hdel; [|done].
    simpl in Hrun.
    destruct (ch_delete_inv _ _ _ _ Hlen Hdel) as [Hr _].
    pose proof (ch_rebuilt_length _ _ _ _ Hr) as Hl.
    destruct (IH t1 t') as (Hl' & Hh' & Hp' & Hnd'); [lia | | |done|].
    + by eapply ch_rebuilt_placed.
    + by eapply ch_delete_nodup.
    + destruct Hr as (? & ? & _ & _ & Hh & _).
      split; [congruence|]. split; [congruence|]. done.
Qed.

Lemma ch_empty_nodup size (h : K -> Z) : ch_nodup (ch_empty (V := V) size h).
Proof.
  intros i bucket Hi. unfold ch_empty in Hi; simpl in Hi.
  apply lookup_replicate in Hi as [-> _]. constructor.
Qed.

(** X1. A chaining table with at least one chain is a dictionary: after
    any calls of [ch_insert] and [ch_delete] on an empty table no call has
    thrown, the number of chains is unchanged, and [ch_lookup] of a key
    returns the value of its last insert if no delete of the key followed
    it, and [undefined] otherwise. *)
Theorem ch_run_is_dictionary (size : nat) (h : K -> Z)
    (ops : list (@ch_op K V)) :
  (1 ≤ size)%nat ->
  ∃ t, ch_run (ch_empty size h) ops = Some t
       ∧ length (arr t) = size
       ∧ ∀ k, ch_lookup t k = Some (ch_live ops (fun _ => None) k).
Proof.
  intros Hsize.
  destruct (ch_run_live ops (ch_empty size h) (fun _ => None))
    as (t & Hrun & Hlen & _ & Hlook).
  - simpl. rewrite length_replicate. lia.
  - apply ch_empty_placed.
  - intros k. apply ch_empty_lookup. lia.
  - exists t. split; [done|]. split; [|done].
    simpl in Hlen. by rewrite length_replicate in Hlen.
Qed.

(** X2. [ch_insert] on a table with at least one chain does not throw;
    it returns [true] exactly when [ch_lookup] found the key before the
    call; afterwards [ch_lookup] returns the new value for the key and what
    it returned before for every other key, and the table has as many
    chains as before. *)
Theorem ch_insert_effect t (key : K) (value : V) :
  (1 ≤ length (arr t))%nat ->
  ∃ b t',
    ch_insert t key value = Some (b, t')
    ∧ (b = true ↔ ∃ v0, ch_lookup t key = Some (Some v0))
    ∧ length (arr t') = length (arr t)
    ∧ ∀ k, ch_lookup t' k
           = if decide (k = key) then Some (Some value) else ch_lookup t k.
Proof.
  intros Hlen.
  destruct (ch_insert_rebuilt t key value ltac:(lia)) as (b & t' & Hins & Hr).
  exists b, t'. split; [done|].
  destruct (ch_insert_inv t key value b t' ltac:(lia) Hins) as [_ Hb].
  split; [done|]. split; [by eapply ch_rebuilt_length|].
  intros k. by apply ch_rebuilt_lookup; [lia|].
Qed.

(** X3. [ch_delete] on a table with at least one chain does not throw; it
    returns [true] exactly when [ch_lookup] found the key before the call;
    afterwards [ch_lookup] returns [undefined] for the key and what it
    returned before for every other key. *)
Theorem ch_delete_effect t (key : K) :
  (1 ≤ length (arr t))%nat ->
  ∃ b t',
    ch_delete t key = Some (b, t')
    ∧ (b = true ↔ ∃ v0, ch_lookup t key = Some (Some v0))
    ∧ length (arr t') = length (arr t)
    ∧ ∀ k, ch_lookup t' k
           = if decide (k = key) then Some None else ch_lookup t k.
Proof.
  intros Hlen.
  destruct (ch_delete_rebuilt t key ltac:(lia)) as (b & t' & Hdel & Hr).
  exists b, t'. split; [done|].
  destruct (ch_delete_inv t key b t' ltac:(lia) Hdel) as [_ Hb].
  split; [done|]. split; [by eapply ch_rebuilt_length|].
  intros k. by apply ch_rebuilt_lookup; [lia|].
Qed.

(** X4. The data invariants of the chaining table: after any calls of
    [ch_insert] and [ch_delete] on an empty table with at least one chain,
    every pair is in the chain of index [mod(hash(key), capacity)], and
    [ch_keys] lists no key twice. *)
Theorem ch_run_invariants (size : nat) (h : K -> Z)
    (ops : list (@ch_op K V)) t :
  (1 ≤ size)%nat ->
  ch_run (ch_empty size h) ops = Some t ->
  (∀ (i : nat) bucket k v,
      arr t !! i = Some bucket -> (k, v) ∈ bucket ->
      Z.to_nat (mod' (h k) (Z.of_nat size)) = i)
  ∧ NoDup (ch_keys t).
Proof.
  intros Hsize Hrun.
  destruct (ch_run_keeps ops (ch_empty size h) t)
    as (Hlen & Hh & Hp & Hnd); [| | |done|].
  - simpl. rewrite length_replicate. lia.
  - apply ch_empty_placed.
  - apply ch_empty_nodup.
  - simpl in Hlen, Hh. rewrite length_replicate in Hlen. split.
    + intros i bucket k v Hi Hin.
      rewrite <- (Hp i bucket k v Hi Hin). by rewrite Hlen, Hh.
    + by apply ch_keys_NoDup.
Qed.

End ChainingMore.

(** * Further properties of the probing table *)

Section ProbingMore.

Context {K V : Type} `{EqDecision K}.
Implicit Types (ht : ProbingHashtable K V) (key : K) (value : V).

Lemma occupied_le (ks : JsArray (Slot K)) : (occupied ks ≤ alength ks)%nat.
Proof.
  unfold occupied. rewrite <- (slots_length ks). apply length_filter.
Qed.

(** *** Values where the keys are *)

Lemma ph_vals_empty size (h : K -> Z) : ph_vals (ph_empty (V := V) size h).
Proof.
  intros i. unfold aget; simpl. rewrite !lookup_empty. split.
  - by intros [? ?].
  - done.
Qed.

Lemma ph_vals_write ht idx key value e :
  ph_vals ht ->
  ph_vals (mkProbing (aset (keys ht) idx (Key key))
             (aset (values ht) idx value) (hash ht) e).
Proof.
  intros Hv i. cbn [keys values]. rewrite !aget_aset.
  case_decide; [|apply Hv]. simpl. split; [done | by eexists].
Qed.

Lemma ph_vals_insert ht key value :
  ph_vals ht -> ph_vals (ph_insert ht key value).2.
Proof.
  intros Hv. unfold ph_insert.
  destruct (probe _ _ _ _); [|done]. cbn zeta.
  repeat case_decide; cbn [snd]; try done; by apply ph_vals_write.
Qed.

Lemma ph_vals_delete ht key : ph_vals ht -> ph_vals (ph_delete ht key).2.
Proof.
  intros Hv. unfold ph_delete.
  destruct (probe _ _ _ _) as [idx|]; [|done].
  destruct (aget (keys ht) idx); [|done].
  intros i. cbn [snd keys values]. rewrite aget_aset.
  unfold aget at 1, aset_undefined; cbn [aprops].
  destruct (decide (idx = i)) as [->|Hne].
  - rewrite lookup_delete_eq. simpl. split; [by intros [? ?] | done].
  - rewrite lookup_delete_ne by done. apply Hv.
Qed.

Lemma ph_ok_empty size (h : K -> Z) : ph_ok (ph_empty (V := V) size h).
Proof. split; [apply ph_wf_empty | apply ph_vals_empty]. Qed.

Lemma ph_ok_insert ht key value :
  hash_fits (alength (keys ht)) (hash ht key) ->
  ph_ok ht -> ph_ok (ph_insert ht key value).2.
Proof.
  intros Hfit (Hwf & Hv). split; [by apply ph_wf_insert|].
  by apply ph_vals_insert.
Qed.

Lemma ph_ok_delete ht key : ph_ok ht -> ph_ok (ph_delete ht key).2.
Proof.
  intros (Hwf & Hv). split; [by apply ph_wf_delete|].
  by apply ph_vals_delete.
Qed.

Lemma ph_reachable_ok size (h : K -> Z) ht :
  (∀ k, hash_fits size (h k)) -> ph_reachable size h ht ->
  ph_ok ht ∧ alength (keys ht) = size ∧ hash ht = h.
Proof.
  intros Hh Hr.
  destruct (ph_reachable_wf size h ht Hh Hr) as (Hwf & Hhash & Hlen & _).
  split; [|done]. split; [done|]. clear Hwf Hhash Hlen.
  induction Hr as [|ht key value Hr IH|ht key Hr IH].
  - apply ph_vals_empty.
  - by apply ph_vals_insert.
  - by apply ph_vals_delete.
Qed.

(** A well-formed table finds its keys. *)
Lemma ph_ok_sound ht : ph_ok ht -> ph_sound ht.
Proof.
  intros (Hwf & Hv). split; [|done]. intros key p. by apply probe_present.
Qed.

(** *** What [ph_lookup] returns *)

Lemma ph_lookup_absent ht key :
  ph_vals ht ->
  (∀ p, aget (keys ht) p ≠ Some (Key key)) ->
  ph_lookup ht key = None.
Proof.
  intros Hv Habs. unfold ph_lookup.
  destruct (probe (keys ht) key (hash ht key) true) as [idx|] eqn:Hp;
    [|done].
  apply probe_Some in Hp as (j & _ & _ & Hstop & _).
  destruct (stops_true_inv _ _ Hstop) as [Hs|Hs]; [|by destruct (Habs idx)].
  destruct (aget (values ht) idx) as [v|] eqn:Hval; [|done].
  pose proof (proj1 (Hv idx) ltac:(by eexists)) as Hk.
  by rewrite Hs in Hk.
Qed.

Lemma ph_lookup_present ht key p :
  ph_sound ht ->
  aget (keys ht) p = Some (Key key) ->
  ph_lookup ht key = aget (values ht) p ∧ is_Some (aget (values ht) p).
Proof.
  intros (Hf & Hv) Hp. split.
  - unfold ph_lookup. by rewrite (Hf key p Hp).
  - apply Hv. by rewrite Hp.
Qed.

Lemma ph_lookup_Some ht key v :
  ph_sound ht ->
  ph_lookup ht key = Some v ->
  ∃ p, aget (keys ht) p = Some (Key key) ∧ aget (values ht) p = Some v.
Proof.
  intros (Hf & Hv) Hl. unfold ph_lookup in Hl.
  destruct (probe (keys ht) key (hash ht key) true) as [idx|] eqn:Hp;
    [|done].
  exists idx. split; [|done].
  apply probe_Some in Hp as (j & _ & _ & Hstop & _).
  destruct (stops_true_inv _ _ Hstop) as [Hs|Hs]; [|done].
  pose proof (proj1 (Hv idx) ltac:(by eexists)) as Hk.
  by rewrite Hs in Hk.
Qed.

Lemma ph_lookup_None ht key :
  ph_sound ht ->
  ph_lookup ht key = None ->
  ∀ p, aget (keys ht) p ≠ Some (Key key).
Proof.
  intros Hok Hl p Hp.
  destruct (ph_lookup_present ht key p Hok Hp) as [Heq [v Hv]].
  congruence.
Qed.

(** Tables that hold a key in the same slots with the same values return
    the same for it. *)
Lemma ph_lookup_frame ht ht' key :
  ph_sound ht -> ph_sound ht' ->
  (∀ p, aget (keys ht') p = Some (Key key)
        ↔ aget (keys ht) p = Some (Key key)) ->
  (∀ p, aget (keys ht) p = Some (Key key) ->
        aget (values ht') p = aget (values ht) p) ->
  ph_lookup ht' key = ph_lookup ht key.
Proof.
  intros Hok Hok' Hkeys Hvals.
  destruct (ph_lookup ht key) as [v|] eqn:Hl.
  - destruct (ph_lookup_Some ht key v Hok Hl) as (p & Hp & Hv).
    destruct (ph_lookup_present ht' key p Hok' (proj2 (Hkeys p) Hp))
      as [-> _].
    rewrite Hvals by done. done.
  - apply ph_lookup_absent; [apply Hok'|].
    intros p Hp%Hkeys. by apply (ph_lookup_None ht key Hok Hl p).
Qed.

(** *** One call *)

Lemma ph_insert_absent ht key value :
  ph_ok ht -> hash_fits (alength (keys ht)) (hash ht key) ->
  (∀ p, aget (keys ht) p ≠ Some (Key key)) ->
  entries ht ≠ Z.of_nat (alength (keys ht)) ->
  ∃ idx, 0 ≤ idx < Z.of_nat (alength (keys ht))
         ∧ is_key (aget (keys ht) idx) = false
         ∧ ph_insert ht key value
           = (true,
              mkProbing (aset (keys ht) idx (Key key))
                (aset (values ht) idx value) (hash ht) (entries ht + 1)).
Proof.
  intros (Hwf & Hv) Hfit Habs Hroom.
  pose proof (occupied_le (keys ht)) as Hle.
  pose proof (wf_count _ Hwf) as Hc.
  destruct (occupied_short (keys ht) ltac:(lia)) as (p & Hpr & Hnk).
  destruct (probe (keys ht) key (hash ht key) false) as [idx0|] eqn:Hpr1.
  2:{ exfalso.
      destruct (pos_cover (keys ht) (hash ht key) p Hfit Hpr)
        as (jp & Hjp & Hpos).
      pose proof (proj1 (probe_None _ _ _ _) Hpr1 jp Hjp) as Hf.
      rewrite Hpos in Hf.
      by destruct (aget (keys ht) p) as [[|k]|]. }
  destruct (ph_insert_settled ht key value idx0 Hfit Hpr1)
    as (j & (Hj & _ & Hslot) & _ & ->).
  exists (pos (keys ht) (hash ht key) j).
  split; [apply pos_range; [apply (hash_fits_nonneg _ _ Hfit) | lia | lia]|].
  split.
  - destruct Hslot as [-> | [Hs | (-> & _)]]; [done | | done].
    by destruct (Habs _ Hs).
  - cbn zeta. rewrite decide_False by apply Habs.
    by rewrite decide_False.
Qed.

(** The effect of [ph_insert] on a table in good order, for a key whose
    hash fits. *)
Lemma ph_insert_effect_ok ht key value :
  ph_ok ht -> hash_fits (alength (keys ht)) (hash ht key) ->
  ((ph_insert ht key value).1 = true
   ↔ is_Some (ph_lookup ht key) ∨ entries ht < Z.of_nat (alength (keys ht)))
  ∧ ((ph_insert ht key value).1 = false -> (ph_insert ht key value).2 = ht)
  ∧ ((ph_insert ht key value).1 = true ->
     ∀ k, ph_lookup (ph_insert ht key value).2 k
          = if decide (k = key) then Some value else ph_lookup ht k)
  ∧ entries (ph_insert ht key value).2
    = entries ht
      + (if (ph_insert ht key value).1
         then match ph_lookup ht key with Some _ => 0 | None => 1 end
         else 0).
Proof.
  intros Hok Hfit.
  pose proof (ph_ok_sound _ (ph_ok_insert ht key value Hfit Hok)) as Hok'.
  pose proof Hok as (Hwf & Hv).
  pose proof (ph_ok_sound _ Hok) as Hs.
  assert (∀ ht', ph_insert ht key value = (true, ht') ->
            ∀ k, (k = key -> ph_lookup ht' k = Some value)) as Hsame.
  { intros ht' Hins k ->. by apply (ph_insert_lookup ht key value ht'). }
  destruct (ph_lookup ht key) as [v0|] eqn:Hl.
  - destruct (ph_lookup_Some ht key v0 Hs Hl) as (p & Hp & Hval).
    pose proof (ph_insert_present ht key value p Hwf Hfit Hp) as Hins.
    rewrite Hins in *. cbn [fst snd entries] in *.
    split; [split; [by left | done]|]. split; [done|].
    split; [|lia]. intros _ k.
    case_decide as Hk; [by apply (Hsame _ eq_refl)|].
    apply ph_lookup_frame; [done | done | done |].
    intros q Hq. cbn [values]. apply aget_aset_ne. intros ->. congruence.
  - pose proof (ph_lookup_None ht key Hs Hl) as Habs.
    destruct (decide (entries ht = Z.of_nat (alength (keys ht))))
      as [Hfull|Hroom].
    + rewrite (ph_insert_rejected ht key value Habs Hfull). cbn [fst snd].
      split; [|split; [done|split; [done|lia]]].
      split; [done|]. intros [[? ?]|Hlt]; [done | lia].
    + destruct (ph_insert_absent ht key value Hok Hfit Habs Hroom)
        as (idx & Hidx & Hnk & Hins).
      rewrite Hins in *. cbn [fst snd entries] in *.
      pose proof (occupied_le (keys ht)) as Hle.
      pose proof (wf_count _ Hwf) as Hc.
      split; [split; [intros _; right; lia | done]|]. split; [done|].
      split; [|lia]. intros _ k.
      case_decide as Hk; [by apply (Hsame _ eq_refl)|].
      apply ph_lookup_frame; [done | done | |].
      * intros q. cbn [keys]. rewrite aget_aset. case_decide as Hq; [|done].
        subst q. split; [congruence|]. intros Hq. by rewrite Hq in Hnk.
      * intros q Hq. cbn [values]. apply aget_aset_ne. intros ->.
        by rewrite Hq in Hnk.
Qed.

(** The effect of [ph_delete] on a table in good order. *)
Lemma ph_delete_effect_ok ht key :
  ph_ok ht ->
  (ph_delete ht key).1 = ph_lookup ht key
  ∧ (∀ k, ph_lookup (ph_delete ht key).2 k
          = if decide (k = key) then None else ph_lookup ht k)
  ∧ entries (ph_delete ht key).2
    = entries ht - match ph_lookup ht key with Some _ => 1 | None => 0 end.
Proof.
  intros Hok.
  pose proof (ph_ok_sound _ (ph_ok_delete ht key Hok)) as Hok'.
  pose proof Hok as (Hwf & Hv).
  pose proof (ph_ok_sound _ Hok) as Hs.
  destruct (ph_lookup ht key) as [v0|] eqn:Hl.
  - destruct (ph_lookup_Some ht key v0 Hs Hl) as (p & Hp & Hval).
    pose proof (probe_present ht key p Hwf Hp) as Hpr.
    rewrite (ph_delete_found ht key p Hpr Hp) in *.
    cbn [fst snd entries] in *. split; [done|]. split; [|done].
    intros k. case_decide as Hk.
    + subst k. apply ph_lookup_absent; [apply Hok'|].
      intros q. cbn [keys]. rewrite aget_aset. case_decide; [done|].
      intros Hq. by pose proof (wf_uniq _ Hwf _ _ _ Hp Hq).
    + apply ph_lookup_frame; [done | done | |].
      * intros q. cbn [keys]. rewrite aget_aset. case_decide as Hq; [|done].
        subst q. split; [done | congruence].
      * intros q Hq. cbn [values]. unfold aget, aset_undefined; cbn [aprops].
        apply lookup_delete_ne. intros ->. congruence.
  - pose proof (ph_lookup_None ht key Hs Hl) as Habs.
    destruct (ph_delete_cases ht key) as [Hd | (idx & _ & Hget)];
      [|by destruct (Habs idx)].
    rewrite Hd. cbn [fst snd]. split; [done|]. split; [|lia].
    intros k. by case_decide; subst.
Qed.

(** X5. [ph_insert] in a reachable table, the hash values fitting (none is
    negative and [hash(k) + capacity - 1] is at most [2^53]), returns [true]
    exactly when the key is in the table or [entries] is below the
    capacity.  When it returns [false] the table is as before.  When it
    returns [true], [ph_lookup] returns the new value for the key and what
    it returned before for every other key, and [entries] has grown by one
    exactly when the key was not in the table. *)
Theorem ph_insert_effect (size : nat) (h : K -> Z) ht key value :
  (∀ k, hash_fits size (h k)) ->
  ph_reachable size h ht ->
  ((ph_insert ht key value).1 = true
   ↔ is_Some (ph_lookup ht key) ∨ entries ht < Z.of_nat size)
  ∧ ((ph_insert ht key value).1 = false -> (ph_insert ht key value).2 = ht)
  ∧ ((ph_insert ht key value).1 = true ->
     ∀ k, ph_lookup (ph_insert ht key value).2 k
          = if decide (k = key) then Some value else ph_lookup ht k)
  ∧ entries (ph_insert ht key value).2
    = entries ht
      + (if (ph_insert ht key value).1
         then match ph_lookup ht key with Some _ => 0 | None => 1 end
         else 0).
Proof.
  intros Hh Hr.
  destruct (ph_reachable_ok size h ht Hh Hr) as (Hok & <- & Hhash).
  apply ph_insert_effect_ok; [done|]. rewrite Hhash. apply Hh.
Qed.

(** X6. [ph_delete] in a reachable table, the hash values fitting (none is
    negative and [hash(k) + capacity - 1] is at most [2^53]), returns what
    [ph_lookup] returns for the key; afterwards [ph_lookup] returns
    [undefined] for the key and what it returned before for every other
    key, and [entries] is one less exactly when the key was in the table. *)
Theorem ph_delete_effect (size : nat) (h : K -> Z) ht key :
  (∀ k, hash_fits size (h k)) ->
  ph_reachable size h ht ->
  (ph_delete ht key).1 = ph_lookup ht key
  ∧ (∀ k, ph_lookup (ph_delete ht key).2 k
          = if decide (k = key) then None else ph_lookup ht k)
  ∧ entries (ph_delete ht key).2
    = entries ht - match ph_lookup ht key with Some _ => 1 | None => 0 end.
Proof.
  intros Hh Hr.
  destruct (ph_reachable_ok size h ht Hh Hr) as (Hok & _).
  by apply ph_delete_effect_ok.
Qed.

(** *** The keys *)

Lemma elem_of_filterNulls (l : list (option (Slot K))) k :
  k ∈ filterNulls l ↔ Some (Key k) ∈ l.
Proof.
  induction l as [|x l IH]; simpl.
  - by rewrite !elem_of_nil.
  - rewrite (elem_of_cons l). destruct x as [[|k']|].
    + rewrite IH. split; [by right | by intros [?|?]].
    + rewrite elem_of_cons, IH. split.
      * intros [->|?]; [by left | by right].
      * intros [[= ->]|?]; [by left | by right].
    + rewrite IH. split; [by right | by intros [?|?]].
Qed.

Lemma filterNulls_length (l : list (option (Slot K))) :
  length (filterNulls l) = length (filter (fun s => is_key s) l).
Proof.
  induction l as [|x l IH]; [done|].
  rewrite filter_is_key_cons. unfold weight.
  destruct x as [[|k]|]; simpl; by rewrite IH.
Qed.

Lemma filterNulls_NoDup (l : list (option (Slot K))) :
  (∀ (i j : nat) k,
      l !! i = Some (Some (Key k)) -> l !! j = Some (Some (Key k)) -> i = j) ->
  NoDup (filterNulls l).
Proof.
  induction l as [|x l IH]; intros Hu; simpl; [constructor|].
  assert (NoDup (filterNulls l)) as Hnd.
  { apply IH. intros i j k Hi Hj.
    by pose proof (Hu (S i) (S j) k Hi Hj) as [= ->]. }
  destruct x as [[|k]|]; [done | | done].
  apply NoDup_cons. split; [|done].
  intros Hin%elem_of_filterNulls. apply list_elem_of_lookup in Hin as [j Hj].
  by pose proof (Hu 0%nat (S j) k eq_refl Hj).
Qed.

Lemma ph_keys_slots ht : ph_keys ht = filterNulls (slots (keys ht)).
Proof. unfold ph_keys, slots. by rewrite build_list_fmap. Qed.

Lemma elem_of_ph_keys ht k :
  ph_wf ht ->
  k ∈ ph_keys ht ↔ ∃ p, aget (keys ht) p = Some (Key k).
Proof.
  intros Hwf. rewrite ph_keys_slots, elem_of_filterNulls. split.
  - intros [i Hi]%list_elem_of_lookup.
    pose proof (lookup_lt_Some _ _ _ Hi) as Hlt.
    rewrite slots_length in Hlt. rewrite slots_lookup in Hi by done.
    exists (Z.of_nat i). congruence.
  - intros [p Hp].
    assert (0 ≤ p < Z.of_nat (alength (keys ht))) as Hr
      by (apply (wf_dom _ Hwf); congruence).
    apply list_elem_of_lookup. exists (Z.to_nat p).
    rewrite slots_lookup by lia. rewrite Z2Nat.id by lia. by rewrite Hp.
Qed.

Lemma ph_keys_facts ht :
  ph_ok ht ->
  (∀ k, k ∈ ph_keys ht ↔ is_Some (ph_lookup ht k))
  ∧ NoDup (ph_keys ht)
  ∧ entries ht = Z.of_nat (length (ph_keys ht)).
Proof.
  intros Hok. pose proof Hok as (Hwf & Hv).
  pose proof (ph_ok_sound _ Hok) as Hs. split; [|split].
  - intros k. rewrite (elem_of_ph_keys ht k Hwf). split.
    + intros [p Hp].
      destruct (ph_lookup_present ht k p Hs Hp) as [-> Hsome]. done.
    + intros [v Hl].
      destruct (ph_lookup_Some ht k v Hs Hl) as (p & Hp & _). by exists p.
  - rewrite ph_keys_slots. apply filterNulls_NoDup. intros i j k Hi Hj.
    pose proof (lookup_lt_Some _ _ _ Hi) as Hli.
    pose proof (lookup_lt_Some _ _ _ Hj) as Hlj.
    rewrite slots_length in Hli, Hlj.
    rewrite slots_lookup in Hi, Hj by done.
    assert (Z.of_nat i = Z.of_nat j) as Heq; [|lia].
    apply (wf_uniq _ Hwf _ _ k); congruence.
  - rewrite ph_keys_slots, filterNulls_length. apply (wf_count _ Hwf).
Qed.

(** *** The dictionary of the reference model *)

Lemma bd_lookup_None (m : list (K * V)) k : bd_lookup m k = None ↔ k ∉ m.*1.
Proof.
  induction m as [|[k0 v0] m IH]; simpl.
  - split; [intros _; apply not_elem_of_nil | done].
  - rewrite not_elem_of_cons. case_decide as Hk.
    + split; [done | intros [? _]; congruence].
    + rewrite IH. split; [intros ?; split; [congruence | done] | tauto].
Qed.

Lemma bd_remove_absent (m : list (K * V)) k : k ∉ m.*1 -> bd_remove m k = m.
Proof.
  induction m as [|[k0 v0] m IH]; simpl; [done|].
  rewrite not_elem_of_cons. intros [Hne Hin].
  rewrite decide_False by congruence. by rewrite IH.
Qed.

Lemma bd_remove_keys (m : list (K * V)) k x :
  x ∈ (bd_remove m k).*1 ↔ x ∈ m.*1 ∧ x ≠ k.
Proof.
  induction m as [|[k0 v0] m IH]; simpl.
  - rewrite elem_of_nil. tauto.
  - case_decide as Hk; simpl; rewrite !elem_of_cons, IH.
    + subst k0. split; [tauto | intros [[->|?] ?]; [done | tauto]].
    + split; [intros [->|[? ?]]; split; auto; congruence | tauto].
Qed.

Lemma bd_remove_NoDup (m : list (K * V)) k :
  NoDup m.*1 -> NoDup (bd_remove m k).*1.
Proof.
  induction m as [|[k0 v0] m IH]; simpl; [done|].
  rewrite NoDup_cons. intros [Hk Hnd].
  case_decide; [by apply IH|]. simpl. apply NoDup_cons.
  split; [|by apply IH]. rewrite bd_remove_keys. tauto.
Qed.

Lemma bd_lookup_remove (m : list (K * V)) k k' :
  bd_lookup (bd_remove m k) k'
  = if decide (k' = k) then None else bd_lookup m k'.
Proof.
  induction m as [|[k0 v0] m IH]; simpl; [by case_decide|].
  destruct (decide (k0 = k)) as [->|Hk]; simpl.
  - rewrite IH. case_decide as Hk'; [done|].
    by rewrite decide_False by congruence.
  - rewrite IH. destruct (decide (k0 = k')) as [->|Hk0].
    + by rewrite decide_False.
    + done.
Qed.

Lemma bd_remove_length (m : list (K * V)) k :
  NoDup m.*1 ->
  (length (bd_remove m k)
   + match bd_lookup m k with Some _ => 1 | None => 0 end
   = length m)%nat.
Proof.
  induction m as [|[k0 v0] m IH]; simpl; [done|].
  rewrite NoDup_cons. intros [Hk Hnd].
  destruct (decide (k0 = k)) as [->|Hne]; simpl.
  - rewrite bd_remove_absent by done. lia.
  - specialize (IH Hnd). lia.
Qed.

(** One call on a table and on a dictionary that agree. *)
Lemma ph_step_models ht (m : list (K * V)) (op : @ph_op K V) :
  (∀ k, hash_fits (alength (keys ht)) (hash ht k)) ->
  ph_ok ht -> ph_models ht m ->
  (ph_run ht [op]).1 = [(bd_step (alength (keys ht)) m op).1]
  ∧ ph_ok (ph_run ht [op]).2
  ∧ ph_models (ph_run ht [op]).2 (bd_step (alength (keys ht)) m op).2
  ∧ alength (keys (ph_run ht [op]).2) = alength (keys ht)
  ∧ hash (ph_run ht [op]).2 = hash ht.
Proof.
  intros Hfit Hok (Hnd & Hcount & Hlook). pose proof Hok as (Hwf & Hv).
  destruct op as [key value|key|key]; simpl.
  - destruct (ph_insert_effect_ok ht key value Hok (Hfit key))
      as (Hres & Hfail & Hsucc & Hent).
    pose proof (ph_ok_insert ht key value (Hfit key) Hok) as Hok'.
    destruct (ph_insert_alength ht key value
                (hash_fits_nonneg _ _ (Hfit key))) as [Hlen _].
    pose proof (ph_insert_hash ht key value) as Hhash.
    destruct (ph_insert ht key value) as [b ht'] eqn:Hins.
    cbn [fst snd] in *.
    pose proof (bd_remove_length m key Hnd) as Hrl.
    rewrite <- Hlook in Hrl. rewrite Hlook in Hres.
    destruct (decide (is_Some (bd_lookup m key) ∨ (length m < alength (keys ht))%nat))
      as [Hyes|Hno]; cbn [fst snd].
    + assert (b = true) as -> by (apply Hres; destruct Hyes; [by left | right; lia]).
      split; [done|]. split; [done|]. split; [|done].
      split; [|split].
      * rewrite fmap_cons. apply NoDup_cons. split.
        -- rewrite bd_remove_keys. tauto.
        -- by apply bd_remove_NoDup.
      * rewrite Hent. simpl. destruct (ph_lookup ht key); lia.
      * intros k. rewrite (Hsucc eq_refl k). simpl.
        destruct (decide (k = key)) as [->|Hk].
        -- by rewrite decide_True.
        -- rewrite decide_False by congruence.
           rewrite bd_lookup_remove, decide_False by done. apply Hlook.
    + assert (b = false) as ->.
      { destruct b; [|done]. exfalso. apply Hno.
        destruct (proj1 Hres eq_refl) as [?|?]; [by left | right; lia]. }
      rewrite (Hfail eq_refl). done.
  - destruct (ph_delete_effect_ok ht key Hok) as (Hres & Hafter & Hent).
    pose proof (ph_ok_delete ht key Hok) as Hok'.
    destruct (ph_delete_alength ht key (hash_fits_nonneg _ _ (Hfit key)))
      as [Hlen _].
    pose proof (ph_delete_hash ht key) as Hhash.
    destruct (ph_delete ht key) as [r ht'] eqn:Hdel.
    cbn [fst snd] in *.
    pose proof (bd_remove_length m key Hnd) as Hrl.
    rewrite <- Hlook in Hrl.
    split; [by rewrite Hres, Hlook|]. split; [done|]. split; [|done].
    split; [by apply bd_remove_NoDup|]. split.
    + rewrite Hent. destruct (ph_lookup ht key); lia.
    + intros k. rewrite Hafter, bd_lookup_remove.
      case_decide; [done | apply Hlook].
  - split; [by rewrite Hlook|]. done.
Qed.

Lemma ph_run_cons ht (op : @ph_op K V) ops :
  ph_run ht (op :: ops)
  = ((ph_run ht [op]).1 ++ (ph_run (ph_run ht [op]).2 ops).1,
     (ph_run (ph_run ht [op]).2 ops).2).
Proof.
  destruct op as [key value|key|key]; simpl.
  - destruct (ph_insert ht key value) as [b ht1]. cbn [fst snd].
    by destruct (ph_run ht1 ops).
  - destruct (ph_delete ht key) as [r ht1]. cbn [fst snd].
    by destruct (ph_run ht1 ops).
  - by destruct (ph_run ht ops).
Qed.

Lemma ph_run_models ops : ∀ ht (m : list (K * V)),
  (∀ k, hash_fits (alength (keys ht)) (hash ht k)) ->
  ph_ok ht -> ph_models ht m ->
  (ph_run ht ops).1 = (bd_run (alength (keys ht)) m ops).1
  ∧ ph_ok (ph_run ht ops).2
  ∧ ph_models (ph_run ht ops).2 (bd_run (alength (keys ht)) m ops).2.
Proof.
  induction ops as [|op ops IH]; intros ht m Hfit Hok Hm; [done|].
  destruct (ph_step_models ht m op Hfit Hok Hm)
    as (Hr & Hok1 & Hm1 & Hlen & Hhash).
  destruct (IH (ph_run ht [op]).2 (bd_step (alength (keys ht)) m op).2)
    as (Hrs & Hok2 & Hm2); [by rewrite Hlen, Hhash | done | done |].
  rewrite ph_run_cons. cbn [fst snd]. simpl bd_run.
  rewrite Hlen in Hrs, Hm2.
  destruct (bd_step (alength (keys ht)) m op) as [r m1]. cbn [fst snd] in *.
  destruct (bd_run (alength (keys ht)) m1 ops) as [rs m2]. cbn [fst snd] in *.
  rewrite Hr, Hrs. done.
Qed.

End ProbingMore.

Section ProbingMoreClaims.

Context {K V : Type} `{EqDecision K}.
Implicit Types (ht : ProbingHashtable K V) (key : K) (value : V).

(** X7. In a reachable probing table, the hash values fitting (none is
    negative and [hash(k) + capacity - 1] is at most [2^53]), [ph_keys] lists
    exactly the keys that [ph_lookup] finds, each once, and [entries] is
    the length of that list. *)
Theorem ph_keys_are_looked_up (size : nat) (h : K -> Z) ht :
  (∀ k, hash_fits size (h k)) ->
  ph_reachable size h ht ->
  (∀ k, k ∈ ph_keys ht ↔ is_Some (ph_lookup ht k))
  ∧ NoDup (ph_keys ht)
  ∧ entries ht = Z.of_nat (length (ph_keys ht)).
Proof.
  intros Hh Hr. destruct (ph_reachable_ok size h ht Hh Hr) as (Hok & _).
  by apply ph_keys_facts.
Qed.

(** X8. A probing table whose hash values fit (none is negative and
    [hash(k) + capacity - 1] is at most [2^53]) is a dictionary with room for
    [capacity] keys: on an empty table, any calls of
    [ph_insert], [ph_delete] and [ph_lookup] return what the same calls
    return on such a dictionary (an insert fails exactly when the key is
    new and [capacity] keys are bound), and afterwards [ph_lookup] agrees
    with the dictionary on every key and [entries] is its number of keys. *)
Theorem ph_run_is_bounded_dictionary (size : nat) (h : K -> Z)
    (ops : list (@ph_op K V)) :
  (∀ k, hash_fits size (h k)) ->
  (ph_run (ph_empty size h) ops).1 = (bd_run size [] ops).1
  ∧ NoDup (bd_run size [] ops).2.*1
  ∧ entries (ph_run (ph_empty size h) ops).2
    = Z.of_nat (length (bd_run size [] ops).2)
  ∧ ∀ k, ph_lookup (ph_run (ph_empty size h) ops).2 k
         = bd_lookup (bd_run size [] ops).2 k.
Proof.
  intros Hh.
  destruct (ph_run_models ops (ph_empty size h) [])
    as (Hres & _ & Hm).
  - done.
  - apply ph_ok_empty.
  - split; [constructor|]. split; [done|].
    intros k. apply ph_lookup_absent; [apply ph_vals_empty|].
    intros p. unfold aget; simpl. by rewrite lookup_empty.
  - done.
Qed.

(** X9. In an empty probing table [ph_lookup] returns [undefined] and
    [ph_delete] returns [undefined] and changes nothing, for every key,
    every capacity (0 too) and every hash function, negative values
    included. *)
Theorem ph_empty_has_no_key (size : nat) (h : K -> Z) key :
  ph_lookup (ph_empty (V := V) size h) key = None
  ∧ ph_delete (ph_empty (V := V) size h) key = (None, ph_empty size h)
  ∧ ph_keys (ph_empty (V := V) size h) = [].
Proof.
  assert (∀ p, aget (keys (ph_empty (V := V) size h)) p ≠ Some (Key key))
    as Habs.
  { intros p. unfold aget; simpl. by rewrite lookup_empty. }
  split; [|split].
  - apply ph_lookup_absent; [apply ph_vals_empty | done].
  - destruct (ph_delete_cases (ph_empty (V := V) size h) key)
      as [Hd | (idx & _ & Hget)]; [done | by destruct (Habs idx)].
  - apply elem_of_nil_inv. intros k.
    rewrite ph_keys_slots, elem_of_filterNulls.
    intros [i Hi]%list_elem_of_lookup.
    pose proof (lookup_lt_Some _ _ _ Hi) as Hlt.
    rewrite slots_length in Hlt. rewrite slots_lookup in Hi by done.
    unfold aget in Hi; simpl in Hi. by rewrite lookup_empty in Hi.
Qed.

(** X10. A delete makes room: in a reachable table, the hash values
    fitting (none is negative and [hash(k) + capacity - 1] is at most
    [2^53]), after [ph_delete] of a key that [ph_lookup] finds,
    [ph_insert] of any key returns [true] and [ph_lookup] then returns the
    inserted value. *)
Theorem ph_delete_makes_room (size : nat) (h : K -> Z) ht key key2 value :
  (∀ k, hash_fits size (h k)) ->
  ph_reachable size h ht ->
  is_Some (ph_lookup ht key) ->
  (ph_insert (ph_delete ht key).2 key2 value).1 = true
  ∧ ph_lookup (ph_insert (ph_delete ht key).2 key2 value).2 key2
    = Some value.
Proof.
  intros Hh Hr [v0 Hl].
  destruct (ph_reachable_ok size h ht Hh Hr) as (Hok & Hlen & Hhash).
  pose proof Hok as (Hwf & _).
  destruct (ph_delete_effect_ok ht key Hok) as (_ & _ & Hent).
  rewrite Hl in Hent.
  pose proof (ph_ok_delete ht key Hok) as Hok1.
  destruct (ph_delete_alength ht key) as [Hlen1 _].
  { rewrite Hhash. apply (hash_fits_nonneg size), Hh. }
  destruct (ph_insert_effect_ok (ph_delete ht key).2 key2 value Hok1)
    as (Hres & _ & Hsucc & _).
  { rewrite ph_delete_hash, Hlen1, Hhash, Hlen. apply Hh. }
  pose proof (occupied_le (keys ht)) as Hle.
  pose proof (wf_count _ Hwf) as Hc.
  assert ((ph_insert (ph_delete ht key).2 key2 value).1 = true) as Hb.
  { apply Hres. right. rewrite Hent, Hlen1. lia. }
  split; [done|]. rewrite (Hsucc Hb key2). by rewrite decide_True.
Qed.

(** X11. A key with a negative hash is kept outside of the array: if
    [hash(key) % capacity] is negative, [ph_insert] into the empty table
    returns [true] and counts the key in [entries], and [ph_lookup] finds
    it, but it is in no slot of the array: [ph_keys] does not list it. *)
Theorem ph_negative_hash_outside_array (size : nat) (h : K -> Z) key value :
  (1 ≤ size)%nat ->
  h key < 0 ->
  Z.rem (h key) (Z.of_nat size) ≠ 0 ->
  (ph_insert (ph_empty size h) key value).1 = true
  ∧ entries (ph_insert (ph_empty size h) key value).2 = 1
  ∧ ph_lookup (ph_insert (ph_empty size h) key value).2 key = Some value
  ∧ ph_keys (ph_insert (ph_empty size h) key value).2 = []
  ∧ alength (keys (ph_insert (ph_empty size h) key value).2) = size.
Proof.
  intros Hsize Hneg Hrem.
  set (idx := Z.rem (h key) (Z.of_nat size)).
  assert (idx < 0) as Hidx.
  { pose proof (Z.rem_bound_pos (- h key) (Z.of_nat size)
                  ltac:(lia) ltac:(lia)) as Hb.
    rewrite Z.rem_opp_l' in Hb. fold idx in Hb. unfold idx in *. lia. }
  assert (∀ ks : JsArray (Slot K), alength ks = size -> pos ks (h key) 0 = idx)
    as Hpos.
  { intros ks Hl. unfold pos. by rewrite Hl, js_add_0_r. }
  assert (probe (keys (ph_empty (V := V) size h)) key (h key) false = Some idx)
    as Hp.
  { apply probe_Some. exists 0. cbn [keys ph_empty].
    rewrite (Hpos (new_Array size) eq_refl). cbn [alength new_Array].
    split; [lia|]. split; [done|]. split; [|intros; lia].
    unfold aget; simpl. by rewrite lookup_empty. }
  assert (ph_insert (ph_empty size h) key value
          = (true,
             mkProbing (aset (new_Array size) idx (Key key))
               (aset (new_Array size) idx value) h 1)) as Hins.
  { assert (∀ i, aget (new_Array (A := Slot K) size) i = None) as Hnone.
    { intros i. unfold aget; simpl. apply lookup_empty. }
    assert (resolve (new_Array size) key idx = idx) as Hres.
    { unfold resolve. by rewrite Hnone. }
    unfold ph_insert. cbn [hash keys values entries ph_empty] in *.
    rewrite Hp. cbn zeta. rewrite Hres, Hnone.
    rewrite decide_False by done. cbn [alength new_Array].
    by rewrite decide_False by lia. }
  rewrite Hins. cbn [fst snd entries keys values hash].
  assert (alength (aset (new_Array (A := Slot K) size) idx (Key key)) = size)
    as Hlen.
  { unfold aset, grown; simpl. by rewrite decide_False by lia. }
  split; [done|]. split; [done|]. split; [|split; [|done]].
  - unfold ph_lookup. cbn [hash keys values].
    assert (probe (aset (new_Array size) idx (Key key)) key (h key) true
            = Some idx) as ->.
    { apply probe_Some. exists 0. rewrite (Hpos _ Hlen), Hlen.
      split; [lia|]. split; [done|]. split; [|intros; lia].
      rewrite aget_aset_eq. simpl. by apply bool_decide_eq_true. }
    apply aget_aset_eq.
  - apply elem_of_nil_inv. intros k.
    rewrite ph_keys_slots, elem_of_filterNulls. cbn [keys].
    intros [i Hi]%list_elem_of_lookup.
    pose proof (lookup_lt_Some _ _ _ Hi) as Hlt.
    rewrite slots_length in Hlt. rewrite slots_lookup in Hi by done.
    rewrite aget_aset_ne in Hi by lia.
    unfold aget in Hi; simpl in Hi. by rewrite lookup_empty in Hi.
Qed.

End ProbingMoreClaims.

Lemma ch_run_is_dictionary_witness :
  ∃ t, ch_run (ch_empty 4 hash_id)
         [ChInsert 5 "a"; ChInsert 9 "b"; ChDelete 5] = Some t
       ∧ length (arr t) = 4%nat
       ∧ ∀ k, ch_lookup t k
              = Some (ch_live [ChInsert 5 "a"; ChInsert 9 "b"; ChDelete 5]
                        (fun _ => None) k).
Proof.
  apply (ch_run_is_dictionary 4 hash_id
           [ChInsert 5 "a"; ChInsert 9 "b"; ChDelete 5]).
  lia.
Defined.

Lemma ch_insert_effect_witness :
  ∃ b t',
    ch_insert ch_two 5 "c" = Some (b, t')
    ∧ (b = true ↔ ∃ v0, ch_lookup ch_two 5 = Some (Some v0))
    ∧ length (arr t') = length (arr ch_two)
    ∧ ∀ k, ch_lookup t' k
           = if decide (k = 5) then Some (Some "c") else ch_lookup ch_two k.
Proof.
  apply (ch_insert_effect ch_two 5 "c"). simpl. lia.
Defined.

Lemma ch_delete_effect_witness :
  ∃ b t',
    ch_delete ch_two 5 = Some (b, t')
    ∧ (b = true ↔ ∃ v0, ch_lookup ch_two 5 = Some (Some v0))
    ∧ length (arr t') = length (arr ch_two)
    ∧ ∀ k, ch_lookup t' k
           = if decide (k = 5) then Some None else ch_lookup ch_two k.
Proof.
  apply (ch_delete_effect ch_two 5). simpl. lia.
Defined.

Lemma ch_run_invariants_witness :
  (∀ (i : nat) bucket k (v : string),
      arr ch_two !! i = Some bucket -> (k, v) ∈ bucket ->
      Z.to_nat (mod' (hash_id k) (Z.of_nat 4)) = i)
  ∧ NoDup (ch_keys ch_two).
Proof.
  apply (ch_run_invariants 4 hash_id [ChInsert 5 "a"; ChInsert 9 "b"] ch_two).
  - lia.
  - vm_compute. reflexivity.
Defined.

Lemma ph_insert_effect_witness :
  ((ph_insert ph_low 7%nat "q").1 = true
   ↔ is_Some (ph_lookup ph_low 7%nat) ∨ entries ph_low < Z.of_nat 3)
  ∧ ((ph_insert ph_low 7%nat "q").1 = false ->
     (ph_insert ph_low 7%nat "q").2 = ph_low)
  ∧ ((ph_insert ph_low 7%nat "q").1 = true ->
     ∀ k, ph_lookup (ph_insert ph_low 7%nat "q").2 k
          = if decide (k = 7%nat) then Some "q" else ph_lookup ph_low k)
  ∧ entries (ph_insert ph_low 7%nat "q").2
    = entries ph_low
      + (if (ph_insert ph_low 7%nat "q").1
         then match ph_lookup ph_low 7%nat with Some _ => 0 | None => 1 end
         else 0).
Proof.
  apply (ph_insert_effect 3 hash_low ph_low 7%nat "q").
  - apply hash_low_fits.
  - apply ph_low_reachable.
Defined.

Lemma ph_delete_effect_witness :
  (ph_delete ph_low 3%nat).1 = ph_lookup ph_low 3%nat
  ∧ (∀ k, ph_lookup (ph_delete ph_low 3%nat).2 k
          = if decide (k = 3%nat) then None else ph_lookup ph_low k)
  ∧ entries (ph_delete ph_low 3%nat).2
    = entries ph_low
      - match ph_lookup ph_low 3%nat with Some _ => 1 | None => 0 end.
Proof.
  apply (ph_delete_effect 3 hash_low ph_low 3%nat).
  - apply hash_low_fits.
  - apply ph_low_reachable.
Defined.

Lemma ph_keys_are_looked_up_witness :
  (∀ k, k ∈ ph_keys ph_low ↔ is_Some (ph_lookup ph_low k))
  ∧ NoDup (ph_keys ph_low)
  ∧ entries ph_low = Z.of_nat (length (ph_keys ph_low)).
Proof.
  apply (ph_keys_are_looked_up 3 hash_low ph_low).
  - apply hash_low_fits.
  - apply ph_low_reachable.
Defined.

Lemma ph_run_is_bounded_dictionary_witness :
  (ph_run (ph_empty 2 hash_low)
     [PhInsert 0%nat "x"; PhInsert 2%nat "y"; PhInsert 4%nat "z";
      PhDelete 0%nat; PhInsert 4%nat "z"; PhLookup 4%nat]).1
  = [RInsert true; RInsert true; RInsert false; RDelete (Some "x");
     RInsert true; RLookup (Some "z")]
  ∧ ph_lookup
      (ph_run (ph_empty 2 hash_low)
         [PhInsert 0%nat "x"; PhInsert 2%nat "y"; PhInsert 4%nat "z";
          PhDelete 0%nat; PhInsert 4%nat "z"; PhLookup 4%nat]).2 2%nat
    = Some "y".
Proof.
  destruct (ph_run_is_bounded_dictionary 2 hash_low
              [PhInsert 0%nat "x"; PhInsert 2%nat "y"; PhInsert 4%nat "z";
               PhDelete 0%nat; PhInsert 4%nat "z"; PhLookup 4%nat])
    as (Hres & _ & _ & Hlook).
  { intros k. destruct (hash_low_fits k) as (_ & Hk & Hle).
    unfold hash_fits. lia. }
  split.
  - rewrite Hres. vm_compute. reflexivity.
  - rewrite Hlook. vm_compute. reflexivity.
Defined.

Lemma ph_delete_makes_room_witness :
  (ph_insert (ph_delete ph_low 3%nat).2 6%nat "w").1 = true
  ∧ ph_lookup (ph_insert (ph_delete ph_low 3%nat).2 6%nat "w").2 6%nat
    = Some "w".
Proof.
  apply (ph_delete_makes_room 3 hash_low ph_low 3%nat 6%nat "w").
  - apply hash_low_fits.
  - apply ph_low_reachable.
  - vm_compute. by eexists.
Defined.

Lemma ph_negative_hash_outside_array_witness :
  (ph_insert (ph_empty 3 hash_id) (-1) "n").1 = true
  ∧ entries (ph_insert (ph_empty 3 hash_id) (-1) "n").2 = 1
  ∧ ph_lookup (ph_insert (ph_empty 3 hash_id) (-1) "n").2 (-1) = Some "n"
  ∧ ph_keys (ph_insert (ph_empty 3 hash_id) (-1) "n").2 = []
  ∧ alength (keys (ph_insert (ph_empty 3 hash_id) (-1) "n").2) = 3%nat.
Proof.
  apply (ph_negative_hash_outside_array 3 hash_id (-1) "n").
  - lia.
  - unfold hash_id. lia.
  - vm_compute. discriminate.
Defined.

(** * The person table *)

Section Mutation.

Context {K V : Type} `{EqDecision K}.
Implicit Types (ht : ProbingHashtable K V) (key : K).

Lemma ph_mutate_vals ht key (f : V -> V) :
  ph_vals ht -> ph_vals (ph_mutate ht key f).
Proof.
  intros Hv. unfold ph_mutate.
  destruct (probe _ _ _ _) as [idx|]; [|done].
  destruct (aget (values ht) idx) as [v|] eqn:Hval; [|done].
  intros i. cbn [keys values]. rewrite aget_aset.
  case_decide as Hi; [|apply Hv]. subst i.
  rewrite <- (Hv idx), Hval. split; by eexists.
Qed.

(** The mutation changes a value slot and nothing else. *)
Lemma ph_mutate_keys ht key (f : V -> V) :
  keys (ph_mutate ht key f) = keys ht
  ∧ hash (ph_mutate ht key f) = hash ht
  ∧ entries (ph_mutate ht key f) = entries ht.
Proof.
  unfold ph_mutate. destruct (probe _ _ _ _) as [idx|]; [|done].
  by destruct (aget (values ht) idx).
Qed.

Lemma ph_mutate_ok ht key (f : V -> V) : ph_ok ht -> ph_ok (ph_mutate ht key f).
Proof.
  intros (Hwf & Hv). split; [|by apply ph_mutate_vals].
  unfold ph_mutate.
  destruct (probe _ _ _ _) as [idx|]; [|done].
  destruct (aget (values ht) idx) as [v|]; [|done].
  by apply ph_wf_values.
Qed.

Lemma ph_mutate_sound ht key (f : V -> V) :
  ph_sound ht -> ph_sound (ph_mutate ht key f).
Proof.
  intros (Hf & Hv). split; [|by apply ph_mutate_vals].
  destruct (ph_mutate_keys ht key f) as (Hk & Hh & _).
  intros k p. rewrite Hk, Hh. apply Hf.
Qed.

(** The mutation is seen by [ph_lookup] of the key and of no other key. *)
Lemma ph_mutate_lookup ht key (f : V -> V) k :
  ph_sound ht ->
  ph_lookup (ph_mutate ht key f) k
  = if decide (k = key) then f <$> ph_lookup ht key else ph_lookup ht k.
Proof.
  intros Hs. pose proof Hs as (Hf & Hv).
  pose proof (ph_mutate_sound ht key f Hs) as Hs'.
  destruct (ph_lookup ht key) as [v|] eqn:Hl.
  - destruct (ph_lookup_Some ht key v Hs Hl) as (p & Hp & Hval).
    pose proof (Hf key p Hp) as Hpr.
    assert (ph_mutate ht key f
            = mkProbing (keys ht) (aset (values ht) p (f v)) (hash ht)
                (entries ht)) as Hm.
    { unfold ph_mutate. by rewrite Hpr, Hval. }
    rewrite Hm in *. case_decide as Hk.
    + subst k.
      destruct (ph_lookup_present _ key p Hs' Hp) as [-> _].
      cbn [values]. by rewrite aget_aset_eq.
    + apply ph_lookup_frame; [done | done | done |].
      intros q Hq. cbn [values]. apply aget_aset_ne. intros ->. congruence.
  - assert (ph_mutate ht key f = ht) as ->.
    { unfold ph_mutate. unfold ph_lookup in Hl.
      destruct (probe _ _ _ _) as [idx|]; [|done]. by rewrite Hl. }
    by case_decide; subst.
Qed.

End Mutation.

(** ** Inserts into a table from which no key was deleted

    Whatever the hash of the key, rounded sums and negative values
    included: the second probe of [ph_insert] is not made, [ph_insert] and
    [ph_lookup] read the same slots, and a key that is written is found
    again, as are the keys that were there. *)

Section InsertOnly.

Context {K V : Type} `{EqDecision K}.
Implicit Types (ht : ProbingHashtable K V) (key : K) (value : V).

Lemma ph_sound_empty size (h : K -> Z) :
  ph_sound (ph_empty (V := V) size h) ∧ no_null (ph_empty (V := V) size h).
Proof.
  split; [split|].
  - intros key p Hp. unfold aget in Hp; simpl in Hp.
    by rewrite lookup_empty in Hp.
  - apply ph_vals_empty.
  - intros i. unfold aget; simpl. by rewrite lookup_empty.
Qed.

Lemma ph_insert_no_null ht key value :
  ph_sound ht -> no_null ht -> ph_lookup ht key = None ->
  ph_sound (ph_insert ht key value).2
  ∧ no_null (ph_insert ht key value).2
  ∧ ∀ k, ph_lookup (ph_insert ht key value).2 k
         = if decide (k = key)
           then (if (ph_insert ht key value).1 then Some value else None)
           else ph_lookup ht k.
Proof.
  intros Hs Hnn Hl. pose proof Hs as (Hf & Hv).
  pose proof (ph_lookup_None ht key Hs Hl) as Habs.
  assert (∀ k, ph_lookup ht k
               = if decide (k = key) then None else ph_lookup ht k) as Hsame.
  { intros k. case_decide; [by subst|done]. }
  unfold ph_insert.
  destruct (probe (keys ht) key (hash ht key) false) as [idx0|] eqn:Hp;
    [|done].
  pose proof Hp as (j0 & Hj0 & Hidx0 & Hstop & Hfirst)%probe_Some.
  destruct (stops_false_inv _ _ Hstop) as [Hnone|[Hnull|Hkey]];
    [|by destruct (Hnn idx0)|by destruct (Habs idx0)].
  assert (resolve (keys ht) key idx0 = idx0) as ->
    by (unfold resolve; by rewrite Hnone).
  cbn zeta. rewrite decide_False by (by rewrite Hnone).
  case_decide as Hfull; [done|]. cbn [fst snd].
  assert (idx0 < Z.of_nat (alength (keys ht))) as Hlt
    by (rewrite Hidx0; apply pos_lt; lia).
  assert (ph_sound
            (mkProbing (aset (keys ht) idx0 (Key key))
               (aset (values ht) idx0 value) (hash ht) (entries ht + 1)))
    as Hs'.
  { split; [|by apply ph_vals_write].
    intros k p. cbn [keys hash]. rewrite aget_aset.
    case_decide as Hat.
    - intros [= <-]. subst p. rewrite Hidx0.
      apply probe_after_write; [done|].
      intros j' Hj'. pose proof (Hfirst j' Hj') as Hnot. split.
      + by apply stops_weaken.
      + intros Heq. rewrite Heq, <- Hidx0, Hnone in Hnot. done.
    - intros Hk. apply probe_write_other; [|done|done|by apply Hf].
      intros ->. by destruct (Habs p). }
  split; [done|]. split.
  - intros i. cbn [keys]. rewrite aget_aset. case_decide; [done|apply Hnn].
  - intros k. case_decide as Hk.
    + subst k.
      destruct (ph_lookup_present _ key idx0 Hs') as [-> _].
      * cbn [keys]. apply aget_aset_eq.
      * cbn [values]. apply aget_aset_eq.
    + apply ph_lookup_frame; [done | done | |].
      * intros q. cbn [keys]. rewrite aget_aset. case_decide as Hq; [|done].
        subst q. rewrite Hnone. split; [congruence | done].
      * intros q Hq. cbn [values]. apply aget_aset_ne. intros ->.
        by rewrite Hnone in Hq.
Qed.

End InsertOnly.

Section AddPeople.

Implicit Types (ht : ProbingHashtable Z Person).

(** The first loop, whatever the ids: what is found afterwards was found
    before or is the record made for an entry of the list. *)
Lemma add_people_any (people : list (Z * string)) : ∀ ht,
  ph_sound ht -> no_null ht ->
  ph_sound (add_people ht people)
  ∧ ∀ id p, ph_lookup (add_people ht people) id = Some p ->
            ph_lookup ht id = Some p
            ∨ ∃ name, (id, name) ∈ people ∧ p = mkPerson id name [] [].
Proof.
  induction people as [|[id0 name] people IH]; intros ht Hs Hnn.
  - simpl. split; [done|]. intros id p Hp. by left.
  - simpl. destruct (ph_lookup ht id0) as [q|] eqn:Hl.
    + destruct (IH ht Hs Hnn) as (Hs' & Hlook). split; [done|].
      intros id p Hp. destruct (Hlook id p Hp) as [?|(n & Hn & ->)];
        [by left|].
      right. exists n. split; [|done]. apply elem_of_cons. by right.
    + destruct (ph_insert_no_null ht id0 (mkPerson id0 name [] []) Hs Hnn Hl)
        as (Hs1 & Hnn1 & Hlook1).
      destruct (IH _ Hs1 Hnn1) as (Hs' & Hlook). split; [done|].
      intros id p Hp. destruct (Hlook id p Hp) as [Hp1|(n & Hn & ->)].
      * rewrite Hlook1 in Hp1. case_decide as Hid; [|by left].
        subst id. right. exists name.
        split; [apply elem_of_cons; by left|].
        destruct (ph_insert ht id0 _).1; by simplify_eq.
      * right. exists n. split; [|done]. apply elem_of_cons. by right.
Qed.

(** The first loop, with ids that fit: every id that is not yet in the
    table gets a record with its first name and no relation; no insert
    fails when the table has room for the list. *)
Lemma add_people_spec (people : list (Z * string)) : ∀ ht,
  ph_ok ht ->
  (∀ id, id ∈ people.*1 -> hash_fits (alength (keys ht)) (hash ht id)) ->
  entries ht + Z.of_nat (length people) ≤ Z.of_nat (alength (keys ht)) ->
  ph_ok (add_people ht people)
  ∧ alength (keys (add_people ht people)) = alength (keys ht)
  ∧ (∀ id, ph_lookup (add_people ht people) id
           = match ph_lookup ht id with
             | Some p => Some p
             | None =>
                 (fun name => mkPerson id name [] []) <$> bd_lookup people id
             end).
Proof.
  induction people as [|[id name] people IH]; intros ht Hok Hfit Hroom.
  - simpl. split; [done|]. split; [done|]. intros id.
    by destruct (ph_lookup ht id).
  - rewrite fmap_cons in Hfit. cbn [fst] in Hfit. simpl in *.
    pose proof Hok as (Hwf & Hv).
    assert (∀ id', id' ∈ people.*1 ->
                   hash_fits (alength (keys ht)) (hash ht id')) as Hfit'
      by (intros id' Hid'; apply Hfit, elem_of_cons; by right).
    assert (hash_fits (alength (keys ht)) (hash ht id)) as Hfid
      by (apply Hfit, elem_of_cons; by left).
    destruct (ph_lookup ht id) as [p|] eqn:Hl.
    + destruct (IH ht Hok Hfit' ltac:(lia)) as (Hok' & Hlen & Hlook).
      split; [done|]. split; [done|]. intros k. rewrite Hlook.
      destruct (ph_lookup ht k) as [q|] eqn:Hk; [done|].
      rewrite decide_False; [done|]. intros ->. congruence.
    + destruct (ph_insert_effect_ok ht id (mkPerson id name [] []) Hok Hfid)
        as (Hres & _ & Hsucc & Hent).
      pose proof (ph_ok_insert ht id (mkPerson id name [] []) Hfid Hok)
        as Hok1.
      destruct (ph_insert_alength ht id (mkPerson id name [] [])
                  (hash_fits_nonneg _ _ Hfid)) as [Hlen1 _].
      assert ((ph_insert ht id (mkPerson id name [] [])).1 = true) as Hb
        by (apply Hres; right; lia).
      rewrite Hb, Hl in Hent.
      destruct (IH _ Hok1) as (Hok' & Hlen & Hlook).
      { intros id' Hid'. rewrite Hlen1, ph_insert_hash. by apply Hfit'. }
      { lia. }
      split; [done|]. split; [congruence|]. intros k.
      rewrite Hlook, (Hsucc Hb k).
      destruct (decide (k = id)) as [->|Hk].
      * by rewrite Hl, decide_True.
      * by rewrite decide_False by congruence.
Qed.

End AddPeople.

Section AddRelations.

Implicit Types (ht : ProbingHashtable Z Person) (known : Z -> bool).

Lemma elem_of_fold_push (l acc : list Z) x :
  x ∈ fold_left push_new l acc ↔ x ∈ acc ∨ x ∈ l.
Proof.
  revert acc. induction l as [|y l IH]; intros acc; simpl.
  - rewrite elem_of_nil. tauto.
  - rewrite IH, elem_of_cons. unfold push_new.
    case_decide as Hy; [|rewrite elem_of_app, list_elem_of_singleton].
    + split; [tauto|]. intros [?|[->|?]]; tauto.
    + tauto.
Qed.

Lemma NoDup_fold_push (l acc : list Z) :
  NoDup acc -> NoDup (fold_left push_new l acc).
Proof.
  revert acc. induction l as [|y l IH]; intros acc Hnd; simpl; [done|].
  apply IH. unfold push_new. case_decide as Hy; [done|].
  apply NoDup_app. split; [done|]. split; [|apply NoDup_singleton].
  intros x Hx ->%list_elem_of_singleton. done.
Qed.

Lemma elem_of_children_in known relations id c :
  c ∈ children_in known relations id
  ↔ (id, c) ∈ relations ∧ known c = true.
Proof.
  unfold children_in. rewrite list_elem_of_omap. split.
  - intros ([p c'] & Hin & Hsel). simpl in Hsel.
    destruct (bool_decide (p = id)) eqn:Hp; [|done].
    destruct (known c') eqn:Hk; [|done].
    apply bool_decide_eq_true in Hp. simpl in Hsel. by simplify_eq.
  - intros [Hin Hk]. exists (id, c). split; [done|]. simpl.
    by rewrite bool_decide_eq_true_2, Hk.
Qed.

Lemma elem_of_parents_in known relations id p :
  p ∈ parents_in known relations id
  ↔ (p, id) ∈ relations ∧ known p = true.
Proof.
  unfold parents_in. rewrite list_elem_of_omap. split.
  - intros ([p' c] & Hin & Hsel). simpl in Hsel.
    destruct (bool_decide (c = id)) eqn:Hc; [|done].
    destruct (known p') eqn:Hk; [|done].
    apply bool_decide_eq_true in Hc. simpl in Hsel. by simplify_eq.
  - intros [Hin Hk]. exists (p, id). split; [done|]. simpl.
    by rewrite bool_decide_eq_true_2, Hk.
Qed.

Lemma related_nil known id q : related known [] id q = q.
Proof. by destruct q. Qed.

Lemma related_cons known r relations id q :
  related known (r :: relations) id q
  = related known relations id (related known [r] id q).
Proof.
  unfold related, parents_in, children_in. simpl.
  destruct (bool_decide (r.2 = id) && known r.1),
           (bool_decide (r.1 = id) && known r.2); done.
Qed.

Lemma link_ok ht parentId childId : ph_ok ht -> ph_ok (link ht parentId childId).
Proof.
  intros Hok. unfold link.
  destruct (ph_lookup ht parentId); [|done].
  destruct (ph_lookup ht childId); [|done].
  by do 2 apply ph_mutate_ok.
Qed.

Lemma link_sound ht parentId childId :
  ph_sound ht -> ph_sound (link ht parentId childId).
Proof.
  intros Hs. unfold link.
  destruct (ph_lookup ht parentId); [|done].
  destruct (ph_lookup ht childId); [|done].
  by do 2 apply ph_mutate_sound.
Qed.

Lemma link_length ht parentId childId :
  alength (keys (link ht parentId childId)) = alength (keys ht)
  ∧ entries (link ht parentId childId) = entries ht.
Proof.
  unfold link.
  destruct (ph_lookup ht parentId); [|done].
  destruct (ph_lookup ht childId); [|done].
  destruct (ph_mutate_keys (ph_mutate ht parentId (add_child childId))
              childId (add_parent parentId)) as (-> & _ & ->).
  by destruct (ph_mutate_keys ht parentId (add_child childId))
    as (-> & _ & ->).
Qed.

(** One relation: the child is pushed on the children of the parent and
    the parent on the parents of the child, when both are in the table. *)
Lemma link_lookup ht known parentId childId id :
  ph_sound ht ->
  (∀ k, known k = true ↔ is_Some (ph_lookup ht k)) ->
  ph_lookup (link ht parentId childId) id
  = related known [(parentId, childId)] id <$> ph_lookup ht id.
Proof.
  intros Hok Hknown. unfold link.
  assert (∀ k, ph_lookup ht k = None -> known k = false) as Hunknown.
  { intros k Hk. destruct (known k) eqn:E; [|done].
    apply Hknown in E as [? E]. congruence. }
  assert (∀ k q, ph_lookup ht k = Some q -> known k = true) as Hfound.
  { intros k q Hk. apply Hknown. by eexists. }
  unfold related, parents_in, children_in. simpl.
  destruct (ph_lookup ht parentId) as [pp|] eqn:Hp.
  - destruct (ph_lookup ht childId) as [pc|] eqn:Hc.
    + rewrite (Hfound _ _ Hp), (Hfound _ _ Hc), !andb_true_r.
      rewrite ph_mutate_lookup by (by apply ph_mutate_sound).
      rewrite !ph_mutate_lookup by done.
      destruct (decide (id = childId)) as [->|Hic].
      * rewrite bool_decide_eq_true_2 by done.
        destruct (decide (childId = parentId)) as [->|Hcp].
        -- rewrite bool_decide_eq_true_2 by done. rewrite Hp. done.
        -- rewrite bool_decide_eq_false_2 by done. rewrite Hc.
           simpl. by destruct pc.
      * rewrite (bool_decide_eq_false_2 (childId = id)) by done.
        destruct (decide (id = parentId)) as [->|Hip].
        -- rewrite bool_decide_eq_true_2 by done. rewrite Hp.
           simpl. by destruct pp.
        -- rewrite bool_decide_eq_false_2 by done.
           destruct (ph_lookup ht id) as [q|]; [|done]. simpl. by destruct q.
    + rewrite (Hunknown _ Hc), andb_false_r.
      destruct (decide (childId = id)) as [->|Hic].
      * by rewrite Hc.
      * rewrite bool_decide_eq_false_2 by done.
        destruct (ph_lookup ht id) as [q|]; [|done]. simpl. by destruct q.
  - rewrite (Hunknown _ Hp), andb_false_r.
    destruct (decide (parentId = id)) as [->|Hip].
    + by rewrite Hp.
    + rewrite bool_decide_eq_false_2 by done.
      destruct (ph_lookup ht id) as [q|]; [|done]. simpl. by destruct q.
Qed.

Lemma add_relations_ok (relations : list (Z * Z)) : ∀ ht,
  ph_ok ht -> ph_ok (add_relations ht relations).
Proof.
  induction relations as [|[p c] relations IH]; intros ht Hok; [done|].
  cbn [add_relations]. by apply IH, link_ok.
Qed.

Lemma add_relations_spec (relations : list (Z * Z)) : ∀ ht known,
  ph_sound ht ->
  (∀ k, known k = true ↔ is_Some (ph_lookup ht k)) ->
  ph_sound (add_relations ht relations)
  ∧ alength (keys (add_relations ht relations)) = alength (keys ht)
  ∧ entries (add_relations ht relations) = entries ht
  ∧ ∀ id, ph_lookup (add_relations ht relations) id
          = related known relations id <$> ph_lookup ht id.
Proof.
  induction relations as [|[p c] relations IH]; intros ht known Hok Hknown.
  - simpl. split; [done|]. split; [done|]. split; [done|]. intros id.
    destruct (ph_lookup ht id) as [q|]; [|done]. simpl.
    by rewrite related_nil.
  - cbn [add_relations]. destruct (link_length ht p c) as [Hlen Hent].
    destruct (IH (link ht p c) known) as (Hok' & Hlen' & Hent' & Hlook).
    + by apply link_sound.
    + intros k. rewrite (link_lookup ht known p c k Hok Hknown).
      rewrite Hknown. by rewrite fmap_is_Some.
    + split; [done|]. split; [congruence|]. split; [congruence|].
      intros id. rewrite Hlook, (link_lookup ht known p c id Hok Hknown).
      destruct (ph_lookup ht id) as [q|]; [|done].
      change (Some (related known relations id
                      (related known [(p, c)] id q))
              = Some (related known ((p, c) :: relations) id q)).
      by rewrite (related_cons known (p, c) relations id q).
Qed.

End AddRelations.

Lemma ph_empty_has_no_key_aux (size : nat) (id : Z) :
  ph_lookup (ph_empty (V := Person) size hash_id) id = None
  ∧ ∀ p, aget (keys (ph_empty (V := Person) size hash_id)) p ≠ Some (Key id).
Proof.
  assert (∀ p, aget (keys (ph_empty (V := Person) size hash_id)) p
               ≠ Some (Key id)) as Habs.
  { intros p. unfold aget; simpl. by rewrite lookup_empty. }
  split; [|done]. apply ph_lookup_absent; [apply ph_vals_empty | done].
Qed.

Section ToHashtable.

Implicit Types (people : list (Z * string)) (relations : list (Z * Z)).

Lemma bd_lookup_is_Some {V : Type} (m : list (Z * V)) k :
  is_Some (bd_lookup m k) ↔ k ∈ m.*1.
Proof.
  rewrite <- not_eq_None_Some, bd_lookup_None.
  destruct (decide (k ∈ m.*1)); tauto.
Qed.

(** The table of [toHashtable], whatever the ids: the records found after
    the first loop are made from entries of [people], and the second loop
    adds the relations between the ids that are found. *)
Lemma toHashtable_any people relations :
  let ht1 := add_people (ph_empty (length people) hash_id) people in
  (∀ id p, ph_lookup ht1 id = Some p ->
           ∃ name, (id, name) ∈ people ∧ p = mkPerson id name [] [])
  ∧ ∀ id,
      ph_lookup (toHashtable people relations) id
      = related (fun k => bool_decide (is_Some (ph_lookup ht1 k))) relations
          id
        <$> ph_lookup ht1 id.
Proof.
  intros ht1.
  destruct (ph_sound_empty (V := Person) (length people) hash_id)
    as [Hs0 Hnn0].
  destruct (add_people_any people _ Hs0 Hnn0) as (Hs1 & Hlook1).
  fold ht1 in Hs1, Hlook1. split.
  - intros id p Hp. destruct (Hlook1 id p Hp) as [Hp0|?]; [|done].
    by destruct (ph_empty_has_no_key_aux (length people) id) as [Hn _];
      rewrite Hn in Hp0.
  - unfold toHashtable. fold ht1.
    destruct (add_relations_spec relations ht1
                (fun k => bool_decide (is_Some (ph_lookup ht1 k))) Hs1)
      as (_ & _ & _ & Hrel); [|done].
    intros k. by rewrite bool_decide_eq_true.
Qed.

(** The table of [toHashtable] when the ids fit. *)
Lemma toHashtable_spec people relations :
  ids_fit people ->
  ph_ok (toHashtable people relations)
  ∧ alength (keys (toHashtable people relations)) = length people
  ∧ ∀ id,
      ph_lookup (toHashtable people relations) id
      = (fun name =>
           related (fun k => bool_decide (k ∈ people.*1)) relations id
             (mkPerson id name [] []))
        <$> bd_lookup people id.
Proof.
  intros Hfit. unfold toHashtable.
  destruct (add_people_spec people (ph_empty (length people) hash_id))
    as (Hok1 & Hlen1 & Hlook1).
  { apply ph_ok_empty. }
  { done. }
  { simpl. lia. }
  assert (∀ id, ph_lookup (add_people (ph_empty (length people) hash_id) people)
                  id
                = (fun name => mkPerson id name [] []) <$> bd_lookup people id)
    as Hlook.
  { intros id. rewrite Hlook1.
    by destruct (ph_empty_has_no_key_aux (length people) id) as [-> _]. }
  clear Hlook1.
  destruct (add_relations_spec relations _
              (fun k => bool_decide (k ∈ people.*1)) (ph_ok_sound _ Hok1))
    as (_ & Hlen & _ & Hrel).
  { intros k. rewrite bool_decide_eq_true, Hlook, fmap_is_Some.
    symmetry. apply bd_lookup_is_Some. }
  split; [by apply add_relations_ok|]. split; [by rewrite Hlen, Hlen1|].
  intros id. rewrite Hrel, Hlook. by destruct (bd_lookup people id).
Qed.

End ToHashtable.

Section ToHashtableClaims.

Implicit Types (people : list (Z * string)) (relations : list (Z * Z)).

(** X12. [toHashtable(people, relations)] as seen by [ph_lookup], for ids
    that fit (integers that are not negative, with [id + length(people)]
    at most [2^53]): an id that is not in [people] is not found; an id of
    [people] is found with a record made of the id, the name of its first
    entry in [people], and, as children (as parents), the ids of [people]
    that [relations] gives it as children (as parents), each once, in the
    order of their first relation.  No insert of the first loop fails. *)
Theorem toHashtable_lookup people relations id :
  ids_fit people ->
  ph_lookup (toHashtable people relations) id
  = (fun name =>
       mkPerson id name
         (fold_left push_new
            (parents_in (fun k => bool_decide (k ∈ people.*1)) relations id)
            [])
         (fold_left push_new
            (children_in (fun k => bool_decide (k ∈ people.*1)) relations id)
            []))
    <$> bd_lookup people id.
Proof.
  intros Hfit.
  destruct (toHashtable_spec people relations Hfit) as (_ & _ & Hlook).
  by rewrite Hlook.
Qed.

(** X13. In [toHashtable(people, relations)], whatever the ids (negative
    ones and ones whose probes are rounded included), the record found for
    an id has that id; its children and its parents hold no id twice and
    only ids of [people]; and for two ids [a] and [b] that are found, [b]
    is among the children of [a] exactly when [a] is among the parents of
    [b], exactly when [(a, b)] is one of the relations. *)
Theorem toHashtable_relations people relations (a b : Z) (pa pb : Person) :
  ph_lookup (toHashtable people relations) a = Some pa ->
  ph_lookup (toHashtable people relations) b = Some pb ->
  person_id pa = a
  ∧ a ∈ people.*1
  ∧ NoDup (children pa) ∧ NoDup (parents pa)
  ∧ (∀ c, c ∈ children pa -> c ∈ people.*1 ∧ (a, c) ∈ relations)
  ∧ (∀ p, p ∈ parents pa -> p ∈ people.*1 ∧ (p, a) ∈ relations)
  ∧ (b ∈ children pa ↔ (a, b) ∈ relations)
  ∧ (a ∈ parents pb ↔ (a, b) ∈ relations).
Proof.
  destruct (toHashtable_any people relations) as (Hmade & Hlook).
  set (ht1 := add_people (ph_empty (length people) hash_id) people) in *.
  rewrite !Hlook. intros Ha Hb.
  destruct (ph_lookup ht1 a) as [qa|] eqn:Hqa; [|done].
  destruct (ph_lookup ht1 b) as [qb|] eqn:Hqb; [|done].
  destruct (Hmade a qa Hqa) as (na & Hna & ->).
  destruct (Hmade b qb Hqb) as (nb & Hnb & ->).
  assert (∀ k, bool_decide (is_Some (ph_lookup ht1 k)) = true ->
               k ∈ people.*1) as Hknown.
  { intros k [q Hq]%bool_decide_eq_true.
    destruct (Hmade k q Hq) as (n & Hn & _).
    apply list_elem_of_fmap. by exists (k, n). }
  assert (bool_decide (is_Some (ph_lookup ht1 a)) = true) as Hka
    by (apply bool_decide_eq_true; by rewrite Hqa).
  assert (bool_decide (is_Some (ph_lookup ht1 b)) = true) as Hkb
    by (apply bool_decide_eq_true; by rewrite Hqb).
  simpl in Ha, Hb. injection Ha as <-. injection Hb as <-.
  unfold related. cbn [person_id children parents].
  split; [done|]. split; [by apply Hknown|].
  split; [apply NoDup_fold_push; constructor|].
  split; [apply NoDup_fold_push; constructor|].
  split; [|split; [|split]].
  - intros c. rewrite elem_of_fold_push, elem_of_children_in, elem_of_nil.
    intros [[]|[Hrel Hk]]. split; [by apply Hknown | done].
  - intros p. rewrite elem_of_fold_push, elem_of_parents_in, elem_of_nil.
    intros [[]|[Hrel Hk]]. split; [by apply Hknown | done].
  - rewrite elem_of_fold_push, elem_of_children_in, elem_of_nil. tauto.
  - rewrite elem_of_fold_push, elem_of_parents_in, elem_of_nil. tauto.
Qed.

(** X14. For ids that fit (integers that are not negative, with
    [id + length(people) - 1] at most [2^53]), the table [toHashtable] builds
    has as many slots as [people] has entries, [ph_keys] lists the ids of
    [people], each once, and [entries] is the number of distinct ids. *)
Theorem toHashtable_keys people relations :
  ids_fit people ->
  alength (keys (toHashtable people relations)) = length people
  ∧ ph_keys (toHashtable people relations) ≡ₚ remove_dups people.*1
  ∧ entries (toHashtable people relations)
    = Z.of_nat (length (remove_dups people.*1)).
Proof.
  intros Hfit.
  destruct (toHashtable_spec people relations Hfit) as (Hok & Hlen & Hlook).
  destruct (ph_keys_facts _ Hok) as (Hkeys & Hnd & Hent).
  assert (ph_keys (toHashtable people relations) ≡ₚ remove_dups people.*1)
    as Hperm.
  { apply NoDup_Permutation; [done | apply NoDup_remove_dups|].
    intros k. rewrite Hkeys, Hlook, fmap_is_Some, elem_of_remove_dups.
    apply bd_lookup_is_Some. }
  split; [done|]. split; [done|]. by rewrite Hent, Hperm.
Qed.

End ToHashtableClaims.

(** * Descendants *)

Section Descendants.

Implicit Types (ht : ProbingHashtable Z Person) (stack result : list Z).

Lemma push_new_elem result x y : y ∈ push_new result x ↔ y ∈ result ∨ y = x.
Proof.
  unfold push_new. case_decide as Hx.
  - split; [by left | intros [?| ->]; done].
  - by rewrite elem_of_app, list_elem_of_singleton.
Qed.

Lemma push_new_NoDup result x : NoDup result -> NoDup (push_new result x).
Proof. intros Hnd. by apply (NoDup_fold_push [x] result). Qed.

(** The stack after [current] was popped. *)
Lemma descend_step fuel ht current rest result :
  descend (S fuel) ht (current :: rest) result
  = descend fuel ht
      (match ph_lookup ht current with
       | Some child => reverse (children child) ++ rest
       | None => rest
       end)
      (push_new result current).
Proof. done. Qed.

Lemma elem_of_next_stack ht current rest x :
  x ∈ match ph_lookup ht current with
      | Some child => reverse (children child) ++ rest
      | None => rest
      end
  ↔ child_of ht current x ∨ x ∈ rest.
Proof.
  unfold child_of. destruct (ph_lookup ht current) as [p|].
  - rewrite elem_of_app, elem_of_reverse. split.
    + intros [?|?]; [left; by exists p | by right].
    + intros [(q & [= <-] & ?)|?]; [by left | by right].
  - split; [by right | intros [(q & ? & _)|?]; done].
Qed.

(** What a finished loop returns: it keeps what was in [result], holds no
    id twice, and is made of [result] and of what the ids of the stack
    reach. *)
Lemma descend_result fuel ht : ∀ stack result r,
  descend fuel ht stack result = Some r ->
  NoDup result ->
  (∀ a b, a ∈ result -> child_of ht a b -> b ∈ result ∨ b ∈ stack) ->
  NoDup r
  ∧ (∀ x, x ∈ result -> x ∈ r)
  ∧ (∀ x, x ∈ stack -> x ∈ r)
  ∧ (∀ a b, a ∈ r -> child_of ht a b -> b ∈ r)
  ∧ (∀ x, x ∈ r -> x ∈ result ∨ ∃ s, s ∈ stack ∧ rtc (child_of ht) s x).
Proof.
  induction fuel as [|fuel IH]; intros stack result r Hd Hnd Hclosed.
  - destruct stack as [|c rest]; [|done]. simpl in Hd. injection Hd as <-.
    split; [done|]. split; [done|]. split; [by intros x ?%elem_of_nil|].
    split; [|by left]. intros a b Ha Hab.
    destruct (Hclosed a b Ha Hab) as [?|?%elem_of_nil]; done.
  - destruct stack as [|c rest].
    { simpl in Hd. injection Hd as <-.
      split; [done|]. split; [done|]. split; [by intros x ?%elem_of_nil|].
      split; [|by left]. intros a b Ha Hab.
      destruct (Hclosed a b Ha Hab) as [?|?%elem_of_nil]; done. }
    rewrite descend_step in Hd.
    destruct (IH _ _ _ Hd) as (Hr1 & Hr2 & Hr3 & Hr4 & Hr5).
    + by apply push_new_NoDup.
    + intros a b Ha Hab. rewrite push_new_elem, elem_of_next_stack.
      apply push_new_elem in Ha as [Ha| ->].
      * destruct (Hclosed a b Ha Hab) as [?|[->|?]%elem_of_cons]; auto.
      * auto.
    + split; [done|]. split; [|split; [|split; [done|]]].
      * intros x Hx. apply Hr2, push_new_elem. by left.
      * intros x [->|Hx]%elem_of_cons.
        -- apply Hr2, push_new_elem. by right.
        -- apply Hr3, elem_of_next_stack. by right.
      * intros x Hx. destruct (Hr5 x Hx) as [Hres|(s & Hs & Hreach)].
        -- apply push_new_elem in Hres as [?| ->]; [by left|].
           right. exists c. split; [apply elem_of_cons; by left | done].
        -- right. apply elem_of_next_stack in Hs as [Hcs|Hs].
           ++ exists c. split; [apply elem_of_cons; by left|].
              by eapply rtc_l.
           ++ exists s. split; [apply elem_of_cons; by right | done].
Qed.

(** An id whose descendants are well founded is worked off, with what it
    pushed, in a number of iterations that does not depend on the rest of
    the stack. *)
Lemma descend_list ht (l : list Z) :
  (∀ y, y ∈ l ->
        ∀ rest result, ∃ n result',
          ∀ m, descend (n + m) ht (y :: rest) result
               = descend m ht rest result') ->
  ∀ rest result, ∃ n result',
    ∀ m, descend (n + m) ht (l ++ rest) result = descend m ht rest result'.
Proof.
  induction l as [|y l IH]; intros Hl rest result.
  - by exists 0%nat, result.
  - destruct (Hl y ltac:(apply elem_of_cons; by left) (l ++ rest) result)
      as (n1 & r1 & H1).
    destruct (IH ltac:(intros z Hz; apply Hl, elem_of_cons; by right) rest r1)
      as (n2 & r2 & H2).
    exists (n1 + n2)%nat, r2. intros m.
    rewrite <- Nat.add_assoc. simpl. rewrite H1. apply H2.
Qed.

Lemma descend_node ht c :
  Acc (flip (child_of ht)) c ->
  ∀ rest result, ∃ n result',
    ∀ m, descend (n + m) ht (c :: rest) result = descend m ht rest result'.
Proof.
  induction 1 as [c _ IH]. intros rest result.
  destruct (descend_list ht
              (match ph_lookup ht c with
               | Some child => reverse (children child)
               | None => []
               end)) with (rest := rest) (result := push_new result c)
    as (n & r' & Hn).
  - intros y Hy. apply IH. unfold flip, child_of.
    destruct (ph_lookup ht c) as [p|]; [|by apply elem_of_nil in Hy].
    exists p. split; [done|]. by apply elem_of_reverse.
  - exists (S n), r'. intros m. simpl. rewrite <- Hn.
    by destruct (ph_lookup ht c).
Qed.

(** A loop with an id on its stack from which a never-ending line of
    children starts does not finish. *)
Lemma descend_trapped ht (P : Z -> Prop) fuel :
  (∀ x, P x -> ∃ y, child_of ht x y ∧ P y) ->
  ∀ stack result,
    (∃ x, x ∈ stack ∧ P x) -> descend fuel ht stack result = None.
Proof.
  intros Htrap. induction fuel as [|fuel IH]; intros stack result (x & Hx & HP).
  - destruct stack; [by apply elem_of_nil in Hx | done].
  - destruct stack as [|c rest]; [by apply elem_of_nil in Hx|].
    rewrite descend_step. apply IH.
    apply elem_of_cons in Hx as [->|Hx].
    + destruct (Htrap c HP) as (y & Hy & HPy). exists y.
      split; [|done]. apply elem_of_next_stack. by left.
    + exists x. split; [|done]. apply elem_of_next_stack. by right.
Qed.

Lemma tc_child_of ht id x :
  tc (child_of ht) id x
  ↔ ∃ c, child_of ht id c ∧ rtc (child_of ht) c x.
Proof.
  split.
  - intros Htc. destruct Htc as [a b Hab|a b c Hab Hbc].
    + exists b. split; [done | apply rtc_refl].
    + exists b. split; [done | by apply tc_rtc].
  - intros (c & Hc & Hr). eapply tc_rtc_r; [by apply tc_once | done].
Qed.

Lemma closed_rtc ht (r : list Z) c x :
  (∀ a b, a ∈ r -> child_of ht a b -> b ∈ r) ->
  rtc (child_of ht) c x -> c ∈ r -> x ∈ r.
Proof.
  intros Hclosed Hrtc. induction Hrtc as [|a b d Hab _ IH]; [done|].
  intros Ha. apply IH. by apply (Hclosed a b).
Qed.

Lemma descend_nil fuel ht result : descend fuel ht [] result = Some result.
Proof. by destruct fuel. Qed.

(** What [descendants] returns when its loop finishes. *)
Lemma descendants_result fuel ht (id : Z) (r : list Z) :
  descendants fuel ht id = Some (Some r) ->
  NoDup r ∧ ∀ x, x ∈ r ↔ tc (child_of ht) id x.
Proof.
  unfold descendants. destruct (ph_lookup ht id) as [ancestor|] eqn:Hl; [|done].
  destruct (descend fuel ht (reverse (children ancestor)) []) as [r'|] eqn:Hd;
    [|done].
  intros [= <-].
  destruct (descend_result fuel ht _ _ _ Hd) as (Hnd & _ & Hstack & Hcl & Hsound).
  - constructor.
  - by intros a b ?%elem_of_nil.
  - split; [done|]. intros x. rewrite tc_child_of. split.
    + intros Hx. destruct (Hsound x Hx) as [?%elem_of_nil|(s & Hs & Hr)]; [done|].
      exists s. split; [|done]. exists ancestor.
      split; [done | by apply elem_of_reverse].
    + intros (c & (p & Hp & Hc) & Hr). simplify_eq.
      apply (closed_rtc ht r' c x Hcl Hr), Hstack. by apply elem_of_reverse.
Qed.

End Descendants.

Section DescendantsClaims.

Implicit Types (ht : ProbingHashtable Z Person).


Lemma toHashtable_child_of (people : list (Z * string))
    (relations : list (Z * Z)) a b :
  ids_fit people ->
  child_of (toHashtable people relations) a b
  ↔ (a, b) ∈ relations ∧ a ∈ people.*1 ∧ b ∈ people.*1.
Proof.
  intros Hfit.
  destruct (toHashtable_spec people relations Hfit) as (_ & _ & Hlook).
  unfold child_of. setoid_rewrite Hlook. split.
  - intros (p & Hp & Hb).
    assert (a ∈ people.*1) as Hina.
    { apply bd_lookup_is_Some.
      destruct (bd_lookup people a); [by eexists | done]. }
    destruct (bd_lookup people a) as [na|]; [|done].
    simpl in Hp. injection Hp as <-. unfold related in Hb.
    cbn [children] in Hb.
    rewrite elem_of_fold_push, elem_of_children_in, elem_of_nil in Hb.
    rewrite bool_decide_eq_true in Hb. tauto.
  - intros (Hrel & Ha & Hb).
    apply bd_lookup_is_Some in Ha as [na Hna]. rewrite Hna.
    eexists. split; [reflexivity|]. unfold related. cbn [children].
    rewrite elem_of_fold_push, elem_of_children_in.
    right. split; [done|]. by apply bool_decide_eq_true.
Qed.

(** X15. What [descendants] returns when its loop finishes: for an id that
    is in the table, the list holds no id twice and holds exactly the ids
    reached from the id by one or more steps from a person of the table to
    one of its children. *)
Theorem descendants_correct (fuel : nat) ht (id : Z) (r : list Z) :
  descendants fuel ht id = Some (Some r) ->
  NoDup r ∧ ∀ x, x ∈ r ↔ tc (child_of ht) id x.
Proof. apply descendants_result. Qed.

(** X16. [descendants] returns when no never-ending line of children
    starts at the id: if every child of the id is accessible for the
    relation from a person to its children, there is a number of
    iterations within which the loop has finished.  What it returns is
    [undefined] exactly when the id is not found in the table, and
    otherwise a list that holds, each once, the ids reached from the id by
    one or more steps from a person to one of its children. *)
Theorem descendants_terminates ht (id : Z) :
  (∀ c, child_of ht id c -> Acc (flip (child_of ht)) c) ->
  ∃ (fuel : nat) (res : option (list Z)),
    (∀ fuel', (fuel ≤ fuel')%nat -> descendants fuel' ht id = Some res)
    ∧ (res = None ↔ ph_lookup ht id = None)
    ∧ ∀ r, res = Some r ->
           NoDup r ∧ ∀ x, x ∈ r ↔ tc (child_of ht) id x.
Proof.
  intros Hacc.
  destruct (ph_lookup ht id) as [ancestor|] eqn:Hl.
  - destruct (descend_list ht (reverse (children ancestor)))
      with (rest := @nil Z) (result := @nil Z) as (n & r & Hn).
    + intros y Hy. apply descend_node, Hacc. exists ancestor.
      split; [done | by apply elem_of_reverse].
    + assert (∀ fuel', (n ≤ fuel')%nat ->
                       descendants fuel' ht id = Some (Some r)) as Hret.
      { intros fuel' Hle. unfold descendants. rewrite Hl.
        replace fuel' with (n + (fuel' - n))%nat by lia.
        rewrite <- (app_nil_r (reverse (children ancestor))).
        by rewrite Hn, descend_nil. }
      exists n, (Some r). split; [done|]. split; [done|].
      intros r' [= <-]. apply (descendants_result n ht id r).
      by apply Hret.
  - exists 0%nat, None. split; [|done].
    intros fuel' _. unfold descendants. by rewrite Hl.
Qed.

(** X17. [descendants] does not return when a never-ending line of
    children starts at a child of the id, as with a person that is among
    its own descendants: the loop pushes the children of every id it pops,
    also of one it has seen, and is still running after any number of
    iterations. *)
Theorem descendants_diverges ht (id c : Z) (P : Z -> Prop) :
  (∀ x, P x -> ∃ y, child_of ht x y ∧ P y) ->
  child_of ht id c ->
  P c ->
  ∀ fuel, descendants fuel ht id = None.
Proof.
  intros Htrap (ancestor & Hl & Hc) HP fuel. unfold descendants. rewrite Hl.
  rewrite (descend_trapped ht P fuel Htrap); [done|].
  exists c. split; [by apply elem_of_reverse | done].
Qed.


End DescendantsClaims.

Lemma family_fits : ids_fit [(1, "a"); (2, "b"); (3, "c")].
Proof.
  intros id Hid. simpl in Hid.
  rewrite !elem_of_cons, elem_of_nil in Hid.
  unfold hash_fits, hash_id. simpl. lia.
Qed.

Lemma family_loop_fits : ids_fit [(1, "a")].
Proof.
  intros id Hid. simpl in Hid.
  rewrite !elem_of_cons, elem_of_nil in Hid.
  unfold hash_fits, hash_id. simpl. lia.
Qed.

Lemma toHashtable_lookup_witness :
  ph_lookup family 2 = Some (mkPerson 2 "b" [1] [3])
  ∧ ph_lookup family 7 = None.
Proof.
  split.
  - etrans; [apply (toHashtable_lookup
                      [(1, "a"); (2, "b"); (3, "c")] [(1, 2); (2, 3)] 2),
               family_fits|].
    vm_compute. reflexivity.
  - etrans; [apply (toHashtable_lookup
                      [(1, "a"); (2, "b"); (3, "c")] [(1, 2); (2, 3)] 7),
               family_fits|].
    vm_compute. reflexivity.
Defined.

Lemma toHashtable_relations_witness :
  person_id (mkPerson 1 "a" [] [2]) = 1
  ∧ 1 ∈ [(1, "a"); (2, "b"); (3, "c")].*1
  ∧ NoDup (children (mkPerson 1 "a" [] [2]))
  ∧ NoDup (parents (mkPerson 1 "a" [] [2]))
  ∧ (∀ c, c ∈ children (mkPerson 1 "a" [] [2]) ->
          c ∈ [(1, "a"); (2, "b"); (3, "c")].*1
          ∧ (1, c) ∈ [(1, 2); (2, 3)])
  ∧ (∀ p, p ∈ parents (mkPerson 1 "a" [] [2]) ->
          p ∈ [(1, "a"); (2, "b"); (3, "c")].*1
          ∧ (p, 1) ∈ [(1, 2); (2, 3)])
  ∧ (2 ∈ children (mkPerson 1 "a" [] [2])
     ↔ (1, 2) ∈ [(1, 2); (2, 3)])
  ∧ (1 ∈ parents (mkPerson 2 "b" [1] [3])
     ↔ (1, 2) ∈ [(1, 2); (2, 3)]).
Proof.
  apply (toHashtable_relations
           [(1, "a"); (2, "b"); (3, "c")] [(1, 2); (2, 3)]
           1 2 (mkPerson 1 "a" [] [2]) (mkPerson 2 "b" [1] [3])).
  - vm_compute. reflexivity.
  - vm_compute. reflexivity.
Defined.

Lemma toHashtable_keys_witness :
  alength (keys family) = 3%nat
  ∧ ph_keys family ≡ₚ remove_dups [(1, "a"); (2, "b"); (3, "c")].*1
  ∧ entries family
    = Z.of_nat (length (remove_dups [(1, "a"); (2, "b"); (3, "c")].*1)).
Proof.
  apply (toHashtable_keys [(1, "a"); (2, "b"); (3, "c")] [(1, 2); (2, 3)]).
  apply family_fits.
Defined.

Lemma descendants_correct_witness :
  NoDup [2; 3] ∧ ∀ x, x ∈ [2; 3] ↔ tc (child_of family) 1 x.
Proof.
  apply (descendants_correct 5 family 1 [2; 3]).
  vm_compute. reflexivity.
Defined.

Lemma family_child_of a b :
  child_of family a b -> (a = 1 ∧ b = 2) ∨ (a = 2 ∧ b = 3).
Proof.
  intros Hc. apply toHashtable_child_of in Hc as (Hrel & _);
    [|apply family_fits].
  apply elem_of_cons in Hrel as [[= -> ->]|Hrel]; [by left|].
  apply elem_of_cons in Hrel as [[= -> ->]|Hrel]; [by right|].
  by apply elem_of_nil in Hrel.
Qed.

Lemma descendants_terminates_witness :
  ∃ (fuel : nat) (res : option (list Z)),
    (∀ fuel', (fuel ≤ fuel')%nat -> descendants fuel' family 1 = Some res)
    ∧ (res = None ↔ ph_lookup family 1 = None)
    ∧ ∀ r, res = Some r ->
           NoDup r ∧ ∀ x, x ∈ r ↔ tc (child_of family) 1 x.
Proof.
  apply (descendants_terminates family 1).
  intros c [[_ ->]|[[=] _]]%family_child_of.
  constructor. intros y [[[=] _]|[_ ->]]%family_child_of.
  constructor. intros z [[[=] _]|[[=] _]]%family_child_of.
Defined.

Lemma descendants_diverges_witness :
  descendants 1000 family_loop 1 = None.
Proof.
  assert (child_of family_loop 1 1) as Hself.
  { apply toHashtable_child_of; [apply family_loop_fits|].
    repeat split; apply elem_of_cons; by left. }
  apply (descendants_diverges family_loop 1 1 (fun x => x = 1)).
  - intros x ->. by exists 1.
  - exact Hself.
  - reflexivity.
Defined.


(** The expected results of the unit tests of the module. *)
Example descendants_unit_tests :
  descendants 10
    (toHashtable
       [(18540106, "Sherlock Homeless"); (19790706, "Kevin Hart");
        (19550722, "Willem Dafriend"); (19640902, "Keanu Arrives")]
       [(18540106, 19790706); (18540106, 19550722);
        (19790706, 19640902)])
    18540106
  = Some (Some [19550722; 19790706; 19640902])
  ∧ descendants 10
      (toHashtable
         [(18540106, "Sherlock Homeless"); (19790706, "Kevin Hart");
          (19550722, "Willem Dafriend")]
         [(18540106, 19790706); (18540106, 19790706);
          (18540106, 19550722)])
      18540106
    = Some (Some [19550722; 19790706])
  ∧ descendants 10 (toHashtable [(19550224, "Steve Jobsworth")] [])
      18540106
    = Some None
  ∧ slots (keys (toHashtable [] [])) = []
  ∧ entries (toHashtable [] []) = 0.
Proof. vm_compute. repeat split; reflexivity. Qed.

(** With ids from [2^53] on, the third insert of the first loop fails: the
    person is not in the table, and [descendants] of its parent does not
    follow the relation. *)
Example toHashtable_loses_a_person_by_rounding :
  let people := [(2 ^ 53, "a"); (2 ^ 53 + 6, "b"); (2 ^ 53 + 12, "c")] in
  let ht := toHashtable people [(2 ^ 53, 2 ^ 53 + 12)] in
  ph_lookup ht (2 ^ 53 + 12) = None
  ∧ entries ht = 2
  ∧ ph_keys ht = [2 ^ 53 + 6; 2 ^ 53]
  ∧ descendants 10 ht (2 ^ 53) = Some (Some []).
Proof. vm_compute. repeat split; reflexivity. Qed.
